(** * OTLP ingestion gateway (packages/api/src/otelGateway/server.ts)

    A shallow embedding of the gateway's token extraction, shard routing,
    authentication cache, HTTP and gRPC request handlers, HTTP/2 session
    pool and stream bridge, followed by the properties established about
    them.

    Conventions.
    - A JavaScript string is a [string]; one [ascii] stands for one code
      unit.  Node decodes header bytes as Latin-1, so every code unit of a
      header name or value is below 256.
    - [Map<string, V>] is a [gmap string V].
    - An [async] function or an event handler is a function from the
      state it reads to the state it leaves and the list of effects it
      performs, in program order. *)

From Stdlib Require Import Ascii DecimalString DecimalN ZArith Lia.
From stdpp Require Import gmap strings list.

(* ===================================================================== *)
(** * Part I: the model                                                   *)
(* ===================================================================== *)

(** ** JavaScript string primitives used by the gateway *)
Module Js.

Definition code (c : ascii) : N := N_of_ascii c.

(** [WhiteSpace] and [LineTerminator] code units below 256: TAB, LF, VT,
    FF, CR, SP and NBSP.  This is the class of [\s] and of [trim]. *)
Definition is_space (c : ascii) : bool :=
  let n := code c in
  ((9 <=? n) && (n <=? 13) || (n =? 32) || (n =? 160))%N.

(** [LineTerminator] code units below 256: the characters [.] rejects. *)
Definition is_line_terminator (c : ascii) : bool :=
  let n := code c in ((n =? 10) || (n =? 13))%N.

(** [\d] *)
Definition is_digit (c : ascii) : bool :=
  let n := code c in ((48 <=? n) && (n <=? 57))%N.

Definition digit_value (c : ascii) : N := (code c - 48)%N.

Fixpoint all (p : ascii → bool) (s : string) : bool :=
  match s with
  | EmptyString => true
  | String c s' => p c && all p s'
  end.

(** Truthiness of a string: only the empty string is falsy. *)
Definition truthy (s : string) : bool :=
  match s with EmptyString => false | String _ _ => true end.

(** [s.substring(0, n)] *)
Fixpoint take (n : nat) (s : string) : string :=
  match n, s with
  | S n', String c s' => String c (take n' s')
  | _, _ => EmptyString
  end.

Fixpoint trimStart (s : string) : string :=
  match s with
  | String c s' => if is_space c then trimStart s' else s
  | EmptyString => EmptyString
  end.

Fixpoint trimEnd (s : string) : string :=
  match s with
  | EmptyString => EmptyString
  | String c s' =>
      match trimEnd s' with
      | EmptyString => if is_space c then EmptyString else String c EmptyString
      | r => String c r
      end
  end.

(** [s.trim()] *)
Definition trim (s : string) : string := trimEnd (trimStart s).

(** [c.toLowerCase()] on one code unit below 256: A-Z and the Latin-1
    capitals (192-222 except the multiplication sign 215) move up by 32. *)
Definition lower_char (c : ascii) : ascii :=
  let n := code c in
  if ((65 <=? n) && (n <=? 90) ||
      (192 <=? n) && (n <=? 222) && negb (n =? 215))%N
  then ascii_of_N (n + 32) else c.

Fixpoint toLowerCase (s : string) : string :=
  match s with
  | EmptyString => EmptyString
  | String c s' => String (lower_char c) (toLowerCase s')
  end.

(** [s.startsWith(p)], returning the rest of [s] after [p]. *)
Fixpoint strip_prefix (p s : string) : option string :=
  match p, s with
  | EmptyString, _ => Some s
  | String a p', String b s' =>
      if Ascii.eqb a b then strip_prefix p' s' else None
  | String _ _, EmptyString => None
  end.

(** [Number.parseInt(ds, 10)] on a string of decimal digits, read left
    to right.  The value is exact here; the double that JavaScript
    produces differs from it only from 2^53 on, above every array
    length, so indexing an array gives the same answer. *)
Fixpoint parseInt_acc (acc : N) (ds : string) : N :=
  match ds with
  | EmptyString => acc
  | String c ds' => parseInt_acc (acc * 10 + digit_value c)%N ds'
  end.

Definition parseInt (ds : string) : N := parseInt_acc 0 ds.

(** [needle] occurs in [s] ([s.includes(needle)]). *)
Fixpoint includes (s needle : string) : bool :=
  match strip_prefix needle s with
  | Some _ => true
  | None =>
      match s with
      | EmptyString => false
      | String _ s' => includes s' needle
      end
  end.

End Js.

(** ** Request headers and bearer-token extraction *)
Module Headers.

(** A header value is [string | string[]]; an absent header is [None]. *)
Inductive HeaderValue :=
| HStr (s : string)
| HArr (l : list string).

(** [IncomingHttpHeaders]: the object's own keys in insertion order. *)
Definition t := list (string * HeaderValue).

(** [headers[k]] *)
Fixpoint get (k : string) (h : t) : option HeaderValue :=
  match h with
  | [] => None
  | (k', v) :: h' => if String.eqb k k' then Some v else get k h'
  end.

(** [{...h, [k]: v}]: an existing key keeps its position. *)
Fixpoint set (k : string) (v : HeaderValue) (h : t) : t :=
  match h with
  | [] => [(k, v)]
  | (k', v') :: h' =>
      if String.eqb k k' then (k', v) :: h' else (k', v') :: set k v h'
  end.

(** [Object.keys(h)] *)
Definition keys (h : t) : list string := h.*1.

(** Truthiness of a header value: an array is always truthy. *)
Definition truthy (v : HeaderValue) : bool :=
  match v with HStr s => Js.truthy s | HArr _ => true end.

Definition is_authorization (key : string) : bool :=
  String.eqb (Js.toLowerCase key) "authorization".

Definition getAuthHeader (headers : t) : option HeaderValue :=
  let direct := get "authorization" headers in
  if from_option truthy false direct then direct
  else
    match List.find is_authorization (keys headers) with
    | Some authKey => get authKey headers
    | None => None
    end.

(** [(.+)$]: the rest of the input, non-empty and free of line
    terminators. *)
Definition dot_plus_end (s : string) : option string :=
  if Js.truthy s && Js.all (λ c, negb (Js.is_line_terminator c)) s
  then Some s else None.

(** [\s+(.+)$] with the greedy quantifier's backtracking: take one more
    white-space character first, and give it back when the rest fails. *)
Fixpoint spaces_then_group (s : string) : option string :=
  match s with
  | String c s' =>
      if Js.is_space c then
        match spaces_then_group s' with
        | Some g => Some g
        | None => dot_plus_end s'
        end
      else None
  | EmptyString => None
  end.

(** [h.match(/^[Bb]earer\s+(.+)$/)], returning capture group 1. *)
Definition match_bearer (h : string) : option string :=
  match h with
  | String c rest =>
      if Ascii.eqb c "B" || Ascii.eqb c "b" then
        match Js.strip_prefix "earer" rest with
        | Some rest' => spaces_then_group rest'
        | None => None
        end
      else None
  | EmptyString => None
  end.

(** The result is [string | null]; [Some ""] is a possible result. *)
Definition getBearerToken (authHeader : option HeaderValue) : option string :=
  let h := match authHeader with
           | Some (HArr l) => head l
           | Some (HStr s) => Some s
           | None => None
           end in
  match h with
  | None => None
  | Some h =>
      if negb (Js.truthy h) then None
      else
        let fallback :=
          let trimmed := Js.trim h in
          if Js.truthy trimmed then Some trimmed else None in
        match match_bearer h with
        | Some m1 => if Js.truthy m1 then Some (Js.trim m1) else fallback
        | None => fallback
        end
  end.

(** [!token] at the call sites: [null] and the empty string are falsy. *)
Definition token_missing (token : option string) : bool :=
  match token with
  | None => true
  | Some t => negb (Js.truthy t)
  end.

End Headers.

(** ** Shard router *)
Module Shard.

(** [shardId.match(/^shard-(\d+)$/)] followed by [parseInt]. *)
Definition shardIndexFromId (shardId : string) : option N :=
  match Js.strip_prefix "shard-" shardId with
  | Some ds =>
      if Js.truthy ds && Js.all Js.is_digit ds
      then Some (Js.parseInt ds) else None
  | None => None
  end.

(** [endpoints[idx] ?? null] *)
Definition pickShardEndpoint (shardId : string) (endpoints : list string)
  : option string :=
  match shardIndexFromId shardId with
  | None => None
  | Some idx => endpoints !! N.to_nat idx
  end.

End Shard.

(** ** Effects performed by the handlers, in program order *)
Module Fx.

Inductive Level := Info | Warn | Error.

(** A logged value.  Nested objects are flattened into dotted keys
    ([headers.authorization]). *)
Inductive Value :=
| VStr (s : string)
| VNum (n : Z)
| VBool (b : bool)
| VStrs (l : list string)
| VNull
| VUndefined
| VErr.                                  (* an error object, left opaque *)

Definition Fields := list (string * Value).

(** The options object handed to [http.request]. *)
Record RequestOptions := {
  protocol : string;
  hostname : string;
  port : string;
  method : option string;
  path : string;
  headers : Headers.t;
}.

(** Headers of a response on an inbound HTTP/2 stream. *)
Inductive RespHeaders :=
| Status (n : N)                 (* [{ ':status': n }] *)
| Relayed (h : Headers.t).       (* the shard's own response headers *)

(** The reason a promise of [getClientSession] is rejected with. *)
Inductive Err :=
| ErrCode (code : string)              (* an error raised by the transport *)
| ErrTimeout (target : string)         (* [Connection timeout for ...] *)
| ErrClosedAfterConnect (target : string).

Inductive Effect :=
| Log (l : Level) (fields : Fields) (msg : string)
| ResolveToken (token : string)          (* [await resolveIngestionToken(token)] *)
| MarkUsed (tokenId : string)            (* [void markIngestionTokenUsed(id)] *)
(* inbound HTTP/1 response *)
| WriteHead (status : N) (hdrs : option Headers.t)
| ResWrite (chunk : string)
| ResEnd (body : option string)
(* outbound HTTP/1 request *)
| HttpRequest (o : RequestOptions)
| ProxyWrite (chunk : string)
| ProxyEnd
(* inbound HTTP/2 stream *)
| StreamRespond (h : RespHeaders)        (* [stream.respond(h)] returned *)
| StreamEnd                              (* [stream.end()] returned *)
| StreamWrite (chunk : string)           (* written by [proxyStream.pipe(stream)] *)
| StreamEndByPipe                        (* [end()] issued by that pipe itself *)
(* session pool *)
| GetClientSession (target : string)     (* a call of [getClientSession] *)
| PoolEvict (target : string)            (* the handler drops a pool entry *)
| Http2Connect (target : string) (session : nat)
| SessionDestroy (session : nat)
| SessionPing (session : nat)
| Resolve (promise session : nat)
| Reject (promise : nat) (e : Err)
(* outbound HTTP/2 stream on a pooled session *)
| SessionRequest (session : nat) (hdrs : Headers.t)
| OutWrite (chunk : string)              (* written by the inbound pipe *)
| OutEnd                                 (* [end()] issued by the inbound pipe *)
| OutDestroy                             (* [proxyStream.destroy()] *)
(* an exception that leaves a callback of the gateway uncaught *)
| Uncaught.

Definition of_header (v : option Headers.HeaderValue) : Value :=
  match v with
  | Some (Headers.HStr s) => VStr s
  | Some (Headers.HArr l) => VStrs l
  | None => VUndefined
  end.

Definition of_opt (v : option string) : Value :=
  match v with Some s => VStr s | None => VUndefined end.

Definition is_log (e : Effect) : bool :=
  match e with Log _ _ _ => true | _ => false end.

Definition is_resolver_call (e : Effect) : bool :=
  match e with ResolveToken _ => true | _ => false end.

(** An effect that sends something to a shard. *)
Definition is_forward (e : Effect) : bool :=
  match e with
  | HttpRequest _ | ProxyWrite _ | ProxyEnd
  | SessionRequest _ _ | OutWrite _ | OutEnd => true
  | _ => false
  end.

(** The status codes sent to the caller. *)
Definition status_of (e : Effect) : option N :=
  match e with
  | WriteHead n _ => Some n
  | StreamRespond (Status n) => Some n
  | _ => None
  end.

Definition statuses (tr : list Effect) : list N := omap status_of tr.

Definition resolver_calls (tr : list Effect) : nat :=
  length (filter (λ e, is_resolver_call e = true) tr).

Definition forwards (tr : list Effect) : list Effect :=
  filter (λ e, is_forward e = true) tr.

End Fx.

(** ** Authentication cache *)
Module Auth.

Record CachedAuth := {
  teamId : string;
  assignedShard : option string;
  expiresAt : Z;
}.

(** What [resolveIngestionToken] resolves a token to. *)
Record ResolvedToken := {
  r_teamId : string;
  r_assignedShard : option string;
  tokenHash : string;
  tokenId : string;
}.

(** The promise returned by [resolveIngestionToken] is rejected, or is
    fulfilled with a record or with [null]. *)
Inductive ResolverOutcome :=
| Rejected
| Fulfilled (r : option ResolvedToken).

Definition Resolver := string → ResolverOutcome.

(** Completion of an [async] function body. *)
Inductive Completion (A : Type) :=
| Return (a : A)
| Throw.
Arguments Return {A} a.
Arguments Throw {A}.

Definition TTL : Z := 60000.

(** [authenticateToken(token)], with [now] the value of [Date.now()]
    read after the resolver has answered and [authCache] the
    module-level map. *)
Definition authenticateToken (resolve : Resolver) (now : Z) (token : string)
    (authCache : gmap string CachedAuth)
  : Completion (option CachedAuth) * gmap string CachedAuth * list Fx.Effect :=
  match resolve token with
  | Rejected => (Throw, authCache, [Fx.ResolveToken token])
  | Fulfilled None => (Return None, authCache, [Fx.ResolveToken token])
  | Fulfilled (Some resolved) =>
      let tokenHash := tokenHash resolved in
      if negb (Js.truthy tokenHash) then
        (Return None, authCache, [Fx.ResolveToken token])
      else
        let fresh :=
          let result := {| teamId := r_teamId resolved;
                           assignedShard := r_assignedShard resolved;
                           expiresAt := now + TTL |} in
          (Return (Some result), <[tokenHash := result]> authCache,
           [Fx.ResolveToken token; Fx.MarkUsed (tokenId resolved)]) in
        match authCache !! tokenHash with
        | Some cached =>
            if (now <? expiresAt cached)%Z
            then (Return (Some cached), authCache, [Fx.ResolveToken token])
            else fresh
        | None => fresh
        end
  end.

(** The module-level [authCache] after successive calls of
    [authenticateToken], each with its own reading of the clock. *)
Fixpoint afterCalls (resolve : Resolver) (calls : list (Z * string))
    (authCache : gmap string CachedAuth) : gmap string CachedAuth :=
  match calls with
  | [] => authCache
  | (now, token) :: calls' =>
      afterCalls resolve calls' (authenticateToken resolve now token authCache).1.2
  end.

End Auth.

(** ** Byte accounting shared by both gateways *)
Module Capture.

Definition maxSampleSize : nat := 1024.

(** [bytesReceived] once all of [chunks] has gone through the counter. *)
Definition bytesReceived (chunks : list string) : N :=
  foldr (λ chunk n, N.of_nat (String.length chunk) + n)%N 0%N chunks.

(** [firstChunk]: the first non-empty chunk, cut to [maxSampleSize]. *)
Definition firstChunk (chunks : list string) : option string :=
  Js.take maxSampleSize <$> List.find Js.truthy chunks.

(** [firstChunk.toString('utf8', 0, min(length, 512))], bytes kept as
    they are. *)
Definition dataSample (chunks : list string) : Fx.Value :=
  match firstChunk chunks with
  | Some c => Fx.VStr (Js.take 512 c)
  | None => Fx.VNull
  end.

(** The prefix of the Authorization header that is logged. *)
Definition headerPrefix (authHeader : option Headers.HeaderValue) : string :=
  match authHeader with
  | Some (Headers.HStr s) =>
      if Js.truthy s then Js.take 20 s +:+ "..." else "none"
  | Some (Headers.HArr _) => "multiple"
  | None => "none"
  end.

(** [token.substring(0, 10) + '...'] *)
Definition tokenPrefix (token : string) : string := Js.take 10 token +:+ "...".

(** [auth.assignedShard || 'shard-0'] *)
Definition shardOrDefault (assignedShard : option string) : string :=
  match assignedShard with
  | Some s => if Js.truthy s then s else "shard-0"
  | None => "shard-0"
  end.

End Capture.

(** ** Request/response gateway (OTLP over HTTP) *)
Module Http.
Import Fx.

(** The fields of a WHATWG [URL] object that the gateway reads. *)
Record Url := {
  u_protocol : string;
  u_hostname : string;
  u_port : string;
  u_host : string;
  u_pathname : string;
  u_search : string;
}.

Record Request := {
  req_method : option string;
  req_url : option string;
  req_headers : Headers.t;
  req_body : list string;            (* the chunks of the body, in order *)
  remoteAddress : option string;
  remotePort : option Z;
}.

(** Values read from the environment while one request is handled. *)
Record Clock := {
  requestId : string;
  startTime : Z;                     (* [Date.now()] on receipt *)
  authTime : Z;                      (* [Date.now()] inside [authenticateToken] *)
  respondTime : Z;                   (* [Date.now()] inside [res.writeHead] *)
}.

(** What the shard does with the outbound request: it answers, and the
    response arrives in full or ['error'] of [proxyReq] ends it; it
    answers and the connection closes before the end of the response,
    with [body] what had arrived ([proxyRes] emits no ['end'] then, and
    [proxyReq] no ['error']); or the request fails before any response. *)
Inductive Upstream :=
| UpResponse (statusCode : option N) (hdrs : Headers.t) (body : list string)
             (errorAfter : bool)
| UpCut (statusCode : option N) (hdrs : Headers.t) (body : list string)
| UpError.

(** [proxyRes.statusCode || 502] *)
Definition statusOr502 (statusCode : option N) : N :=
  match statusCode with
  | Some n => if (n =? 0)%N then 502%N else n
  | None => 502%N
  end.

(** [res.writeHead(statusCode)] throws a [RangeError] for a status code
    below 100 or above 999. *)
Definition writeHead_throws (statusCode : N) : bool :=
  ((statusCode <? 100) || (999 <? statusCode))%N.

(** A character that may stand in a header value: TAB, and every code
    unit from 32 on except DEL. *)
Definition header_char (c : ascii) : bool :=
  let n := Js.code c in ((n =? 9) || (32 <=? n) && negb (n =? 127))%N.

Definition header_value_ok (v : Headers.HeaderValue) : bool :=
  match v with
  | Headers.HStr s => Js.all header_char s
  | Headers.HArr l => forallb (Js.all header_char) l
  end.

(** [http.request(options, callback)] throws while it builds the
    request: when [options.protocol] is given and is not [http:], the
    protocol of the default agent; when [options.path] has a character
    outside [\u0021-\u00ff]; and when a header value has a character
    that may not be sent. *)
Definition request_throws (o : RequestOptions) : bool :=
  Js.truthy (protocol o) && negb (String.eqb (protocol o) "http:")
  || negb (Js.all (λ c, (33 <=? Js.code c)%N) (path o))
  || negb (forallb (λ kv, header_value_ok kv.2) (headers o)).

Section Handler.
(** [new URL(s)] and [new URL(s, base)]; [None] when the constructor
    throws. *)
Variable URL1 : string → option Url.
Variable URL2 : string → Url → option Url.
Variable resolve : Auth.Resolver.
(** [config.INGESTION_SHARD_HTTP_ENDPOINTS] *)
Variable endpoints : list string.
Variable clk : Clock.
Variable up : Upstream.
Variable req : Request.

Definition rid : string * Value := ("requestId", VStr (requestId clk)).

Definition incoming (authHeader : option Headers.HeaderValue) : Effect :=
  let h := req_headers req in
  Log Info
    [ rid;
      ("method", of_opt (req_method req));
      ("url", of_opt (req_url req));
      ("headers.content-type", of_header (Headers.get "content-type" h));
      ("headers.content-length", of_header (Headers.get "content-length" h));
      ("headers.user-agent", of_header (Headers.get "user-agent" h));
      ("headers.host", of_header (Headers.get "host" h));
      ("headers.authorization", VStr (Capture.headerPrefix authHeader));
      ("headerKeys", VStrs (take 10 (Headers.keys h)));
      ("authHeaderKeysFound",
        VStrs (List.filter Headers.is_authorization (Headers.keys h)));
      ("remoteAddress", of_opt (remoteAddress req));
      ("remotePort", from_option VNum VUndefined (remotePort req)) ]
    "OTLP HTTP gateway: incoming request".

(** The sink stream of the two rejection branches: the body is
    drained and counted, then the status is written. *)
Definition reject (extra : Fields) (reason : string) : list Effect :=
  let n := Capture.bytesReceived (req_body req) in
  (if (0 <? n)%N then
     [ Log Warn
         ([rid] ++ extra ++
          [ ("bytesReceived", VNum (Z.of_N n));
            ("dataSample", Capture.dataSample (req_body req));
            ("contentType",
              of_header (Headers.get "content-type" (req_headers req))) ])
         "OTLP HTTP gateway: request data received (auth failed)" ]
   else []) ++
  [ WriteHead 401 None; ResEnd (Some reason) ].

Definition authFields (auth : Auth.CachedAuth) : Fields :=
  [ rid;
    ("teamId", VStr (Auth.teamId auth));
    ("assignedShard", of_opt (Auth.assignedShard auth)) ].

(** The wrapper installed over [res.writeHead] once a target is known:
    it logs, then calls the original. *)
Definition writeHead_logged (auth : Auth.CachedAuth) (target : string)
    (statusCode : N) (hdrs : option Headers.t) : list Effect :=
  [ Log Info
      (authFields auth ++
       [ ("targetEndpoint", VStr target);
         ("statusCode", VNum (Z.of_N statusCode));
         ("durationMs", VNum (respondTime clk - startTime clk)) ])
      "OTLP HTTP gateway: response sent";
    WriteHead statusCode hdrs ].

(** [flush] of the capture transform. *)
Definition captured (auth : Auth.CachedAuth) : list Effect :=
  let n := Capture.bytesReceived (req_body req) in
  if (0 <? n)%N then
    [ Log Info
        ([ rid;
           ("bytesReceived", VNum (Z.of_N n));
           ("dataSample", Capture.dataSample (req_body req));
           ("contentType",
             of_header (Headers.get "content-type" (req_headers req))) ]
        ++ (if Js.truthy (Auth.teamId auth)
            then [ ("teamId", VStr (Auth.teamId auth)) ] else []))
        "OTLP HTTP gateway: request data received" ]
  else [].

Definition proxyOptions (auth : Auth.CachedAuth) (targetUrl : Url)
  : RequestOptions :=
  {| protocol := u_protocol targetUrl;
     hostname := u_hostname targetUrl;
     port := u_port targetUrl;
     method := req_method req;
     path := u_pathname targetUrl +:+ u_search targetUrl;
     headers :=
       Headers.set "x-hdx-team-id" (Headers.HStr (Auth.teamId auth))
         (Headers.set "host" (Headers.HStr (u_host targetUrl))
            (req_headers req)) |}.

Definition proxyError (auth : Auth.CachedAuth) : Effect :=
  Log Error [ ("err", VErr); rid; ("teamId", VStr (Auth.teamId auth)) ]
    "OTLP HTTP proxy error".

(** The wrapper over [res.writeHead] called with a status code that the
    original rejects: the entry is logged, then the original throws. *)
Definition writeHead_rejected (auth : Auth.CachedAuth) (target : string)
    (statusCode : N) : list Effect :=
  [ Log Info
      (authFields auth ++
       [ ("targetEndpoint", VStr target);
         ("statusCode", VNum (Z.of_N statusCode));
         ("durationMs", VNum (respondTime clk - startTime clk)) ])
      "OTLP HTTP gateway: response sent";
    Uncaught ].

(** The callbacks of [http.request]: the response, or the error.  The
    response callback runs outside the [try] of the listener: when
    [res.writeHead] throws there, nothing is written and nothing ends the
    response.  [proxyRes.pipe(res)] ends the response on ['end'] of
    [proxyRes] only. *)
Definition relay (auth : Auth.CachedAuth) (target : string) : list Effect :=
  match up with
  | UpResponse statusCode hdrs body errorAfter =>
      let status := statusOr502 statusCode in
      if writeHead_throws status then writeHead_rejected auth target status
      else
        writeHead_logged auth target status (Some hdrs) ++
        (ResWrite <$> body) ++
        (if errorAfter then [ proxyError auth ] else []) ++
        [ ResEnd None ]
  | UpCut statusCode hdrs body =>
      let status := statusOr502 statusCode in
      if writeHead_throws status then writeHead_rejected auth target status
      else
        writeHead_logged auth target status (Some hdrs) ++ (ResWrite <$> body)
  | UpError =>
      [ proxyError auth ] ++ writeHead_logged auth target 502 None ++
      [ ResEnd None ]
  end.

Definition caught : Effect :=
  Log Error [ ("err", VErr); rid ] "OTLP HTTP gateway error".

(** [req.url || '/'] *)
Definition urlOrRoot : string :=
  match req_url req with
  | Some u => if Js.truthy u then u else "/"
  | None => "/"
  end.

(** The request listener of [http.createServer], run on a request whose
    body arrives in full: the body is piped before the shard answers.
    The text of the longest log message is cut after its first
    sentence. *)
Definition handle (authCache : gmap string Auth.CachedAuth)
  : gmap string Auth.CachedAuth * list Effect :=
  let authHeader := Headers.getAuthHeader (req_headers req) in
  let token := Headers.getBearerToken authHeader in
  if Headers.token_missing token then
    (authCache,
     [ incoming authHeader;
       Log Warn [ rid ] "OTLP HTTP gateway: missing token" ] ++
     reject [] "missing token")
  else
    let token := default "" token in
    let '(auth, authCache', calls) :=
      Auth.authenticateToken resolve (authTime clk) token authCache in
    match auth with
    | Auth.Throw =>
        (authCache',
         [ incoming authHeader ] ++ calls ++
         [ caught; WriteHead 500 None; ResEnd (Some "error") ])
    | Auth.Return None =>
        let prefix := ("tokenPrefix", VStr (Capture.tokenPrefix token)) in
        (authCache',
         [ incoming authHeader ] ++ calls ++
         [ Log Warn [ rid; prefix ] "OTLP HTTP gateway: invalid token" ] ++
         reject [ prefix ] "invalid token")
    | Auth.Return (Some auth) =>
        let authenticated :=
          Log Info (authFields auth)
            "OTLP HTTP gateway: authenticated request" in
        let pre := [ incoming authHeader ] ++ calls ++
                   [ authenticated; authenticated ] in
        let target :=
          Shard.pickShardEndpoint
            (Capture.shardOrDefault (Auth.assignedShard auth)) endpoints in
        if from_option Js.truthy false target then
          let target := default "" target in
          let routing :=
            Log Info (authFields auth ++ [ ("targetEndpoint", VStr target) ])
              "OTLP HTTP gateway: routing to shard" in
          let thrown :=
            (authCache',
             pre ++ [ routing; caught ] ++
             writeHead_logged auth target 500 None ++
             [ ResEnd (Some "error") ]) in
          match URL1 target ≫= URL2 urlOrRoot with
          | Some targetUrl =>
              if request_throws (proxyOptions auth targetUrl) then thrown
              else
                (authCache',
                 pre ++ [ routing; HttpRequest (proxyOptions auth targetUrl) ] ++
                 (ProxyWrite <$> req_body req) ++ captured auth ++
                 [ ProxyEnd ] ++ relay auth target)
          | None => thrown
          end
        else
          (authCache',
           pre ++
           [ Log Error
               (authFields auth ++
                [ ("configuredEndpoints", VStrs endpoints);
                  ("endpointCount", VNum (Z.of_nat (length endpoints))) ])
               "OTLP HTTP gateway: no shard endpoint available";
             WriteHead 503 None; ResEnd (Some "no shard endpoint") ])
    end.

(** [pipeHttp(req, res, targetBaseUrl, teamId, requestId)], on a request
    whose body arrives in full; [None] when a [URL] constructor or
    [http.request] throws. *)
Definition pipeHttp (targetBaseUrl teamId requestId : string)
  : option (list Effect) :=
  targetUrl ← URL1 targetBaseUrl ≫= URL2 urlOrRoot;
  let n := Capture.bytesReceived (req_body req) in
  let options :=
    {| protocol := u_protocol targetUrl;
       hostname := u_hostname targetUrl;
       port := u_port targetUrl;
       method := req_method req;
       path := u_pathname targetUrl +:+ u_search targetUrl;
       headers :=
         Headers.set "x-hdx-team-id" (Headers.HStr teamId)
           (Headers.set "host" (Headers.HStr (u_host targetUrl))
              (req_headers req)) |} in
  let proxyReq := HttpRequest options in
  let tracked :=
    if (0 <? n)%N then
      [ Log Info
          [ ("requestId", VStr requestId);
            ("teamId", VStr teamId);
            ("bytesReceived", VNum (Z.of_N n));
            ("hasData", VBool true);
            ("dataSample", Capture.dataSample (req_body req));
            ("contentType",
              of_header (Headers.get "content-type" (req_headers req))) ]
          "OTLP HTTP gateway: request data received" ]
    else [] in
  let failed :=
    Log Error
      [ ("err", VErr); ("requestId", VStr requestId); ("teamId", VStr teamId) ]
      "OTLP HTTP proxy error" in
  if request_throws options then None
  else
    Some
      ([ proxyReq ] ++ (ProxyWrite <$> req_body req) ++ tracked ++
       [ ProxyEnd ] ++
       match up with
       | UpResponse statusCode hdrs body errorAfter =>
           let status := statusOr502 statusCode in
           if writeHead_throws status then [ Uncaught ]
           else
             [ WriteHead status (Some hdrs) ] ++ (ResWrite <$> body) ++
             (if errorAfter then [ failed ] else []) ++ [ ResEnd None ]
       | UpCut statusCode hdrs body =>
           let status := statusOr502 statusCode in
           if writeHead_throws status then [ Uncaught ]
           else [ WriteHead status (Some hdrs) ] ++ (ResWrite <$> body)
       | UpError => [ failed; WriteHead 502 None; ResEnd None ]
       end).

End Handler.

End Http.

(** ** Connection pool: [getClientSession] and the listeners it installs *)
Module Pool.
Import Fx.

(** A [ClientHttp2Session] object together with what the closures of
    the call that created it hold. *)
Record Session := {
  target : string;                 (* [targetBaseUrl] of the creating call *)
  connecting : bool;
  closed : bool;
  destroyed : bool;
  creator : nat;                   (* the promise of the creating call *)
  timeout : bool;                  (* its 5 s timer is armed *)
  pingInterval : bool;             (* its 30 s interval timer is armed *)
  onConnect : list nat;            (* promises behind [once('connect')] *)
  onError : list nat;              (* promises behind [once('error')] *)
}.

Inductive Settlement :=
| Resolved (session : nat)
| Rejected (e : Err).

Record State := {
  sessions : gmap string nat;              (* [sessions] *)
  sessionPingIntervals : gmap string nat;  (* timers, named by their session *)
  heap : gmap nat Session;                 (* the session objects *)
  settled : gmap nat Settlement;           (* how each promise was settled *)
  waitTimeouts : gmap nat string;          (* armed timers of waiting calls *)
  nextSession : nat;
  nextPromise : nat;
}.

Definition init : State :=
  {| sessions := ∅; sessionPingIntervals := ∅; heap := ∅; settled := ∅;
     waitTimeouts := ∅; nextSession := 0; nextPromise := 0 |}.

Definition with_sessions (f : gmap string nat → gmap string nat) (st : State) :=
  {| sessions := f (sessions st);
     sessionPingIntervals := sessionPingIntervals st; heap := heap st;
     settled := settled st; waitTimeouts := waitTimeouts st;
     nextSession := nextSession st; nextPromise := nextPromise st |}.

Definition with_intervals (f : gmap string nat → gmap string nat) (st : State) :=
  {| sessions := sessions st;
     sessionPingIntervals := f (sessionPingIntervals st); heap := heap st;
     settled := settled st; waitTimeouts := waitTimeouts st;
     nextSession := nextSession st; nextPromise := nextPromise st |}.

Definition with_heap (f : gmap nat Session → gmap nat Session) (st : State) :=
  {| sessions := sessions st;
     sessionPingIntervals := sessionPingIntervals st; heap := f (heap st);
     settled := settled st; waitTimeouts := waitTimeouts st;
     nextSession := nextSession st; nextPromise := nextPromise st |}.

Definition with_waitTimeouts (f : gmap nat string → gmap nat string) (st : State) :=
  {| sessions := sessions st;
     sessionPingIntervals := sessionPingIntervals st; heap := heap st;
     settled := settled st; waitTimeouts := f (waitTimeouts st);
     nextSession := nextSession st; nextPromise := nextPromise st |}.

(** [resolve]/[reject] of a promise: only the first call settles it. *)
Definition settle (p : nat) (r : Settlement) (st : State) : State :=
  {| sessions := sessions st;
     sessionPingIntervals := sessionPingIntervals st; heap := heap st;
     settled := match settled st !! p with
                | Some _ => settled st
                | None => <[p := r]> (settled st)
                end;
     waitTimeouts := waitTimeouts st;
     nextSession := nextSession st; nextPromise := nextPromise st |}.

Definition settle_fx (p : nat) (r : Settlement) : Effect :=
  match r with Resolved s => Resolve p s | Rejected e => Reject p e end.

Definition set_connecting (b : bool) (s : Session) : Session :=
  {| target := target s; connecting := b; closed := closed s;
     destroyed := destroyed s; creator := creator s; timeout := timeout s;
     pingInterval := pingInterval s; onConnect := onConnect s;
     onError := onError s |}.

(** [s.destroy()], and the state in which ['error'] and ['close'] find
    the session: both [destroyed] and [closed] read [true]. *)
Definition set_destroyed (s : Session) : Session :=
  {| target := target s; connecting := connecting s; closed := true;
     destroyed := true; creator := creator s; timeout := timeout s;
     pingInterval := pingInterval s; onConnect := onConnect s;
     onError := onError s |}.

(** [s.close()], which the transport calls on a GOAWAY of the peer. *)
Definition set_closed (s : Session) : Session :=
  {| target := target s; connecting := connecting s; closed := true;
     destroyed := destroyed s; creator := creator s; timeout := timeout s;
     pingInterval := pingInterval s; onConnect := onConnect s;
     onError := onError s |}.

Definition set_timeout (b : bool) (s : Session) : Session :=
  {| target := target s; connecting := connecting s; closed := closed s;
     destroyed := destroyed s; creator := creator s; timeout := b;
     pingInterval := pingInterval s; onConnect := onConnect s;
     onError := onError s |}.

Definition set_pingInterval (b : bool) (s : Session) : Session :=
  {| target := target s; connecting := connecting s; closed := closed s;
     destroyed := destroyed s; creator := creator s; timeout := timeout s;
     pingInterval := b; onConnect := onConnect s; onError := onError s |}.

Definition set_listeners (c e : list nat) (s : Session) : Session :=
  {| target := target s; connecting := connecting s; closed := closed s;
     destroyed := destroyed s; creator := creator s; timeout := timeout s;
     pingInterval := pingInterval s; onConnect := c; onError := e |}.

Definition update (sid : nat) (f : Session → Session) (st : State) : State :=
  with_heap (alter f sid) st.

(** [const pingInterval = sessionPingIntervals.get(t);
     if (pingInterval) { clearInterval(pingInterval);
                         sessionPingIntervals.delete(t); }] *)
Definition clearRegisteredPing (t : string) (st : State) : State :=
  match sessionPingIntervals st !! t with
  | Some owner =>
      with_intervals (delete t) (update owner (set_pingInterval false) st)
  | None => st
  end.

(** [sessions.delete(t)] followed by the clearing above: the cleanup
    shared by the ['error'] and ['close'] listeners and by the stream
    handler's retry. *)
Definition evict (t : string) (st : State) : State :=
  clearRegisteredPing t (with_sessions (delete t) st).

(** The rest of the promise executor once no usable session was found:
    [http2.connect] and the arming of the 5 s timer.  [connectThrows]
    says that [http2.connect] throws, which rejects the promise. *)
Definition create (connectThrows : bool) (t : string) (p : nat) (st : State)
  : State * list Effect :=
  if connectThrows then
    (settle p (Rejected (ErrCode "ERR_INVALID_URL")) st,
     [ Reject p (ErrCode "ERR_INVALID_URL") ])
  else
    let sid := nextSession st in
    let s := {| target := t; connecting := true; closed := false;
                destroyed := false; creator := p; timeout := true;
                pingInterval := false; onConnect := []; onError := [] |} in
    let st := with_heap <[sid := s]> st in
    ({| sessions := sessions st;
        sessionPingIntervals := sessionPingIntervals st; heap := heap st;
        settled := settled st; waitTimeouts := waitTimeouts st;
        nextSession := S sid; nextPromise := nextPromise st |},
     [ Http2Connect t sid ]).

(** [getClientSession(targetBaseUrl)]: the promise it returns, named by
    a fresh number, and the synchronous run of the executor. *)
Definition getClientSession (connectThrows : bool) (targetBaseUrl : string)
    (st : State) : nat * State * list Effect :=
  let p := nextPromise st in
  let st := {| sessions := sessions st;
               sessionPingIntervals := sessionPingIntervals st;
               heap := heap st; settled := settled st;
               waitTimeouts := waitTimeouts st;
               nextSession := nextSession st; nextPromise := S p |} in
  let existing :=
    sessions st !! targetBaseUrl ≫= λ sid, (sid,.) <$> heap st !! sid in
  let '(st', fx) :=
    match existing with
    | Some (sid, existing) =>
        if negb (closed existing) && negb (destroyed existing) then
          if destroyed existing || closed existing then
            create connectThrows targetBaseUrl p (evict targetBaseUrl st)
          else if connecting existing then
            (with_waitTimeouts <[p := targetBaseUrl]>
               (update sid
                  (λ s, set_listeners (onConnect s ++ [p]) (onError s ++ [p]) s)
                  st),
             [])
          else (settle p (Resolved sid) st, [ Resolve p sid ])
        else create connectThrows targetBaseUrl p st
    | None => create connectThrows targetBaseUrl p st
    end in
  (p, st', fx).

Inductive PingResult := PingOk | PingFails | PingThrows.

(** What the event loop delivers to the pool. *)
Inductive Event :=
| Acquire (targetBaseUrl : string) (connectThrows : bool)
| Connect (sid : nat)                     (* ['connect'] *)
| SessionError (sid : nat) (code : string)  (* ['error'], with [err.code] *)
| Close (sid : nat)                       (* ['close'] *)
| ConnectTimeout (sid : nat)              (* the creating call's timer *)
| WaitTimeout (p : nat)                   (* a waiting call's timer *)
| PingTick (sid : nat) (r : PingResult)   (* the interval timer *)
(* what the transport does to a session before any listener runs *)
| Goaway (sid : nat)                      (* the peer's GOAWAY closes it *)
| Destroyed (sid : nat).                  (* it is torn down; ['error'] and
                                             ['close'] are emitted later *)

(** The listeners of the waiting calls, run in registration order. *)
Definition notify (ps : list nat) (r : Settlement) (st : State)
  : State * list Effect :=
  (foldl (λ st p, settle p r (with_waitTimeouts (delete p) st)) st ps,
   (λ p, settle_fx p r) <$> ps).

Definition onConnectEvent (sid : nat) (s : Session) (st : State)
  : State * list Effect :=
  (* the transport clears [connecting] before it emits ['connect'] *)
  let st := update sid (set_connecting false) st in
  (* [s.once('connect', ...)] of the creating call *)
  let st := update sid (set_timeout false) st in
  let '(st, fx) :=
    if destroyed s || closed s then
      (settle (creator s) (Rejected (ErrClosedAfterConnect (target s))) st,
       [ Reject (creator s) (ErrClosedAfterConnect (target s)) ])
    else
      let st := update sid (set_pingInterval true) st in
      let st := with_sessions <[target s := sid]> st in
      let st := with_intervals <[target s := sid]> st in
      (settle (creator s) (Resolved sid) st, [ Resolve (creator s) sid ]) in
  (* [existing.once('connect', ...)] of the waiting calls *)
  let '(st, fx') := notify (onConnect s) (Resolved sid) st in
  (update sid (λ s, set_listeners [] (onError s) s) st, fx ++ fx').

Definition onErrorEvent (sid : nat) (s : Session) (code : string) (st : State)
  : State * list Effect :=
  let st := update sid set_destroyed st in
  (* [s.on('error', ...)] *)
  let st := update sid (set_timeout false) st in
  let isConnectionReset := String.eqb code "ECONNRESET" in
  let isDuringConnection := connecting s in
  let '(st, fx) :=
    if isDuringConnection then
      (settle (creator s) (Rejected (ErrCode code)) (evict (target s) st),
       [ Log Error [ ("err", VErr); ("targetBaseUrl", VStr (target s)) ]
           "OTLP gRPC gateway: HTTP/2 connection failed";
         Reject (creator s) (ErrCode code) ])
    else
      (evict (target s) st,
       if negb isConnectionReset then
         [ Log Error [ ("err", VErr); ("targetBaseUrl", VStr (target s)) ]
             "OTLP gRPC gateway: HTTP/2 session error" ]
       else []) in
  (* [existing.once('error', ...)] of the waiting calls *)
  let '(st, fx') := notify (onError s) (Rejected (ErrCode code)) st in
  (update sid (λ s, set_listeners (onConnect s) [] s) st, fx ++ fx').

Definition onCloseEvent (sid : nat) (s : Session) (st : State)
  : State * list Effect :=
  let st := update sid set_destroyed st in
  let st := update sid (set_timeout false) st in
  (evict (target s) st, []).

Definition onConnectTimeout (sid : nat) (s : Session) (st : State)
  : State * list Effect :=
  let st := update sid (set_timeout false) st in
  let '(st, fx) :=
    if negb (destroyed s) then
      (update sid set_destroyed st, [ SessionDestroy sid ])
    else (st, []) in
  (settle (creator s) (Rejected (ErrTimeout (target s))) st,
   fx ++ [ Reject (creator s) (ErrTimeout (target s)) ]).

Definition onPingTick (sid : nat) (s : Session) (r : PingResult) (st : State)
  : State * list Effect :=
  let t := target s in
  let drop st :=
    with_intervals (delete t) (update sid (set_pingInterval false) st) in
  if destroyed s || closed s then (drop st, [])
  else
    match r with
    | PingOk => (st, [ SessionPing sid ])
    | PingFails =>
        (update sid set_destroyed (drop (with_sessions (delete t) st)),
         [ SessionPing sid;
           Log Warn [ ("err", VErr); ("targetBaseUrl", VStr t) ]
             "OTLP gRPC gateway: HTTP/2 ping failed";
           SessionDestroy sid ])
    | PingThrows =>
        (drop (with_sessions (delete t) st),
         [ Log Warn [ ("err", VErr); ("targetBaseUrl", VStr t) ]
             "OTLP gRPC gateway: HTTP/2 ping error" ])
    end.

(** One turn of the event loop.  An event that the transport cannot
    deliver in the current state (a second ['connect'], a cleared timer,
    an unknown session) leaves everything as it is.  The flags of a
    session change under the gateway: a GOAWAY makes [closed] read
    [true], and a session that the transport tears down reads
    [destroyed] before its ['error'] and ['close'] listeners run. *)
Definition step (e : Event) (st : State) : State * list Effect :=
  match e with
  | Acquire t connectThrows =>
      let '(_, st', fx) := getClientSession connectThrows t st in (st', fx)
  | Connect sid =>
      match heap st !! sid with
      | Some s => if connecting s then onConnectEvent sid s st else (st, [])
      | None => (st, [])
      end
  | SessionError sid code =>
      match heap st !! sid with
      | Some s => onErrorEvent sid s code st
      | None => (st, [])
      end
  | Close sid =>
      match heap st !! sid with
      | Some s => onCloseEvent sid s st
      | None => (st, [])
      end
  | ConnectTimeout sid =>
      match heap st !! sid with
      | Some s => if timeout s then onConnectTimeout sid s st else (st, [])
      | None => (st, [])
      end
  | WaitTimeout p =>
      match waitTimeouts st !! p with
      | Some t =>
          (settle p (Rejected (ErrTimeout t)) (with_waitTimeouts (delete p) st),
           [ Reject p (ErrTimeout t) ])
      | None => (st, [])
      end
  | PingTick sid r =>
      match heap st !! sid with
      | Some s => if pingInterval s then onPingTick sid s r st else (st, [])
      | None => (st, [])
      end
  | Goaway sid => (update sid set_closed st, [])
  | Destroyed sid => (update sid set_destroyed st, [])
  end.

Fixpoint run (es : list Event) (st : State) : State * list Effect :=
  match es with
  | [] => (st, [])
  | e :: es' =>
      let '(st1, fx1) := step e st in
      let '(st2, fx2) := run es' st1 in
      (st2, fx1 ++ fx2)
  end.

(** The establishment attempts made for [t]. *)
Definition attempts (t : string) (tr : list Effect) : nat :=
  length (filter (λ e, match e with
                       | Http2Connect t' _ => String.eqb t t'
                       | _ => false
                       end = true) tr).

End Pool.

(** ** Streaming gateway (OTLP over gRPC): the ['stream'] listener *)
Module Grpc.
Import Fx.

(** The inbound stream, as the transport shows it. *)
Record Inbound := {
  destroyed : bool;
  closed : bool;
  writableEnded : bool;
}.

(** The two flags behind [safeRespond] and [safeEnd]. *)
Record Guards := {
  streamResponded : bool;
  streamEnded : bool;
}.

Record Counters := {
  bytesReceived : N;
  chunkCount : N;
  firstChunk : option string;
}.

(** [proxyStream], and whether [sessionErrorHandler] is still installed. *)
Record Outbound := {
  out_destroyed : bool;
  out_closed : bool;
  sessionListener : bool;
}.

Record Seen := {
  dataSentToProxy : bool;
  responseReceived : bool;
  dataReceivedFromProxy : bool;
}.

(** Where the listener stands. *)
Inductive Phase :=
| Fresh                                    (* the listener has not run yet *)
| AwaitAuth (token : string)               (* [await authenticateToken] *)
| AwaitSession (auth : Auth.CachedAuth) (target : string) (retry : bool)
| Bridging (auth : Auth.CachedAuth) (target : string) (session : nat)
| Unauthorized                             (* 401 sent; data still counted *)
| Finished.                                (* returned without a bridge *)

Record State := {
  inbound : Inbound;
  guards : Guards;
  counters : Counters;
  outbound : Outbound;
  seen : Seen;
  authFailed : bool;
  teamId : option string;
  metadata : Headers.t;                    (* [headers] of the stream *)
  phase : Phase;
  authCache : gmap string Auth.CachedAuth;
}.

Definition init (authCache : gmap string Auth.CachedAuth) : State :=
  {| inbound := {| destroyed := false; closed := false; writableEnded := false |};
     guards := {| streamResponded := false; streamEnded := false |};
     counters := {| bytesReceived := 0; chunkCount := 0; firstChunk := None |};
     outbound := {| out_destroyed := false; out_closed := false;
                    sessionListener := false |};
     seen := {| dataSentToProxy := false; responseReceived := false;
                dataReceivedFromProxy := false |};
     authFailed := false; teamId := None; metadata := []; phase := Fresh;
     authCache := authCache |}.

Definition set_inbound (x : Inbound) (st : State) : State :=
  {| inbound := x; guards := guards st; counters := counters st;
     outbound := outbound st; seen := seen st; authFailed := authFailed st;
     teamId := teamId st; metadata := metadata st; phase := phase st;
     authCache := authCache st |}.

Definition set_guards (x : Guards) (st : State) : State :=
  {| inbound := inbound st; guards := x; counters := counters st;
     outbound := outbound st; seen := seen st; authFailed := authFailed st;
     teamId := teamId st; metadata := metadata st; phase := phase st;
     authCache := authCache st |}.

Definition set_counters (x : Counters) (st : State) : State :=
  {| inbound := inbound st; guards := guards st; counters := x;
     outbound := outbound st; seen := seen st; authFailed := authFailed st;
     teamId := teamId st; metadata := metadata st; phase := phase st;
     authCache := authCache st |}.

Definition set_outbound (x : Outbound) (st : State) : State :=
  {| inbound := inbound st; guards := guards st; counters := counters st;
     outbound := x; seen := seen st; authFailed := authFailed st;
     teamId := teamId st; metadata := metadata st; phase := phase st;
     authCache := authCache st |}.

Definition set_seen (x : Seen) (st : State) : State :=
  {| inbound := inbound st; guards := guards st; counters := counters st;
     outbound := outbound st; seen := x; authFailed := authFailed st;
     teamId := teamId st; metadata := metadata st; phase := phase st;
     authCache := authCache st |}.

Definition set_authFailed (st : State) : State :=
  {| inbound := inbound st; guards := guards st; counters := counters st;
     outbound := outbound st; seen := seen st; authFailed := true;
     teamId := teamId st; metadata := metadata st; phase := phase st;
     authCache := authCache st |}.

Definition set_teamId (x : string) (st : State) : State :=
  {| inbound := inbound st; guards := guards st; counters := counters st;
     outbound := outbound st; seen := seen st; authFailed := authFailed st;
     teamId := Some x; metadata := metadata st; phase := phase st;
     authCache := authCache st |}.

Definition set_metadata (x : Headers.t) (st : State) : State :=
  {| inbound := inbound st; guards := guards st; counters := counters st;
     outbound := outbound st; seen := seen st; authFailed := authFailed st;
     teamId := teamId st; metadata := x; phase := phase st;
     authCache := authCache st |}.

Definition set_phase (x : Phase) (st : State) : State :=
  {| inbound := inbound st; guards := guards st; counters := counters st;
     outbound := outbound st; seen := seen st; authFailed := authFailed st;
     teamId := teamId st; metadata := metadata st; phase := x;
     authCache := authCache st |}.

Definition set_authCache (x : gmap string Auth.CachedAuth) (st : State) : State :=
  {| inbound := inbound st; guards := guards st; counters := counters st;
     outbound := outbound st; seen := seen st; authFailed := authFailed st;
     teamId := teamId st; metadata := metadata st; phase := phase st;
     authCache := x |}.

(** How the promise of [getClientSession] settles, with the flags the
    listener then reads on the session. *)
Inductive Acquired :=
| AcqOk (session : nat) (s_destroyed s_closed s_connecting : bool)
| AcqFail (e : Err).

Inductive Event :=
| Open (headers : Headers.t) (streamId : Z)   (* the listener is invoked *)
| AuthAnswered                                (* the resolver has answered *)
| SessionSettled (r : Acquired)
(* events of the inbound stream *)
| InData (chunk : string)
| InEnd
| InError
| InAborted
| InClose
(* events of [proxyStream] *)
| OutResponse (hdrs : Headers.t)
| OutData (chunk : string)
| OutReadableEnd
| OutError (code : string)
| OutClose
(* ['error'] of the pooled session the stream runs on *)
| SessionFailed.

(** One delivery of the event loop: the clock reading, and whether
    [stream.respond] and [stream.end] would throw if called now. *)
Record Tick := {
  time : Z;
  respondThrows : bool;
  endThrows : bool;
  event : Event;
}.

Section Listener.
Variable resolve : Auth.Resolver.
(** [config.INGESTION_SHARD_GRPC_ENDPOINTS] *)
Variable endpoints : list string.
(** [new URL(target).host]; [None] when the constructor throws. *)
Variable URL_host : string → option string.
Variable requestId : string.
Variable startTime : Z.

Definition rid : string * Value := ("requestId", VStr requestId).

Definition safeRespond (throws : bool) (h : RespHeaders) (st : State)
  : State * list Effect :=
  if negb (streamResponded (guards st)) && negb (destroyed (inbound st))
     && negb (closed (inbound st))
  then
    if throws then
      (st, [ Log Warn [ ("err", VErr); rid ]
               "OTLP gRPC gateway: failed to respond to stream" ])
    else
      (set_guards {| streamResponded := true;
                     streamEnded := streamEnded (guards st) |} st,
       [ StreamRespond h ])
  else (st, []).

Definition safeEnd (throws : bool) (st : State) : State * list Effect :=
  if negb (streamEnded (guards st)) && negb (destroyed (inbound st)) then
    if throws then (st, [])
    else
      (set_inbound {| destroyed := destroyed (inbound st);
                      closed := closed (inbound st);
                      writableEnded := true |}
         (set_guards {| streamResponded := streamResponded (guards st);
                        streamEnded := true |} st),
       [ StreamEnd ])
  else (st, []).

(** [safeRespond({ ':status': n }); safeEnd();] *)
Definition finalize (tk : Tick) (n : N) (st : State) : State * list Effect :=
  let '(st1, fx1) := safeRespond (respondThrows tk) (Status n) st in
  let '(st2, fx2) := safeEnd (endThrows tk) st1 in
  (st2, fx1 ++ fx2).

(** The counting done on every chunk that reaches a data listener. *)
Definition count (chunk : string) (st : State) : State :=
  let c := counters st in
  set_counters
    {| bytesReceived := bytesReceived c + N.of_nat (String.length chunk);
       chunkCount := chunkCount c + 1;
       firstChunk :=
         match firstChunk c with
         | None =>
             if Js.truthy chunk
             then Some (Js.take Capture.maxSampleSize chunk) else None
         | Some f => Some f
         end |} st.

Definition dataFields (st : State) : Fields :=
  [ rid;
    ("bytesReceived", VNum (Z.of_N (bytesReceived (counters st))));
    ("chunkCount", VNum (Z.of_N (chunkCount (counters st))));
    ("dataSample",
      match firstChunk (counters st) with
      | Some c => VStr (Js.take 512 c)
      | None => VNull
      end);
    ("contentType", of_header (Headers.get "content-type" (metadata st))) ]
  ++ match teamId st with
     | Some t => if Js.truthy t then [ ("teamId", VStr t) ] else []
     | None => []
     end.

(** The log written by ['close'] of the stream and by [flush] of the
    tracking transform. *)
Definition dataLog (failed ok : string) (st : State) : list Effect :=
  if (0 <? bytesReceived (counters st))%N then
    [ if authFailed st then Log Warn (dataFields st) failed
      else Log Info (dataFields st) ok ]
  else [].

Definition authFields (auth : Auth.CachedAuth) : Fields :=
  [ rid;
    ("teamId", VStr (Auth.teamId auth));
    ("assignedShard", of_opt (Auth.assignedShard auth)) ].

Definition routeFields (auth : Auth.CachedAuth) (target : string) : Fields :=
  authFields auth ++ [ ("targetEndpoint", VStr target) ].

Definition caught (tk : Tick) (st : State) : State * list Effect :=
  let '(st', fx) := finalize tk 500 (set_phase Finished st) in
  (st', Log Error [ ("err", VErr); rid ] "OTLP gRPC gateway error" :: fx).

Definition onOpen (tk : Tick) (headers : Headers.t) (streamId : Z)
    (st : State) : State * list Effect :=
  let st := set_metadata headers st in
  let authHeader := Headers.getAuthHeader headers in
  let incoming :=
    Log Info
      [ rid;
        ("method", of_header (Headers.get ":method" headers));
        ("path", of_header (Headers.get ":path" headers));
        ("headers.content-type", of_header (Headers.get "content-type" headers));
        ("headers.user-agent", of_header (Headers.get "user-agent" headers));
        ("headers.grpc-timeout", of_header (Headers.get "grpc-timeout" headers));
        ("headers.authorization", VStr (Capture.headerPrefix authHeader));
        ("headerKeys", VStrs (take 10 (Headers.keys headers)));
        ("authHeaderKeysFound",
          VStrs (List.filter Headers.is_authorization (Headers.keys headers)));
        ("streamId", VNum streamId) ]
      "OTLP gRPC gateway: incoming stream" in
  let token := Headers.getBearerToken authHeader in
  if Headers.token_missing token then
    let '(st', fx) :=
      finalize tk 401 (set_phase Unauthorized (set_authFailed st)) in
    (st',
     [ incoming; Log Warn [ rid ] "OTLP gRPC gateway: missing token" ] ++ fx)
  else (set_phase (AwaitAuth (default "" token)) st, [ incoming ]).

(** [session.request(reqHeaders)], taken to return, and the installation
    of the bridge. *)
Definition bridge (tk : Tick) (auth : Auth.CachedAuth) (target : string)
    (session : nat) (s_destroyed s_closed s_connecting : bool) (st : State)
  : State * list Effect :=
  if s_destroyed || s_closed then
    let '(st', fx) := finalize tk 503 (set_phase Finished st) in
    (st',
     Log Error (routeFields auth target)
       "OTLP gRPC gateway: HTTP/2 session not available" :: fx)
  else
    match URL_host target with
    | None => caught tk st
    | Some host =>
        let reqHeaders :=
          Headers.set "x-hdx-team-id" (Headers.HStr (Auth.teamId auth))
            (Headers.set ":authority" (Headers.HStr host) (metadata st)) in
        (set_outbound {| out_destroyed := false; out_closed := false;
                         sessionListener := true |}
           (set_phase (Bridging auth target session) st),
         [ Log Info
             (routeFields auth target ++
              [ ("method", of_header (Headers.get ":method" (metadata st)));
                ("path", of_header (Headers.get ":path" (metadata st)));
                ("sessionState.destroyed", VBool s_destroyed);
                ("sessionState.closed", VBool s_closed);
                ("sessionState.connecting", VBool s_connecting);
                ("headersSent",
                  VStrs (List.filter
                           (λ k, negb (from_option (λ _, true) false
                                         (Js.strip_prefix ":" k)))
                           (Headers.keys reqHeaders))) ])
             "OTLP gRPC gateway: creating proxy stream";
           SessionRequest session reqHeaders ])
    end.

Definition onAuthAnswered (tk : Tick) (token : string) (st : State)
  : State * list Effect :=
  let '(auth, cache, calls) :=
    Auth.authenticateToken resolve (time tk) token (authCache st) in
  let st := set_authCache cache st in
  match auth with
  | Auth.Throw =>
      let '(st', fx) := caught tk st in (st', calls ++ fx)
  | Auth.Return None =>
      let '(st', fx) :=
        finalize tk 401 (set_phase Unauthorized (set_authFailed st)) in
      (st',
       calls ++
       [ Log Warn [ rid; ("tokenPrefix", VStr (Capture.tokenPrefix token)) ]
           "OTLP gRPC gateway: invalid token" ] ++ fx)
  | Auth.Return (Some auth) =>
      let st := set_teamId (Auth.teamId auth) st in
      let authenticated :=
        Log Info (authFields auth) "OTLP gRPC gateway: authenticated stream" in
      let target :=
        Shard.pickShardEndpoint
          (Capture.shardOrDefault (Auth.assignedShard auth)) endpoints in
      if from_option Js.truthy false target then
        let target := default "" target in
        (set_phase (AwaitSession auth target false) st,
         calls ++
         [ authenticated;
           Log Info (routeFields auth target)
             "OTLP gRPC gateway: routing to shard";
           GetClientSession target ])
      else
        let '(st', fx) := finalize tk 503 (set_phase Finished st) in
        (st',
         calls ++
         [ authenticated;
           Log Error
             (authFields auth ++
              [ ("configuredEndpoints", VStrs endpoints);
                ("endpointCount", VNum (Z.of_nat (length endpoints))) ])
             "OTLP gRPC gateway: no shard endpoint available" ] ++ fx)
  end.

Definition onSessionSettled (tk : Tick) (auth : Auth.CachedAuth)
    (target : string) (retry : bool) (r : Acquired) (st : State)
  : State * list Effect :=
  match r with
  | AcqFail e =>
      let '(st', fx) := finalize tk 503 (set_phase Finished st) in
      (st',
       Log Error (("err", VErr) :: routeFields auth target)
         (if retry
          then "OTLP gRPC gateway: failed to get HTTP/2 session after retry"
          else "OTLP gRPC gateway: failed to get HTTP/2 session") :: fx)
  | AcqOk session d c k =>
      if negb retry && (d || c || k) then
        (set_phase (AwaitSession auth target true) st,
         [ Log Warn
             (routeFields auth target ++
              [ ("destroyed", VBool d); ("closed", VBool c);
                ("connecting", VBool k) ])
             "OTLP gRPC gateway: session invalid after connect, retrying";
           PoolEvict target;
           GetClientSession target ])
      else bridge tk auth target session d c k st
  end.

(** [proxyStream.destroy()] *)
Definition destroyOut (st : State) : State * list Effect :=
  (set_outbound {| out_destroyed := true; out_closed := true;
                   sessionListener := sessionListener (outbound st) |} st,
   [ OutDestroy ]).

Definition bridgeFields (auth : Auth.CachedAuth) (target : string)
    (tk : Tick) (st : State) : Fields :=
  [ rid;
    ("teamId", VStr (Auth.teamId auth));
    ("targetEndpoint", VStr target);
    ("durationMs", VNum (time tk - startTime));
    ("responseReceived", VBool (responseReceived (seen st)));
    ("dataSentToProxy", VBool (dataSentToProxy (seen st)));
    ("dataReceivedFromProxy", VBool (dataReceivedFromProxy (seen st))) ].

(** The listeners installed once [proxyStream] exists, and the two
    pipes.  A destroyed [proxyStream] emits no further ['response'],
    ['data'] or ['end'], and what is written to it is discarded. *)
Definition onBridgeEvent (tk : Tick) (auth : Auth.CachedAuth)
    (target : string) (e : Event) (st : State) : State * list Effect :=
  let out := outbound st in
  let gone := out_destroyed out || out_closed out in
  match e with
  | InData chunk =>
      (* [trackingTransform], then the write of the inbound pipe *)
      let st := count chunk st in
      let first :=
        if dataSentToProxy (seen st) then []
        else [ Log Info
                 [ rid;
                   ("teamId", VStr (Auth.teamId auth));
                   ("targetEndpoint", VStr target);
                   ("timeSinceStart", VNum (time tk - startTime));
                   ("chunkSize", VNum (Z.of_nat (String.length chunk))) ]
                 "OTLP gRPC gateway: first data sent to proxy" ] in
      (set_seen {| dataSentToProxy := true;
                   responseReceived := responseReceived (seen st);
                   dataReceivedFromProxy := dataReceivedFromProxy (seen st) |}
         st,
       first ++ if gone then [] else [ OutWrite chunk ])
  | InEnd =>
      (st,
       dataLog "OTLP gRPC gateway: stream data received (auth failed)"
               "OTLP gRPC gateway: stream data received" st ++
       if gone then [] else [ OutEnd ])
  | InAborted =>
      (* the transport marks the stream closed before it emits
         ['aborted'], and ends its writable side afterwards *)
      let st := set_inbound {| destroyed := destroyed (inbound st);
                               closed := true;
                               writableEnded := true |} st in
      let '(st', fx) := destroyOut st in
      (st',
       Log Warn
         [ rid; ("teamId", of_opt (teamId st));
           ("durationMs", VNum (time tk - startTime)) ]
         "OTLP gRPC gateway: stream aborted by client" :: fx)
  | OutResponse hdrs =>
      if gone then (st, [])
      else
        let st := set_seen {| dataSentToProxy := dataSentToProxy (seen st);
                              responseReceived := true;
                              dataReceivedFromProxy :=
                                dataReceivedFromProxy (seen st) |} st in
        let '(st', fx) := safeRespond (respondThrows tk) (Relayed hdrs) st in
        (st',
         Log Info
           (routeFields auth target ++
            [ ("statusCode", of_header (Headers.get ":status" hdrs));
              ("durationMs", VNum (time tk - startTime));
              ("responseHeaders", VStrs (Headers.keys hdrs)) ])
           "OTLP gRPC gateway: response received" :: fx)
  | OutData chunk =>
      if gone then (st, [])
      else
        let first :=
          if dataReceivedFromProxy (seen st) then []
          else [ Log Info
                   [ rid;
                     ("teamId", VStr (Auth.teamId auth));
                     ("targetEndpoint", VStr target);
                     ("timeSinceStart", VNum (time tk - startTime)) ]
                   "OTLP gRPC gateway: first data received from proxy" ] in
        (set_seen {| dataSentToProxy := dataSentToProxy (seen st);
                     responseReceived := responseReceived (seen st);
                     dataReceivedFromProxy := true |} st,
         first ++
         if destroyed (inbound st) || writableEnded (inbound st) then []
         else [ StreamWrite chunk ])
  | OutReadableEnd =>
      if gone || destroyed (inbound st) || writableEnded (inbound st)
      then (st, [])
      else
        (set_inbound {| destroyed := destroyed (inbound st);
                        closed := closed (inbound st);
                        writableEnded := true |} st,
         [ StreamEndByPipe ])
  | OutError code =>
      (* the transport destroys a stream that failed *)
      let st := set_outbound {| out_destroyed := true; out_closed := true;
                                sessionListener := sessionListener out |} st in
      let isConnectionReset := String.eqb code "ECONNRESET" in
      let '(st', fx) := finalize tk 502 st in
      (st',
       Log (if isConnectionReset then Warn else Error)
         (("err", VErr) :: routeFields auth target ++
          [ ("durationMs", VNum (time tk - startTime));
            ("responseReceived", VBool (responseReceived (seen st)));
            ("dataSentToProxy", VBool (dataSentToProxy (seen st)));
            ("dataReceivedFromProxy", VBool (dataReceivedFromProxy (seen st)));
            ("proxyStreamState.destroyed", VBool true);
            ("proxyStreamState.closed", VBool true) ])
         "OTLP gRPC gateway: proxy stream error" :: fx)
  | OutClose =>
      let st := set_outbound {| out_destroyed := true; out_closed := true;
                                sessionListener := false |} st in
      let '(st', fx) := safeEnd (endThrows tk) st in
      (st',
       Log Info (bridgeFields auth target tk st)
         "OTLP gRPC gateway: proxy stream closed" :: fx)
  | SessionFailed =>
      if sessionListener out then
        let st := set_outbound {| out_destroyed := out_destroyed out;
                                  out_closed := out_closed out;
                                  sessionListener := false |} st in
        if gone then (st, []) else destroyOut st
      else (st, [])
  | _ => (st, [])
  end.

(** The listeners installed on the inbound stream before the [try]:
    ['error'] and ['close']. *)
Definition onStreamEvent (e : Event) (st : State) : State * list Effect :=
  match e with
  | InError =>
      (st,
       [ Log Warn [ ("err", VErr); rid; ("teamId", of_opt (teamId st)) ]
           "OTLP gRPC gateway: stream error" ])
  | InClose =>
      (set_inbound {| destroyed := true; closed := true;
                      writableEnded := writableEnded (inbound st) |} st,
       dataLog "OTLP gRPC gateway: stream closed (auth failed)"
               "OTLP gRPC gateway: stream closed" st)
  | _ => (st, [])
  end.

(** One turn of the event loop for one inbound stream. *)
Definition step (tk : Tick) (st : State) : State * list Effect :=
  match phase st, event tk with
  | Fresh, Open headers streamId => onOpen tk headers streamId st
  | Fresh, _ => (st, [])
  | _, (InError | InClose) => onStreamEvent (event tk) st
  | AwaitAuth token, AuthAnswered => onAuthAnswered tk token st
  | AwaitSession auth target retry, SessionSettled r =>
      onSessionSettled tk auth target retry r st
  | Unauthorized, InData chunk => (count chunk st, [])
  | Bridging auth target _, e => onBridgeEvent tk auth target e st
  | _, _ => (st, [])
  end.

Fixpoint run (tks : list Tick) (st : State) : State * list Effect :=
  match tks with
  | [] => (st, [])
  | tk :: tks' =>
      let '(st1, fx1) := step tk st in
      let '(st2, fx2) := run tks' st1 in
      (st2, fx1 ++ fx2)
  end.

End Listener.

(** The calls of [stream.respond] and of [stream.end] that went through
    [safeRespond] and [safeEnd]. *)
Definition responds (tr : list Effect) : nat :=
  length (filter (λ e, match e with StreamRespond _ => true | _ => false end = true) tr).

Definition ends (tr : list Effect) : nat :=
  length (filter (λ e, match e with StreamEnd => true | _ => false end = true) tr).

(** The payload bytes carried across the bridge, in either direction. *)
Definition relayed (tr : list Effect) : list Effect :=
  filter (λ e, match e with
               | OutWrite _ | StreamWrite _ => true
               | _ => false
               end = true) tr.

End Grpc.

(** ** Notions used to state the properties *)

(** [shardId] is [shard-<index>], the index written in decimal with any
    number of leading zeros. *)
Definition is_shard_id (shardId : string) (index : nat) : Prop :=
  ∃ d : Decimal.uint,
    d ≠ Decimal.Nil ∧
    shardId = "shard-" +:+ NilEmpty.string_of_uint d ∧
    Nat.of_uint d = index.

(** The value of a header that token extraction looks at. *)
Definition first_value (v : Headers.HeaderValue) : option string :=
  match v with
  | Headers.HStr s => Some s
  | Headers.HArr l => head l
  end.

(** No key of [headers] is [authorization] in any casing. *)
Definition no_authorization (headers : Headers.t) : Prop :=
  ∀ key, key ∈ Headers.keys headers → Headers.is_authorization key = false.

(** The bearer token of a request is missing, or the resolver has no
    record for it. *)
Definition unauthenticated (resolve : Auth.Resolver) (headers : Headers.t) : Prop :=
  let token := Headers.getBearerToken (Headers.getAuthHeader headers) in
  Headers.token_missing token = true ∨
  ∃ t, token = Some t ∧ resolve t = Auth.Fulfilled None.

(** The strings written by a log entry. *)
Definition logged_strings (e : Fx.Effect) : list string :=
  match e with
  | Fx.Log _ fields _ =>
      flat_map (λ kv, match kv.2 with
                      | Fx.VStr s => [ s ]
                      | Fx.VStrs l => l
                      | _ => []
                      end) fields
  | _ => []
  end.

(** Some log entry of [tr] contains [token]. *)
Definition logs_contain (token : string) (tr : list Fx.Effect) : bool :=
  existsb (λ s, Js.includes s token) (flat_map logged_strings tr).

(** The values logged under [key]. *)
Definition logged_under (key : string) (tr : list Fx.Effect) : list Fx.Value :=
  flat_map (λ e, match e with
                 | Fx.Log _ fields _ =>
                     (List.filter (λ kv, String.eqb kv.1 key) fields).*2
                 | _ => []
                 end) tr.

(** The values a log entry carries under the two keys that are computed
    from the Authorization header or from the token. *)
Definition auth_values (e : Fx.Effect) : list Fx.Value :=
  logged_under "headers.authorization" [ e ] ++ logged_under "tokenPrefix" [ e ].

(** [s] is one of the two logged prefixes of the request's credentials. *)
Definition is_prefix_of_credentials (headers : Headers.t) (s : string) : Prop :=
  s = Capture.headerPrefix (Headers.getAuthHeader headers) ∨
  ∃ t, Headers.getBearerToken (Headers.getAuthHeader headers) = Some t ∧
       s = Capture.tokenPrefix t.

(** Under the two keys, [e] carries nothing but the logged prefixes of the
    credentials in [headers]. *)
Definition prefixes_only (headers : Headers.t) (e : Fx.Effect) : Prop :=
  ∀ v, v ∈ auth_values e →
    ∃ s, v = Fx.VStr s ∧ is_prefix_of_credentials headers s.

(** A stream whose listener has run on [headers]: when it awaits the
    resolver, it does so for the token of [headers]. *)
Definition opened_on (headers : Headers.t) (st : Grpc.State) : Prop :=
  Grpc.phase st ≠ Grpc.Fresh ∧
  ∀ t, Grpc.phase st = Grpc.AwaitAuth t →
       Headers.getBearerToken (Headers.getAuthHeader headers) = Some t.

(** The log entries of a trace. *)
Definition logs (tr : list Fx.Effect) : list Fx.Effect :=
  filter (λ e, Fx.is_log e = true) tr.

(** [h'] is [h] with other values under the keys that name the
    Authorization header. *)
Definition alike (h h' : Headers.t) : Prop :=
  Forall2 (λ kv kv', kv.1 = kv'.1 ∧
                     (Headers.is_authorization kv.1 = false → kv.2 = kv'.2)) h h'.

(** Every value of [h] may be sent as a header value, as is the case of
    the headers of a request that the parser has accepted. *)
Definition sendable (h : Headers.t) : bool :=
  forallb (λ kv, Http.header_value_ok kv.2) h.

(** The credentials in [h] and in [h'] have the same two logged
    prefixes, both carry a token or neither does, and the resolver
    answers the two tokens alike. *)
Definition same_prefixes (resolve : Auth.Resolver) (h h' : Headers.t) : Prop :=
  let tok := Headers.getBearerToken (Headers.getAuthHeader h) in
  let tok' := Headers.getBearerToken (Headers.getAuthHeader h') in
  Capture.headerPrefix (Headers.getAuthHeader h)
    = Capture.headerPrefix (Headers.getAuthHeader h') ∧
  Headers.token_missing tok = Headers.token_missing tok' ∧
  (Headers.token_missing tok = false →
     Capture.tokenPrefix (default "" tok) = Capture.tokenPrefix (default "" tok') ∧
     resolve (default "" tok) = resolve (default "" tok')).

(** The request [req] with the headers [h]. *)
Definition with_headers (h : Headers.t) (req : Http.Request) : Http.Request :=
  {| Http.req_method := Http.req_method req; Http.req_url := Http.req_url req;
     Http.req_headers := h; Http.req_body := Http.req_body req;
     Http.remoteAddress := Http.remoteAddress req;
     Http.remotePort := Http.remotePort req |}.

(** The delivery [tk], as the opening of a stream with the headers [h]. *)
Definition opening (h : Headers.t) (streamId : Z) (tk : Grpc.Tick) : Grpc.Tick :=
  {| Grpc.time := Grpc.time tk; Grpc.respondThrows := Grpc.respondThrows tk;
     Grpc.endThrows := Grpc.endThrows tk; Grpc.event := Grpc.Open h streamId |}.

(** The state [st] of a stream, had the stream come with the headers [m]
    and reached the phase [p]. *)
Definition twin (m : Headers.t) (p : Grpc.Phase) (st : Grpc.State) : Grpc.State :=
  Grpc.set_phase p (Grpc.set_metadata m st).

(** What a handler does on the twin of a state: it leaves the twin of
    what it leaves on the state itself, in the same phase, and logs the
    same. *)
Definition mirrors (m : Headers.t) (r r' : Grpc.State * list Fx.Effect) : Prop :=
  r'.1 = twin m (Grpc.phase r.1) r.1 ∧ logs r'.2 = logs r.2.

(** Two phases of two streams that differ in the credential only: both
    await the resolver, for tokens of one logged prefix that it answers
    alike, or both are in the same later phase. *)
Definition phase_sim (resolve : Auth.Resolver) (p p' : Grpc.Phase) : Prop :=
  match p, p' with
  | Grpc.Fresh, _ => False
  | Grpc.AwaitAuth t, Grpc.AwaitAuth t' =>
      Capture.tokenPrefix t = Capture.tokenPrefix t' ∧ resolve t = resolve t'
  | _, _ => p = p'
  end.

(** [st'] is [st], had the stream come with the headers [m]. *)
Definition sim (resolve : Auth.Resolver) (m : Headers.t) (st st' : Grpc.State) : Prop :=
  st' = twin m (Grpc.phase st') st ∧ alike (Grpc.metadata st) m ∧
  phase_sim resolve (Grpc.phase st) (Grpc.phase st').

(** An effect of a request that is turned away with 401: a log entry, the
    resolver call, the 401 itself and the end of the response.  Nothing
    goes to a shard, no session is asked for, and no other status or
    response is sent. *)
Definition turned_away (e : Fx.Effect) : bool :=
  match e with
  | Fx.Log _ _ _ | Fx.ResolveToken _ | Fx.ResEnd _ | Fx.StreamEnd => true
  | Fx.WriteHead n _ | Fx.StreamRespond (Fx.Status n) => (n =? 401)%N
  | _ => false
  end.

(** How many more calls of [stream.respond] and of [stream.end] the
    guards of a stream still allow. *)
Definition respond_budget (st : Grpc.State) : nat :=
  if Grpc.streamResponded (Grpc.guards st) then 0 else 1.

Definition end_budget (st : Grpc.State) : nat :=
  if Grpc.streamEnded (Grpc.guards st) then 0 else 1.

(** Running from [st] to [r.1] with the effects [r.2] stays within the
    budgets of [st]. *)
Definition within (st : Grpc.State) (r : Grpc.State * list Fx.Effect) : Prop :=
  Grpc.responds r.2 + respond_budget r.1 ≤ respond_budget st ∧
  Grpc.ends r.2 + end_budget r.1 ≤ end_budget st.

(** Every call of [stream.end()] on the inbound stream: those made
    through [safeEnd], and the one that [proxyStream.pipe(stream)] makes
    on its own. *)
Definition end_calls (tr : list Fx.Effect) : nat :=
  length (filter (λ e, match e with
                       | Fx.StreamEnd | Fx.StreamEndByPipe => true
                       | _ => false
                       end = true) tr).

(** The calls among them that the pipe makes. *)
Definition pipe_ends (tr : list Fx.Effect) : nat :=
  length (filter (λ e, match e with
                       | Fx.StreamEndByPipe => true
                       | _ => false
                       end = true) tr).

(** How many of them the pipe can still make. *)
Definition pipe_budget (st : Grpc.State) : nat :=
  if Grpc.writableEnded (Grpc.inbound st) then 0 else 1.

(** Running from [st] to [r.1] with the effects [r.2], the pipe from the
    outbound stream ends the inbound stream no more often than the state
    of its writable side allows. *)
Definition piped (st : Grpc.State) (r : Grpc.State * list Fx.Effect) : Prop :=
  pipe_ends r.2 + pipe_budget r.1 ≤ pipe_budget st.

(** The outbound stream of a bridge is gone. *)
Definition out_gone (st : Grpc.State) : bool :=
  Grpc.out_destroyed (Grpc.outbound st) || Grpc.out_closed (Grpc.outbound st).

(** The calls of [proxyStream.destroy()]. *)
Definition out_destroys (tr : list Fx.Effect) : nat :=
  length (filter (λ e, match e with Fx.OutDestroy => true | _ => false end = true) tr).

(** An event on which a listener of the gateway destroys the outbound
    stream: ['aborted'] of the inbound stream, and ['error'] of the
    session. *)
Definition tears_bridge (e : Grpc.Event) : bool :=
  match e with Grpc.InAborted | Grpc.SessionFailed => true | _ => false end.

(** The inbound stream of a bridge is finalized: ended by [safeEnd], or
    already destroyed. *)
Definition in_finalized (st : Grpc.State) : bool :=
  Grpc.streamEnded (Grpc.guards st) || Grpc.destroyed (Grpc.inbound st).

Definition bridging (st : Grpc.State) : Prop :=
  ∃ auth target session, Grpc.phase st = Grpc.Bridging auth target session.

(** An effect of a stream that was turned away before any resolver call. *)
Definition turned_away_early (e : Fx.Effect) : bool :=
  turned_away e && negb (Fx.is_resolver_call e).

(** What every reachable state of the pool satisfies: session numbers are
    handed out in order, and a session found in [sessions] is past its
    handshake. *)
Definition pool_inv (st : Pool.State) : Prop :=
  (∀ sid s, Pool.heap st !! sid = Some s → sid < Pool.nextSession st) ∧
  (∀ t sid, Pool.sessions st !! t = Some sid →
     ∃ s, Pool.heap st !! sid = Some s ∧ Pool.connecting s = false).

(** [f] never puts a session back into its handshake. *)
Definition calm (f : Pool.Session → Pool.Session) : Prop :=
  ∀ s, Pool.connecting (f s) = true → Pool.connecting s = true.

(** From [st] to [st'] the invariant is kept and no call starts to wait. *)
Definition keeps (st st' : Pool.State) : Prop :=
  (pool_inv st → pool_inv st') ∧
  (∀ p t, Pool.waitTimeouts st' !! p = Some t → Pool.waitTimeouts st !! p = Some t).

(** The listener is past authentication. *)
Definition past_auth (ph : Grpc.Phase) : Prop :=
  match ph with
  | Grpc.Fresh | Grpc.AwaitAuth _ => False
  | _ => True
  end.

(** A fixed scenario: two shards, one known token. *)
Module Scenario.

Definition endpoints : list string := [ "http://h0:9"; "http://h1:9" ].

Definition resolve (assigned : option string) : Auth.Resolver :=
  λ token,
    if String.eqb token "abc" then
      Auth.Fulfilled
        (Some {| Auth.r_teamId := "t1"; Auth.r_assignedShard := assigned;
                 Auth.tokenHash := "5f2c"; Auth.tokenId := "id-1" |})
    else Auth.Fulfilled None.

(** A stand-in for the [URL] class on the addresses of the scenario. *)
Definition origin (hostname : string) : Http.Url :=
  {| Http.u_protocol := "http:"; Http.u_hostname := hostname;
     Http.u_port := "9"; Http.u_host := hostname +:+ ":9";
     Http.u_pathname := "/"; Http.u_search := "" |}.

Definition URL1 (s : string) : option Http.Url :=
  if String.eqb s "http://h0:9" then Some (origin "h0")
  else if String.eqb s "http://h1:9" then Some (origin "h1")
  else None.

(** [s] cut before its first slash. *)
Fixpoint until_slash (s : string) : string * string :=
  match s with
  | EmptyString => (EmptyString, EmptyString)
  | String c s' =>
      if Ascii.eqb c "/" then (EmptyString, s)
      else let '(host, path) := until_slash s' in (String c host, path)
  end.

(** A stand-in for [new URL(input, base)] on the two kinds of request
    target the scenario uses, neither with a port, query or fragment:
    - an origin-form path [/a/b] keeps the origin of [base] and replaces
      its path;
    - a scheme-relative reference [//host/a/b] keeps only the scheme of
      [base]: host and path come from the reference, so that
      [new URL('//evil.example/v1/logs', 'http://h1:9')] is
      [http://evil.example/v1/logs]. *)
Definition URL2 (input : string) (base : Http.Url) : option Http.Url :=
  match Js.strip_prefix "//" input with
  | Some rest =>
      let '(host, path) := until_slash rest in
      Some {| Http.u_protocol := Http.u_protocol base;
              Http.u_hostname := host; Http.u_port := ""; Http.u_host := host;
              Http.u_pathname := if Js.truthy path then path else "/";
              Http.u_search := "" |}
  | None =>
      Some {| Http.u_protocol := Http.u_protocol base;
              Http.u_hostname := Http.u_hostname base;
              Http.u_port := Http.u_port base; Http.u_host := Http.u_host base;
              Http.u_pathname := input; Http.u_search := "" |}
  end.

Definition URL_host (s : string) : option string := Http.u_host <$> URL1 s.

Definition clk : Http.Clock :=
  {| Http.requestId := "r-1"; Http.startTime := 1000;
     Http.authTime := 1002; Http.respondTime := 1010 |}.

(** A request for the request target [url]. *)
Definition requestTo (url : string) (headers : Headers.t) : Http.Request :=
  {| Http.req_method := Some "POST"; Http.req_url := Some url;
     Http.req_headers := headers; Http.req_body := [ "payload" ];
     Http.remoteAddress := Some "10.0.0.7"; Http.remotePort := Some 40000%Z |}.

Definition request : Headers.t → Http.Request := requestTo "/v1/logs".

Definition bearer (value : string) : Headers.t :=
  [ ("host", Headers.HStr "gateway:4318");
    ("authorization", Headers.HStr value) ].

Definition up : Http.Upstream := Http.UpResponse (Some 200%N) [] [ "ok" ] false.

Definition tick (e : Grpc.Event) : Grpc.Tick :=
  {| Grpc.time := 1002; Grpc.respondThrows := false;
     Grpc.endThrows := false; Grpc.event := e |}.

(** The record of the known token, as resolved at time 1002. *)
Definition cached : Auth.CachedAuth :=
  {| Auth.teamId := "t1"; Auth.assignedShard := Some "shard-1";
     Auth.expiresAt := 61002 |}.

Definition resolved : Auth.ResolvedToken :=
  {| Auth.r_teamId := "t1"; Auth.r_assignedShard := Some "shard-1";
     Auth.tokenHash := "5f2c"; Auth.tokenId := "id-1" |}.

Definition metadata : Headers.t :=
  [ (":method", Headers.HStr "POST");
    (":path", Headers.HStr "/collector.logs.v1.LogsService/Export");
    ("content-type", Headers.HStr "application/grpc");
    ("authorization", Headers.HStr "Bearer abc") ].

Definition run : list Grpc.Tick → Grpc.State → Grpc.State * list Fx.Effect :=
  Grpc.run (resolve (Some "shard-1")) endpoints URL_host "r-1" 1000.

(** The stream of the known token, waiting for its session. *)
Definition awaiting : Grpc.State :=
  (run [ tick (Grpc.Open metadata 1); tick Grpc.AuthAnswered ] (Grpc.init ∅)).1.

(** The same stream once bridged to session 0. *)
Definition bridged : Grpc.State :=
  (run [ tick (Grpc.SessionSettled (Grpc.AcqOk 0 false false false)) ]
     awaiting).1.

(** A pool with one session for [h1], still connecting, then established. *)
Definition connectingPool : Pool.State :=
  (Pool.run [ Pool.Acquire "http://h1:9" false ] Pool.init).1.

Definition establishedPool : Pool.State :=
  (Pool.run [ Pool.Connect 0 ] connectingPool).1.

End Scenario.

(** ** Notions used to state the further properties *)

Definition no_space (s : string) : bool := Js.all (λ c, negb (Js.is_space c)) s.

(** Every record of [cache] expires at most one TTL after [now]. *)
Definition expires_by (now : Z) (cache : gmap string Auth.CachedAuth) : Prop :=
  ∀ h c, cache !! h = Some c → (Auth.expiresAt c ≤ now + Auth.TTL)%Z.

(** The effects of a trace other than its log entries. *)
Definition actions (tr : list Fx.Effect) : list Fx.Effect :=
  filter (λ e, Fx.is_log e = false) tr.

(** The calls of [res.end]. *)
Definition res_ends (tr : list Fx.Effect) : nat :=
  length (filter (λ e, match e with Fx.ResEnd _ => true | _ => false end = true) tr).

(** The chunks written to the inbound response. *)
Definition res_body (tr : list Fx.Effect) : list string :=
  omap (λ e, match e with Fx.ResWrite c => Some c | _ => None end) tr.

(** The status the gateway relays for what the shard did: the shard's
    own status code, and 502 when it has none or the request failed. *)
Definition relayed_status (up : Http.Upstream) : N :=
  match up with
  | Http.UpResponse sc _ _ _ | Http.UpCut sc _ _ => Http.statusOr502 sc
  | Http.UpError => 502%N
  end.

(** The body of the shard's response, as far as it arrived. *)
Definition upstream_body (up : Http.Upstream) : list string :=
  match up with
  | Http.UpResponse _ _ body _ | Http.UpCut _ _ body => body
  | Http.UpError => []
  end.

(** The headers of the shard's response. *)
Definition upstream_headers (up : Http.Upstream) : option Headers.t :=
  match up with
  | Http.UpResponse _ hdrs _ _ | Http.UpCut _ hdrs _ => Some hdrs
  | Http.UpError => None
  end.

(** [res.writeHead] accepts the status to relay. *)
Definition relayable (up : Http.Upstream) : bool :=
  negb (Http.writeHead_throws (relayed_status up)).

(** The shard's response comes to an end that the gateway sees: ['end']
    of [proxyRes], or ['error'] of [proxyReq]. *)
Definition completes (up : Http.Upstream) : bool :=
  match up with Http.UpCut _ _ _ => false | _ => true end.

(** The exceptions that left a callback uncaught. *)
Definition uncaught (tr : list Fx.Effect) : nat :=
  length (filter (λ e, match e with Fx.Uncaught => true | _ => false end = true) tr).

(** A session that [sessions] may hold for [t]: opened for [t], past its
    handshake and its connect timer.  Whether it is still open is not
    part of it: the transport closes and destroys sessions on its own. *)
Definition live_for (t : string) (s : Pool.Session) : Prop :=
  Pool.target s = t ∧ Pool.connecting s = false ∧ Pool.timeout s = false.

(** The session passes the test of [getClientSession]. *)
Definition usable (s : Pool.Session) : bool :=
  negb (Pool.closed s) && negb (Pool.destroyed s).

(** No call is listening on [s] with [once]. *)
Definition unwatched (s : Pool.Session) : Prop :=
  Pool.onConnect s = [] ∧ Pool.onError s = [].

(** Session numbers are handed out in order, no call is waiting on any
    session, and, the endpoints of [except] apart, what [sessions] maps
    an endpoint to is a session established for it. *)
Definition pool_wf (except : list string) (st : Pool.State) : Prop :=
  (∀ sid s, Pool.heap st !! sid = Some s →
     sid < Pool.nextSession st ∧ unwatched s) ∧
  (∀ t sid, t ∉ except → Pool.sessions st !! t = Some sid →
     ∃ s, Pool.heap st !! sid = Some s ∧ live_for t s).

(** [f] changes nothing that makes a session live, nor its listeners. *)
Definition gentle (f : Pool.Session → Pool.Session) : Prop :=
  ∀ s, (∀ t, live_for t s → live_for t (f s)) ∧ (unwatched s → unwatched (f s)).

(** [f] keeps the endpoint and the listeners of a session. *)
Definition steady (f : Pool.Session → Pool.Session) : Prop :=
  ∀ s, Pool.target (f s) = Pool.target s ∧ (unwatched s → unwatched (f s)).

(** The session [sid] has been torn down. *)
Definition dead (sid : nat) (st : Pool.State) : Prop :=
  ∃ s, Pool.heap st !! sid = Some s ∧ Pool.destroyed s = true.

(** From [st] to [st'] no session is lost and none comes back from
    being torn down. *)
Definition ages (st st' : Pool.State) : Prop :=
  ∀ sid s, Pool.heap st !! sid = Some s →
    ∃ s', Pool.heap st' !! sid = Some s' ∧
          (Pool.destroyed s = true → Pool.destroyed s' = true).

(** The listener that [e] runs is the ['close'] or the ['error']
    listener of the session [sid]. *)
Definition tears_down (e : Pool.Event) (sid : nat) : Prop :=
  e = Pool.Close sid ∨ ∃ code, e = Pool.SessionError sid code.

(** The effects of a stream on the pool and on pooled sessions. *)
Definition is_pool_call (e : Fx.Effect) : bool :=
  match e with
  | Fx.GetClientSession _ | Fx.PoolEvict _ | Fx.SessionRequest _ _ => true
  | _ => false
  end.

Definition pool_calls (tr : list Fx.Effect) : list Fx.Effect :=
  filter (λ e, is_pool_call e = true) tr.

(** The calls of [getClientSession] and of [session.request]. *)
Definition acquisitions (tr : list Fx.Effect) : nat :=
  length (filter (λ e, match e with
                       | Fx.GetClientSession _ => true
                       | _ => false
                       end = true) tr).

Definition requests (tr : list Fx.Effect) : nat :=
  length (filter (λ e, match e with
                       | Fx.SessionRequest _ _ => true
                       | _ => false
                       end = true) tr).

(** How many more of them a stream in phase [ph] can still make. *)
Definition acquire_budget (ph : Grpc.Phase) : nat :=
  match ph with
  | Grpc.Fresh | Grpc.AwaitAuth _ => 2
  | Grpc.AwaitSession _ _ false => 1
  | _ => 0
  end.

Definition request_budget (ph : Grpc.Phase) : nat :=
  match ph with
  | Grpc.Fresh | Grpc.AwaitAuth _ | Grpc.AwaitSession _ _ _ => 1
  | _ => 0
  end.

(** The endpoint a stream is routed to, once it has one, is one of
    [endpoints]. *)
Definition routed_within (endpoints : list string) (ph : Grpc.Phase) : Prop :=
  match ph with
  | Grpc.AwaitSession _ target _ | Grpc.Bridging _ target _ => target ∈ endpoints
  | _ => True
  end.

(** An effect on the pool concerns one of [endpoints]: a session is asked
    for, or dropped, for a configured endpoint only, and an outbound
    stream carries the authority of one. *)
Definition to_configured (endpoints : list string)
    (URL_host : string → option string) (e : Fx.Effect) : Prop :=
  match e with
  | Fx.GetClientSession t | Fx.PoolEvict t => t ∈ endpoints
  | Fx.SessionRequest _ hdrs =>
      ∃ target host,
        target ∈ endpoints ∧ URL_host target = Some host ∧
        Headers.get ":authority" hdrs = Some (Headers.HStr host)
  | _ => True
  end.

(** What one delivery does to the pool: nothing, or one of the three
    moves of the listener. *)
Inductive pool_move (endpoints : list string)
    (URL_host : string → option string)
    (st : Grpc.State) (r : Grpc.State * list Fx.Effect) : Prop :=
| move_none :
    pool_calls r.2 = [] →
    (Grpc.phase r.1 = Grpc.phase st ∨ Grpc.phase r.1 = Grpc.Unauthorized ∨
     Grpc.phase r.1 = Grpc.Finished ∨
     (Grpc.phase st = Grpc.Fresh ∧ ∃ t, Grpc.phase r.1 = Grpc.AwaitAuth t)) →
    pool_move endpoints URL_host st r
| move_acquire t auth target :
    Grpc.phase st = Grpc.AwaitAuth t →
    target ∈ endpoints →
    Grpc.phase r.1 = Grpc.AwaitSession auth target false →
    pool_calls r.2 = [ Fx.GetClientSession target ] →
    pool_move endpoints URL_host st r
| move_retry auth target :
    Grpc.phase st = Grpc.AwaitSession auth target false →
    Grpc.phase r.1 = Grpc.AwaitSession auth target true →
    pool_calls r.2 = [ Fx.PoolEvict target; Fx.GetClientSession target ] →
    pool_move endpoints URL_host st r
| move_request auth target retry session host hdrs :
    Grpc.phase st = Grpc.AwaitSession auth target retry →
    Grpc.phase r.1 = Grpc.Bridging auth target session →
    URL_host target = Some host →
    Headers.get ":authority" hdrs = Some (Headers.HStr host) →
    Headers.get "x-hdx-team-id" hdrs = Some (Headers.HStr (Auth.teamId auth)) →
    pool_calls r.2 = [ Fx.SessionRequest session hdrs ] →
    pool_move endpoints URL_host st r.

(** The chunks that the events of [tks] deliver on the inbound stream,
    and on [proxyStream]. *)
Definition in_chunks (tks : list Grpc.Tick) : list string :=
  omap (λ tk, match Grpc.event tk with
              | Grpc.InData c => Some c
              | _ => None
              end) tks.

Definition out_chunks (tks : list Grpc.Tick) : list string :=
  omap (λ tk, match Grpc.event tk with
              | Grpc.OutData c => Some c
              | _ => None
              end) tks.

(** The chunks written to [proxyStream], and to the inbound stream. *)
Definition out_writes (tr : list Fx.Effect) : list string :=
  omap (λ e, match e with Fx.OutWrite c => Some c | _ => None end) tr.

Definition stream_writes (tr : list Fx.Effect) : list string :=
  omap (λ e, match e with Fx.StreamWrite c => Some c | _ => None end) tr.

(** Nothing can be written to the inbound stream any more. *)
Definition in_shut (st : Grpc.State) : bool :=
  out_gone st || Grpc.destroyed (Grpc.inbound st)
  || Grpc.writableEnded (Grpc.inbound st).

(** The counters once [chunks] have gone through them. *)
Definition counted (c : Grpc.Counters) (chunks : list string) : Grpc.Counters :=
  {| Grpc.bytesReceived := Grpc.bytesReceived c + Capture.bytesReceived chunks;
     Grpc.chunkCount := Grpc.chunkCount c + N.of_nat (length chunks);
     Grpc.firstChunk :=
       match Grpc.firstChunk c with
       | Some f => Some f
       | None => Capture.firstChunk chunks
       end |}.

(** The inbound stream can still be answered, and answering works at
    this delivery. *)
Definition answerable (tk : Grpc.Tick) (st : Grpc.State) : Prop :=
  Grpc.streamResponded (Grpc.guards st) = false ∧
  Grpc.destroyed (Grpc.inbound st) = false ∧
  Grpc.closed (Grpc.inbound st) = false ∧
  Grpc.respondThrows tk = false.

(** The listener answers with the status [n] and gives the stream up:
    [n] is sent if the stream can be answered, no other status is ever
    sent, nothing goes to a shard and no session is asked for, whatever
    events follow. *)
Definition gives_up (run : list Grpc.Tick → Grpc.State → Grpc.State * list Fx.Effect)
    (n : N) (tk : Grpc.Tick) (st : Grpc.State) : Prop :=
  (answerable tk st → Fx.statuses (run [ tk ] st).2 = [ n ]) ∧
  ∀ tks,
    Fx.forwards (run (tk :: tks) st).2 = [] ∧
    pool_calls (run (tk :: tks) st).2 = [] ∧
    ∀ m, m ∈ Fx.statuses (run (tk :: tks) st).2 → m = n.

(** Further inputs for the scenario. *)
(** How many more resolver calls a stream in phase [ph] can still make. *)
Definition resolve_budget (ph : Grpc.Phase) : nat :=
  match ph with
  | Grpc.Fresh | Grpc.AwaitAuth _ => 1
  | _ => 0
  end.

Module Sample.

(** A resolver whose promise is always rejected. *)
Definition failing : Auth.Resolver := λ _, Auth.Rejected.

(** Request headers with the Authorization header under a capitalised
    key. *)
Definition capitalised : Headers.t :=
  [ ("host", Headers.HStr "gateway:4318");
    ("Authorization", Headers.HStr "Bearer abc") ].

(** The request of the known token. *)
Definition request : Http.Request :=
  Scenario.request (Scenario.bearer "Bearer abc").

(** The record of the known token when its shard is [shard]. *)
Definition record (shard : string) : Auth.CachedAuth :=
  {| Auth.teamId := "t1"; Auth.assignedShard := Some shard;
     Auth.expiresAt := 61002 |}.

(** The events that establish a session for the second shard, and the
    session they leave in the pool. *)
Definition established : list Pool.Event :=
  [ Pool.Acquire "http://h1:9" false; Pool.Connect 0 ].

Definition session : Pool.Session :=
  {| Pool.target := "http://h1:9"; Pool.connecting := false;
     Pool.closed := false; Pool.destroyed := false; Pool.creator := 0;
     Pool.timeout := false; Pool.pingInterval := true;
     Pool.onConnect := []; Pool.onError := [] |}.

(** The stream of the known token, opened and waiting for the resolver. *)
Definition opened : Grpc.State :=
  (Scenario.run [ Scenario.tick (Grpc.Open Scenario.metadata 1) ] (Grpc.init ∅)).1.

(** The same stream waiting for its session, the first time or on the
    retry. *)
Definition waiting (retry : bool) : Grpc.State :=
  Grpc.set_phase (Grpc.AwaitSession Scenario.cached "http://h1:9" retry)
    Scenario.awaiting.

(** Chunks travelling in both directions. *)
Definition traffic : list Grpc.Tick :=
  [ Scenario.tick (Grpc.InData "ab"); Scenario.tick (Grpc.InData "");
    Scenario.tick (Grpc.OutData "ok"); Scenario.tick (Grpc.InData "c") ].

End Sample.

(* ===================================================================== *)
(** * Part II: properties                                                 *)
(* ===================================================================== *)

(** ** Strings *)
Section JsFacts.

Lemma strip_prefix_app p s : Js.strip_prefix p (p +:+ s) = Some s.
Proof.
  induction p as [|c p IH]; simpl; [done|].
  by rewrite Ascii.eqb_refl.
Qed.

Lemma strip_prefix_Some p s r : Js.strip_prefix p s = Some r → s = p +:+ r.
Proof.
  revert s; induction p as [|c p IH]; intros s; simpl.
  - by intros [= ->].
  - destruct s as [|b s]; [done|].
    destruct (Ascii.eqb c b) eqn:E; [|done].
    apply Ascii.eqb_eq in E as ->. by intros ->%IH.
Qed.

Lemma length_take n s : String.length (Js.take n s) ≤ n.
Proof.
  revert s; induction n as [|n IH]; intros [|c s]; simpl; try lia.
  specialize (IH s). lia.
Qed.

Lemma string_length_app s1 s2 :
  String.length (s1 +:+ s2) = String.length s1 + String.length s2.
Proof. induction s1 as [|c s1 IH]; simpl; [done|]. by rewrite IH. Qed.

(** A string cannot contain a longer one. *)
Lemma strip_prefix_length p s r :
  Js.strip_prefix p s = Some r → String.length p ≤ String.length s.
Proof. intros ->%strip_prefix_Some. rewrite string_length_app. lia. Qed.

Lemma includes_length s needle :
  Js.includes s needle = true → String.length needle ≤ String.length s.
Proof.
  induction s as [|c s IH]; simpl.
  - destruct (Js.strip_prefix needle "") eqn:E; [|done].
    by apply strip_prefix_length in E.
  - destruct (Js.strip_prefix needle (String c s)) eqn:E.
    + by apply strip_prefix_length in E.
    + intros ?%IH. lia.
Qed.

Lemma trimStart_spaces s : Js.all Js.is_space s = true → Js.trimStart s = "".
Proof.
  induction s as [|c s IH]; simpl; [done|].
  intros [-> ?]%andb_true_iff. auto.
Qed.

Lemma trim_spaces s : Js.all Js.is_space s = true → Js.trim s = "".
Proof. intros H. unfold Js.trim. by rewrite trimStart_spaces. Qed.

End JsFacts.

(** ** Shard router *)
Section ShardFacts.
Import Shard.

Lemma parseInt_acc_uint d acc :
  N.to_nat (Js.parseInt_acc acc (NilEmpty.string_of_uint d))
  = Nat.of_uint_acc d (N.to_nat acc).
Proof.
  revert acc; induction d; intros acc; simpl; [done|..];
    rewrite IHd, Nat.tail_mul_spec; f_equal;
    unfold Js.digit_value, Js.code; simpl; lia.
Qed.

Lemma parseInt_uint d :
  N.to_nat (Js.parseInt (NilEmpty.string_of_uint d)) = Nat.of_uint d.
Proof. apply parseInt_acc_uint. Qed.

Lemma digits_of_uint d : Js.all Js.is_digit (NilEmpty.string_of_uint d) = true.
Proof. induction d; simpl; auto. Qed.

Lemma truthy_of_uint d :
  d ≠ Decimal.Nil → Js.truthy (NilEmpty.string_of_uint d) = true.
Proof. by destruct d. Qed.

Lemma is_digit_cases c :
  Js.is_digit c = true →
  c ∈ ["0"; "1"; "2"; "3"; "4"; "5"; "6"; "7"; "8"; "9"]%char.
Proof.
  destruct c as [[] [] [] [] [] [] [] []]; vm_compute; intros [=];
    repeat (first [ by left | right ]).
Qed.

Lemma uint_of_digits ds :
  Js.all Js.is_digit ds = true → ∃ d, NilEmpty.string_of_uint d = ds.
Proof.
  induction ds as [|c ds IH]; simpl.
  - by exists Decimal.Nil.
  - intros [Hc [d <-]%IH]%andb_true_iff.
    apply is_digit_cases in Hc.
    repeat (apply elem_of_cons in Hc as [->|Hc]);
      [ by exists (Decimal.D0 d) | by exists (Decimal.D1 d)
      | by exists (Decimal.D2 d) | by exists (Decimal.D3 d)
      | by exists (Decimal.D4 d) | by exists (Decimal.D5 d)
      | by exists (Decimal.D6 d) | by exists (Decimal.D7 d)
      | by exists (Decimal.D8 d) | by exists (Decimal.D9 d)
      | by apply elem_of_nil in Hc ].
Qed.

Lemma shardIndexFromId_matches d :
  d ≠ Decimal.Nil →
  N.to_nat <$> shardIndexFromId ("shard-" +:+ NilEmpty.string_of_uint d)
  = Some (Nat.of_uint d).
Proof.
  intros Hd. unfold shardIndexFromId.
  rewrite strip_prefix_app, truthy_of_uint, digits_of_uint by done.
  simpl. by rewrite parseInt_uint.
Qed.

Lemma shardIndexFromId_Some shardId idx :
  shardIndexFromId shardId = Some idx → is_shard_id shardId (N.to_nat idx).
Proof.
  unfold shardIndexFromId.
  destruct (Js.strip_prefix "shard-" shardId) as [ds|] eqn:E; [|done].
  apply strip_prefix_Some in E as ->.
  destruct (Js.truthy ds) eqn:Ht; [|done].
  destruct (Js.all Js.is_digit ds) eqn:Hd; [|done].
  intros [= <-]. destruct (uint_of_digits ds Hd) as [d <-].
  exists d. split_and!; [by destruct d | done | by rewrite parseInt_uint].
Qed.

Lemma pickShardEndpoint_matches shardId index endpoints :
  is_shard_id shardId index →
  pickShardEndpoint shardId endpoints = endpoints !! index.
Proof.
  intros (d & Hd & -> & <-). unfold pickShardEndpoint.
  pose proof (shardIndexFromId_matches d Hd) as H.
  destruct (shardIndexFromId _) as [idx|]; [|done].
  by injection H as ->.
Qed.

Lemma pickShardEndpoint_Some shardId endpoints e :
  pickShardEndpoint shardId endpoints = Some e →
  ∃ index, is_shard_id shardId index ∧ endpoints !! index = Some e.
Proof.
  unfold pickShardEndpoint.
  destruct (shardIndexFromId shardId) as [idx|] eqn:E; [|done].
  intros H. exists (N.to_nat idx). split; [|done].
  by apply shardIndexFromId_Some.
Qed.

(** C4.  The shard router is a total function of the shard id and the
    endpoint list, with no effect and no exception: for an id of the
    form [shard-<index>] it is the lookup [endpoints[index]], hence the
    endpoint when the index is in range and [null] when it is not, and
    for any other id it is [null]. *)
Theorem pickShardEndpoint_spec (shardId : string) (endpoints : list string) :
  (∀ index, is_shard_id shardId index →
     pickShardEndpoint shardId endpoints = endpoints !! index) ∧
  (∀ index e, is_shard_id shardId index → endpoints !! index = Some e →
     pickShardEndpoint shardId endpoints = Some e) ∧
  (∀ index, is_shard_id shardId index → length endpoints ≤ index →
     pickShardEndpoint shardId endpoints = None) ∧
  ((∀ index, ¬ is_shard_id shardId index) →
     pickShardEndpoint shardId endpoints = None).
Proof.
  split_and!.
  - intros index H. by apply pickShardEndpoint_matches.
  - intros index e H He. by rewrite (pickShardEndpoint_matches _ index).
  - intros index H Hlen. rewrite (pickShardEndpoint_matches _ index) by done.
    by apply lookup_ge_None.
  - intros Hno. destruct (pickShardEndpoint shardId endpoints) eqn:E; [|done].
    apply pickShardEndpoint_Some in E as (index & H & _).
    by destruct (Hno index).
Qed.

End ShardFacts.

Lemma pickShardEndpoint_spec_witness :
  Shard.pickShardEndpoint "shard-1" ["http://h0:9"; "http://h1:9"]
  = Some "http://h1:9".
Proof.
  apply (proj1 (proj2 (pickShardEndpoint_spec "shard-1"
                         ["http://h0:9"; "http://h1:9"])) 1).
  - exists (Decimal.D1 Decimal.Nil). split_and!; [discriminate | reflexivity..].
  - reflexivity.
Defined.

(** ** Authentication cache *)
Section AuthFacts.
Import Auth Fx.

Lemma authenticateToken_calls resolve now token cache :
  resolver_calls (authenticateToken resolve now token cache).2 = 1.
Proof.
  unfold authenticateToken.
  destruct (resolve token) as [|[res|]]; [done| |done].
  destruct (Js.truthy (tokenHash res)); simpl; [|done].
  destruct (cache !! tokenHash res) as [c|]; [|done].
  by destruct (now <? expiresAt c)%Z.
Qed.

Lemma authenticateToken_hit resolve now token cache res c :
  resolve token = Fulfilled (Some res) →
  Js.truthy (tokenHash res) = true →
  cache !! tokenHash res = Some c →
  (now < expiresAt c)%Z →
  authenticateToken resolve now token cache
  = (Return (Some c), cache, [ ResolveToken token ]).
Proof.
  intros Hres Hh Hc Hlt. unfold authenticateToken.
  rewrite Hres, Hh, Hc. simpl.
  by apply Z.ltb_lt in Hlt as ->.
Qed.

(** Whatever record a resolution returns is the cache's entry for the
    token's hash afterwards. *)
Lemma authenticateToken_cached resolve now token cache a cache' tr :
  authenticateToken resolve now token cache = (Return (Some a), cache', tr) →
  ∃ res, resolve token = Fulfilled (Some res) ∧
         Js.truthy (tokenHash res) = true ∧
         cache' !! tokenHash res = Some a.
Proof.
  unfold authenticateToken.
  destruct (resolve token) as [|[res|]] eqn:Hres; [done| |done].
  destruct (Js.truthy (tokenHash res)) eqn:Hh; simpl; [|done].
  destruct (cache !! tokenHash res) as [c|] eqn:Hc.
  - destruct (now <? expiresAt c)%Z; intros [= <- <- <-]; exists res;
      split_and!; try done. by rewrite lookup_insert_eq.
  - intros [= <- <- <-]. exists res. split_and!; try done.
    by rewrite lookup_insert_eq.
Qed.


End AuthFacts.

(** ** Token extraction *)
Section TokenFacts.
Import Headers.

Lemma space_not_B c :
  Js.is_space c = true → Ascii.eqb c "B" || Ascii.eqb c "b" = false.
Proof. destruct c as [[] [] [] [] [] [] [] []]; vm_compute; congruence. Qed.

Lemma match_bearer_spaces h :
  Js.all Js.is_space h = true → match_bearer h = None.
Proof.
  destruct h as [|c h]; simpl; [done|].
  intros [Hc _]%andb_true_iff. by rewrite (space_not_B c Hc).
Qed.

Lemma getBearerToken_blank h :
  Js.all Js.is_space h = true → getBearerToken (Some (HStr h)) = None.
Proof.
  intros H. unfold getBearerToken.
  destruct (Js.truthy h); simpl; [|done].
  by rewrite match_bearer_spaces, trim_spaces.
Qed.

Lemma getBearerToken_array l :
  getBearerToken (Some (HArr l)) = getBearerToken (HStr <$> head l).
Proof. by destruct l. Qed.

Lemma getAuthHeader_absent headers :
  (∀ key, key ∈ keys headers → is_authorization key = false) →
  getAuthHeader headers = None.
Proof.
  intros Hno. unfold getAuthHeader.
  assert (get "authorization" headers = None) as ->.
  { induction headers as [|[k v] hs IH]; [done|].
    change (get "authorization" ((k, v) :: hs))
      with (if String.eqb "authorization" k
            then Some v else get "authorization" hs).
    destruct (String.eqb_spec "authorization" k) as [<-|Hne].
    - discriminate (Hno "authorization"). by left.
    - apply IH. intros key Hk. apply Hno. by right. }
  simpl. destruct (List.find _ _) as [k|] eqn:E; [|done].
  apply List.find_some in E as [Hin Hk].
  rewrite Hno in Hk; [done|]. by apply list_elem_of_In.
Qed.

End TokenFacts.

(** ** Traces *)
Section TraceFacts.
Import Fx.

Lemma statuses_app tr1 tr2 : statuses (tr1 ++ tr2) = statuses tr1 ++ statuses tr2.
Proof. apply omap_app. Qed.

Lemma forwards_app tr1 tr2 : forwards (tr1 ++ tr2) = forwards tr1 ++ forwards tr2.
Proof. apply filter_app. Qed.

Lemma resolver_calls_app tr1 tr2 :
  resolver_calls (tr1 ++ tr2) = resolver_calls tr1 + resolver_calls tr2.
Proof. unfold resolver_calls. by rewrite filter_app, length_app. Qed.

Lemma turned_away_forwards tr :
  forallb turned_away tr = true → forwards tr = [].
Proof.
  induction tr as [|e tr IH]; simpl; [done|].
  intros [He ?%IH]%andb_true_iff. unfold forwards in *.
  rewrite filter_cons. destruct (decide (is_forward e = true)) as [Hf|]; [|done].
  by destruct e.
Qed.

Lemma turned_away_statuses tr n :
  forallb turned_away tr = true → n ∈ statuses tr → n = 401%N.
Proof.
  induction tr as [|e tr IH]; simpl.
  - intros _ H. by apply elem_of_nil in H.
  - intros [He Htr]%andb_true_iff. unfold statuses. simpl.
    destruct (status_of e) as [m|] eqn:Hm; simpl; [|by apply IH].
    intros [->|?]%elem_of_cons; [|by apply IH].
    destruct e as [| | | | | | | | |[]| | | | | | | | | | | | | | |];
      simplify_eq/=; by apply N.eqb_eq in He.
Qed.

Lemma turned_away_acquires tr t :
  forallb turned_away tr = true → GetClientSession t ∉ tr.
Proof.
  induction tr as [|e tr IH]; simpl.
  - intros _. apply not_elem_of_nil.
  - by intros [He Htr]%andb_true_iff [<-|?]%elem_of_cons; [|apply IH].
Qed.

Lemma forallb_app_true {A} (f : A → bool) l1 l2 :
  forallb f l1 = true → forallb f l2 = true → forallb f (l1 ++ l2) = true.
Proof. intros. rewrite forallb_app. by apply andb_true_iff. Qed.

End TraceFacts.

(** ** Request/response gateway *)
Section HttpFacts.
Import Fx Http.
Context (URL1 : string → option Url) (URL2 : string → Url → option Url).
Context (resolve : Auth.Resolver) (endpoints : list string).
Context (clk : Clock) (up : Upstream) (req : Request).

Abbreviation handle := (Http.handle URL1 URL2 resolve endpoints clk up req).
Abbreviation token := (Headers.getBearerToken (Headers.getAuthHeader (req_headers req))).

Lemma reject_statuses extra reason :
  statuses (reject clk req extra reason) = [ 401%N ].
Proof. unfold reject. by destruct (0 <? _)%N. Qed.

Lemma reject_forwards extra reason :
  forwards (reject clk req extra reason) = [].
Proof. unfold reject. by destruct (0 <? _)%N. Qed.

Lemma reject_calls extra reason :
  resolver_calls (reject clk req extra reason) = 0.
Proof. unfold reject. by destruct (0 <? _)%N. Qed.

Lemma handle_missing cache :
  Headers.token_missing token = true →
  handle cache
  = (cache,
     [ incoming clk req (Headers.getAuthHeader (req_headers req));
       Log Warn [ rid clk ] "OTLP HTTP gateway: missing token" ] ++
     reject clk req [] "missing token").
Proof. intros H. unfold Http.handle. by rewrite H. Qed.

Lemma handle_unresolved cache t :
  token = Some t → Headers.token_missing token = false →
  resolve t = Auth.Fulfilled None →
  handle cache
  = (cache,
     [ incoming clk req (Headers.getAuthHeader (req_headers req));
       ResolveToken t;
       Log Warn [ rid clk; ("tokenPrefix", VStr (Capture.tokenPrefix t)) ]
         "OTLP HTTP gateway: invalid token" ] ++
     reject clk req [ ("tokenPrefix", VStr (Capture.tokenPrefix t)) ]
       "invalid token").
Proof.
  intros Ht Hm Hr. unfold Http.handle. rewrite Hm, Ht. simpl.
  unfold Auth.authenticateToken. by rewrite Hr.
Qed.

(** A request without a usable token, or whose token the resolver does
    not know, gets 401 and nothing else; nothing is sent to a shard and
    the cache is left as it is. *)
Lemma handle_unauthenticated cache :
  unauthenticated resolve (req_headers req) →
  (handle cache).1 = cache ∧
  statuses (handle cache).2 = [ 401%N ] ∧
  forwards (handle cache).2 = [].
Proof.
  intros [Hm|(t & Ht & Hr)];
    [|destruct (Headers.token_missing token) eqn:Hm];
    [rewrite handle_missing by done
    |rewrite handle_missing by done
    |rewrite (handle_unresolved _ t) by done];
    cbn [fst snd];
    by rewrite statuses_app, forwards_app, reject_statuses, reject_forwards.
Qed.

(** Without an Authorization header the resolver is not called. *)
Lemma handle_absent cache :
  no_authorization (req_headers req) →
  statuses (handle cache).2 = [ 401%N ] ∧
  resolver_calls (handle cache).2 = 0.
Proof.
  intros Hno%getAuthHeader_absent.
  rewrite handle_missing by by rewrite Hno.
  cbn [snd].
  by rewrite statuses_app, resolver_calls_app, reject_statuses, reject_calls.
Qed.

(** A blank Authorization value takes the missing-token branch. *)
Lemma handle_blank cache v h :
  Headers.getAuthHeader (req_headers req) = Some v →
  first_value v = Some h →
  Js.all Js.is_space h = true →
  token = None ∧
  statuses (handle cache).2 = [ 401%N ] ∧
  resolver_calls (handle cache).2 = 0 ∧
  forwards (handle cache).2 = [].
Proof.
  intros Hv Hh Hb.
  assert (token = None) as Hnone.
  { rewrite Hv. destruct v as [s|l]; simpl in Hh.
    - injection Hh as ->. by apply getBearerToken_blank.
    - rewrite getBearerToken_array, Hh. by apply getBearerToken_blank. }
  split; [done|].
  rewrite handle_missing by by rewrite Hnone.
  cbn [snd].
  by rewrite statuses_app, resolver_calls_app, forwards_app,
    reject_statuses, reject_calls, reject_forwards.
Qed.

End HttpFacts.

(** ** Streaming gateway: the finalization guards *)
Section GuardFacts.
Import Fx Grpc.
Context (resolve : Auth.Resolver) (endpoints : list string).
Context (URL_host : string → option string).
Context (requestId : string) (startTime : Z).

Abbreviation step := (Grpc.step resolve endpoints URL_host requestId startTime).
Abbreviation run := (Grpc.run resolve endpoints URL_host requestId startTime).

Lemma responds_app tr1 tr2 : responds (tr1 ++ tr2) = responds tr1 + responds tr2.
Proof. unfold responds. by rewrite filter_app, length_app. Qed.

Lemma ends_app tr1 tr2 : ends (tr1 ++ tr2) = ends tr1 + ends tr2.
Proof. unfold ends. by rewrite filter_app, length_app. Qed.

Lemma within_refl st : within st (st, []).
Proof. unfold within. simpl. lia. Qed.

Lemma within_trans st st1 fx1 st2 fx2 :
  within st (st1, fx1) → within st1 (st2, fx2) → within st (st2, fx1 ++ fx2).
Proof.
  unfold within. simpl. rewrite responds_app, ends_app. lia.
Qed.

(** Effects other than the two guarded calls do not count. *)
Lemma within_quiet st st' fx fx' :
  responds fx' = 0 → ends fx' = 0 →
  within st (st', fx) → within st (st', fx' ++ fx).
Proof.
  unfold within. simpl. rewrite responds_app, ends_app. lia.
Qed.

(** Leaving the guards alone leaves the budgets alone. *)
Lemma within_guards st st0 r :
  guards st0 = guards st → within st0 r → within st r.
Proof. unfold within, respond_budget, end_budget. by intros ->. Qed.

Lemma within_guards_quiet st st' fx :
  guards st' = guards st → responds fx = 0 → ends fx = 0 → within st (st', fx).
Proof.
  unfold within, respond_budget, end_budget. simpl. intros -> -> ->. lia.
Qed.

Lemma safeRespond_within throws h st :
  within st (safeRespond requestId throws h st).
Proof.
  unfold within, respond_budget, end_budget, safeRespond.
  destruct st as [[d c w] [r e] ? ? ? ? ? ? ? ?]; simpl.
  destruct r, d, c, throws; simpl; try lia; destruct e; simpl; lia.
Qed.

Lemma safeEnd_within throws st : within st (safeEnd throws st).
Proof.
  unfold within, respond_budget, end_budget, safeEnd.
  destruct st as [[d c w] [r e] ? ? ? ? ? ? ? ?]; simpl.
  destruct e, d, throws; simpl; try lia; destruct r; simpl; lia.
Qed.

Lemma finalize_within tk n st : within st (finalize requestId tk n st).
Proof.
  unfold finalize.
  pose proof (safeRespond_within (respondThrows tk) (Status n) st) as H1.
  destruct (safeRespond _ _ _ st) as [st1 fx1].
  pose proof (safeEnd_within (endThrows tk) st1) as H2.
  destruct (safeEnd _ st1) as [st2 fx2].
  by apply (within_trans _ st1).
Qed.

Lemma caught_within tk st : within st (caught requestId tk st).
Proof.
  unfold caught.
  pose proof (finalize_within tk 500 (set_phase Finished st)) as H.
  destruct (finalize _ _ _ _) as [st' fx].
  apply (within_quiet _ _ _ [ _ ]); [done..|].
  by apply (within_guards _ (set_phase Finished st)).
Qed.

Lemma authenticateToken_quiet now token cache :
  responds (Auth.authenticateToken resolve now token cache).2 = 0 ∧
  ends (Auth.authenticateToken resolve now token cache).2 = 0.
Proof.
  unfold Auth.authenticateToken.
  destruct (resolve token) as [|[res|]]; [done| |done].
  destruct (Js.truthy _); simpl; [|done].
  destruct (cache !! _) as [c|]; [|done].
  by destruct (_ <? _)%Z.
Qed.

Lemma onOpen_within tk headers streamId st :
  within st (onOpen requestId tk headers streamId st).
Proof.
  unfold onOpen. destruct (Headers.token_missing _).
  - pose proof (finalize_within tk 401
      (set_phase Unauthorized (set_authFailed (set_metadata headers st)))) as H.
    destruct (finalize _ _ _ _) as [st' fx].
    apply (within_quiet _ _ _ [ _; _ ]); [done..|].
    by eapply within_guards; [|exact H].
  - by apply within_guards_quiet.
Qed.

Lemma bridge_within tk auth target session d c k st :
  within st (bridge URL_host requestId tk auth target session d c k st).
Proof.
  unfold bridge. destruct (d || c).
  - pose proof (finalize_within tk 503 (set_phase Finished st)) as H.
    destruct (finalize _ _ _ _) as [st' fx].
    apply (within_quiet _ _ _ [ _ ]); [done..|].
    by eapply within_guards; [|exact H].
  - destruct (URL_host target); [|apply caught_within].
    by apply within_guards_quiet.
Qed.

Lemma onAuthAnswered_within tk token st :
  within st (onAuthAnswered resolve endpoints requestId tk token st).
Proof.
  unfold onAuthAnswered.
  pose proof (authenticateToken_quiet (time tk) token (authCache st)) as [Hr He].
  destruct (Auth.authenticateToken _ _ _ _) as [[auth cache] calls].
  simpl in Hr, He. destruct auth as [[auth|]|].
  - destruct (from_option _ _ _).
    + apply within_guards_quiet; [done|..];
        [rewrite responds_app|rewrite ends_app]; by rewrite ?Hr, ?He.
    + pose proof (finalize_within tk 503
        (set_phase Finished (set_teamId (Auth.teamId auth)
           (set_authCache cache st)))) as H.
      destruct (finalize _ _ _ _) as [st' fx].
      apply within_quiet; [done..|].
      apply (within_quiet _ _ _ [ _; _ ]); [done..|].
      by eapply within_guards; [|exact H].
  - pose proof (finalize_within tk 401
      (set_phase Unauthorized (set_authFailed (set_authCache cache st)))) as H.
    destruct (finalize _ _ _ _) as [st' fx].
    apply within_quiet; [done..|].
    apply (within_quiet _ _ _ [ _ ]); [done..|].
    by eapply within_guards; [|exact H].
  - pose proof (caught_within tk (set_authCache cache st)) as H.
    destruct (caught _ _ _) as [st' fx].
    apply within_quiet; [done..|].
    by eapply within_guards; [|exact H].
Qed.

Lemma onSessionSettled_within tk auth target retry r st :
  within st (onSessionSettled URL_host requestId tk auth target retry r st).
Proof.
  unfold onSessionSettled. destruct r as [session d c k|e].
  - destruct (negb retry && _); [by apply within_guards_quiet|].
    apply bridge_within.
  - pose proof (finalize_within tk 503 (set_phase Finished st)) as H.
    destruct (finalize _ _ _ _) as [st' fx].
    apply (within_quiet _ _ _ [ _ ]); [done..|].
    by eapply within_guards; [|exact H].
Qed.

Lemma dataLog_quiet failed ok st :
  responds (dataLog requestId failed ok st) = 0 ∧
  ends (dataLog requestId failed ok st) = 0.
Proof. unfold dataLog. destruct (0 <? _)%N; [|done]. by destruct (authFailed st). Qed.

Lemma onStreamEvent_within e st : within st (onStreamEvent requestId e st).
Proof.
  destruct e; try apply within_refl; simpl.
  apply within_guards_quiet; [done|apply dataLog_quiet|apply dataLog_quiet].
Qed.

Lemma onBridgeEvent_within tk auth target e st :
  within st (onBridgeEvent requestId startTime tk auth target e st).
Proof.
  unfold onBridgeEvent. destruct e; try apply within_refl.
  - (* InData *)
    apply within_guards_quiet; [done|..];
      [rewrite responds_app|rewrite ends_app];
      by destruct (dataSentToProxy _), (_ || _).
  - (* InEnd *)
    pose proof (dataLog_quiet
      "OTLP gRPC gateway: stream data received (auth failed)"
      "OTLP gRPC gateway: stream data received" st) as [Hr He].
    apply within_guards_quiet; [done|..];
      [rewrite responds_app, Hr|rewrite ends_app, He]; by destruct (_ || _).
  - (* InAborted *)
    by apply within_guards_quiet.
  - (* OutResponse *)
    destruct (_ || _); [apply within_refl|].
    match goal with |- context [safeRespond _ ?t ?h ?s] =>
      pose proof (safeRespond_within t h s) as H;
      destruct (safeRespond _ t h s) as [st' fx] end.
    apply (within_quiet _ _ _ [ _ ]); [done..|].
    by eapply within_guards; [|exact H].
  - (* OutData *)
    destruct (_ || _); [apply within_refl|].
    apply within_guards_quiet; [done|..];
      [rewrite responds_app|rewrite ends_app];
      by destruct (dataReceivedFromProxy _), (_ || _).
  - (* OutReadableEnd *)
    destruct (_ || _ || _); [apply within_refl|].
    by apply within_guards_quiet.
  - (* OutError *)
    match goal with |- context [finalize _ tk 502 ?s] =>
      pose proof (finalize_within tk 502 s) as H;
      destruct (finalize _ tk 502 s) as [st' fx] end.
    apply (within_quiet _ _ _ [ _ ]); [done..|].
    by eapply within_guards; [|exact H].
  - (* OutClose *)
    match goal with |- context [safeEnd ?t ?s] =>
      pose proof (safeEnd_within t s) as H;
      destruct (safeEnd t s) as [st' fx] end.
    apply (within_quiet _ _ _ [ _ ]); [done..|].
    by eapply within_guards; [|exact H].
  - (* SessionFailed *)
    destruct (sessionListener _); [|apply within_refl].
    destruct (_ || _); by apply within_guards_quiet.
Qed.

Lemma step_within tk st : within st (step tk st).
Proof.
  unfold Grpc.step.
  destruct (phase st), (event tk);
    first [ apply within_refl | apply onOpen_within
          | apply onStreamEvent_within | apply onAuthAnswered_within
          | apply onSessionSettled_within | apply onBridgeEvent_within
          | by apply within_guards_quiet ].
Qed.

Lemma run_within tks st : within st (run tks st).
Proof.
  revert st; induction tks as [|tk tks IH]; intros st; simpl.
  - apply within_refl.
  - pose proof (step_within tk st) as H1.
    destruct (step tk st) as [st1 fx1].
    pose proof (IH st1) as H2.
    destruct (run tks st1) as [st2 fx2].
    by apply (within_trans _ st1).
Qed.


End GuardFacts.

(** ** Streaming gateway: the end of the stream that the guard misses *)
Section Completion.
Import Fx Grpc.
Context (resolve : Auth.Resolver) (endpoints : list string).
Context (URL_host : string → option string).
Context (requestId : string) (startTime : Z).

Abbreviation step := (Grpc.step resolve endpoints URL_host requestId startTime).
Abbreviation run := (Grpc.run resolve endpoints URL_host requestId startTime).

Lemma pipe_ends_app tr1 tr2 : pipe_ends (tr1 ++ tr2) = pipe_ends tr1 + pipe_ends tr2.
Proof. unfold pipe_ends. by rewrite filter_app, length_app. Qed.

Lemma end_calls_split tr : end_calls tr = ends tr + pipe_ends tr.
Proof.
  unfold end_calls, ends, pipe_ends. induction tr as [|e tr IH]; [done|].
  destruct e; rewrite ?filter_cons_True, ?filter_cons_False by done; simpl; lia.
Qed.

Lemma safeRespond_pipe throws h st :
  pipe_ends (safeRespond requestId throws h st).2 = 0 ∧
  pipe_budget (safeRespond requestId throws h st).1 = pipe_budget st.
Proof.
  unfold safeRespond. destruct (negb _ && negb _ && negb _); [|done].
  by destruct throws.
Qed.

Lemma safeEnd_pipe throws st :
  pipe_ends (safeEnd throws st).2 = 0 ∧
  pipe_budget (safeEnd throws st).1 ≤ pipe_budget st.
Proof.
  unfold safeEnd. destruct (negb _ && negb _); [|done].
  destruct throws; [done|]. unfold pipe_budget. simpl.
  split; [done|]. destruct (writableEnded _); lia.
Qed.

Lemma finalize_pipe tk n st :
  pipe_ends (finalize requestId tk n st).2 = 0 ∧
  pipe_budget (finalize requestId tk n st).1 ≤ pipe_budget st.
Proof.
  unfold finalize.
  pose proof (safeRespond_pipe (respondThrows tk) (Status n) st) as [H1 H2].
  destruct (safeRespond _ _ _ st) as [st1 fx1].
  pose proof (safeEnd_pipe (endThrows tk) st1) as [H3 H4].
  destruct (safeEnd _ st1) as [st2 fx2]. cbn [fst snd] in *.
  rewrite pipe_ends_app. lia.
Qed.

Lemma dataLog_pipe failed ok st : pipe_ends (dataLog requestId failed ok st) = 0.
Proof. unfold dataLog. destruct (0 <? _)%N; [|done]. by destruct (authFailed st). Qed.


Lemma piped_refl st : piped st (st, []).
Proof. unfold piped. simpl. lia. Qed.

Lemma piped_trans st st1 fx1 st2 fx2 :
  piped st (st1, fx1) → piped st1 (st2, fx2) → piped st (st2, fx1 ++ fx2).
Proof. unfold piped. simpl. rewrite pipe_ends_app. lia. Qed.

Lemma piped_quiet st st' fx fx' :
  pipe_ends fx' = 0 → piped st (st', fx) → piped st (st', fx' ++ fx).
Proof. unfold piped. simpl. rewrite pipe_ends_app. lia. Qed.

Lemma piped_inbound st st0 r :
  inbound st0 = inbound st → piped st0 r → piped st r.
Proof. unfold piped, pipe_budget. by intros ->. Qed.

Lemma piped_inbound_quiet st st' fx :
  inbound st' = inbound st → pipe_ends fx = 0 → piped st (st', fx).
Proof. unfold piped, pipe_budget. simpl. intros -> ->. lia. Qed.

(** The writable side of the inbound stream, once ended, stays ended. *)
Lemma piped_ended st st' fx :
  writableEnded (inbound st') = true → pipe_ends fx = 0 → piped st (st', fx).
Proof. unfold piped, pipe_budget. simpl. intros -> ->. lia. Qed.

Lemma safeRespond_piped throws h st : piped st (safeRespond requestId throws h st).
Proof.
  unfold safeRespond. destruct (negb _ && negb _ && negb _); [|apply piped_refl].
  destruct throws; by apply piped_inbound_quiet.
Qed.

Lemma safeEnd_piped throws st : piped st (safeEnd throws st).
Proof.
  unfold safeEnd. destruct (negb _ && negb _); [|apply piped_refl].
  destruct throws; [apply piped_refl|]. by apply piped_ended.
Qed.

Lemma finalize_piped tk n st : piped st (finalize requestId tk n st).
Proof.
  unfold finalize.
  pose proof (safeRespond_piped (respondThrows tk) (Status n) st) as H1.
  destruct (safeRespond _ _ _ st) as [st1 fx1].
  pose proof (safeEnd_piped (endThrows tk) st1) as H2.
  destruct (safeEnd _ st1) as [st2 fx2].
  by apply (piped_trans _ st1).
Qed.

Lemma caught_piped tk st : piped st (caught requestId tk st).
Proof.
  unfold caught.
  pose proof (finalize_piped tk 500 (set_phase Finished st)) as H.
  destruct (finalize _ _ _ _) as [st' fx].
  apply (piped_quiet _ _ _ [ _ ]); [done|].
  by apply (piped_inbound _ (set_phase Finished st)).
Qed.

Lemma authenticateToken_unpiped now token cache :
  pipe_ends (Auth.authenticateToken resolve now token cache).2 = 0.
Proof.
  unfold Auth.authenticateToken.
  destruct (resolve token) as [|[res|]]; [done| |done].
  destruct (Js.truthy _); simpl; [|done].
  destruct (cache !! _) as [c|]; [|done].
  by destruct (_ <? _)%Z.
Qed.

Lemma onOpen_piped tk headers streamId st :
  piped st (onOpen requestId tk headers streamId st).
Proof.
  unfold onOpen. destruct (Headers.token_missing _).
  - pose proof (finalize_piped tk 401
      (set_phase Unauthorized (set_authFailed (set_metadata headers st)))) as H.
    destruct (finalize _ _ _ _) as [st' fx].
    apply (piped_quiet _ _ _ [ _; _ ]); [done|].
    by eapply piped_inbound; [|exact H].
  - by apply piped_inbound_quiet.
Qed.

Lemma bridge_piped tk auth target session d c k st :
  piped st (bridge URL_host requestId tk auth target session d c k st).
Proof.
  unfold bridge. destruct (d || c).
  - pose proof (finalize_piped tk 503 (set_phase Finished st)) as H.
    destruct (finalize _ _ _ _) as [st' fx].
    apply (piped_quiet _ _ _ [ _ ]); [done|].
    by eapply piped_inbound; [|exact H].
  - destruct (URL_host target); [|apply caught_piped].
    by apply piped_inbound_quiet.
Qed.

Lemma onAuthAnswered_piped tk token st :
  piped st (onAuthAnswered resolve endpoints requestId tk token st).
Proof.
  unfold onAuthAnswered.
  pose proof (authenticateToken_unpiped (time tk) token (authCache st)) as Hq.
  destruct (Auth.authenticateToken _ _ _ _) as [[auth cache] calls].
  simpl in Hq. destruct auth as [[auth|]|].
  - destruct (from_option _ _ _).
    + apply piped_inbound_quiet; [done|]. by rewrite pipe_ends_app, Hq.
    + pose proof (finalize_piped tk 503
        (set_phase Finished (set_teamId (Auth.teamId auth)
           (set_authCache cache st)))) as H.
      destruct (finalize _ _ _ _) as [st' fx].
      apply piped_quiet; [done|].
      apply (piped_quiet _ _ _ [ _; _ ]); [done|].
      by eapply piped_inbound; [|exact H].
  - pose proof (finalize_piped tk 401
      (set_phase Unauthorized (set_authFailed (set_authCache cache st)))) as H.
    destruct (finalize _ _ _ _) as [st' fx].
    apply piped_quiet; [done|].
    apply (piped_quiet _ _ _ [ _ ]); [done|].
    by eapply piped_inbound; [|exact H].
  - pose proof (caught_piped tk (set_authCache cache st)) as H.
    destruct (caught _ _ _) as [st' fx].
    apply piped_quiet; [done|].
    by eapply piped_inbound; [|exact H].
Qed.

Lemma onSessionSettled_piped tk auth target retry r st :
  piped st (onSessionSettled URL_host requestId tk auth target retry r st).
Proof.
  unfold onSessionSettled. destruct r as [session d c k|e].
  - destruct (negb retry && _); [by apply piped_inbound_quiet|].
    apply bridge_piped.
  - pose proof (finalize_piped tk 503 (set_phase Finished st)) as H.
    destruct (finalize _ _ _ _) as [st' fx].
    apply (piped_quiet _ _ _ [ _ ]); [done|].
    by eapply piped_inbound; [|exact H].
Qed.

Lemma onStreamEvent_piped e st : piped st (onStreamEvent requestId e st).
Proof.
  destruct e; try apply piped_refl; simpl.
  unfold piped, pipe_budget. simpl. rewrite dataLog_pipe. lia.
Qed.

Lemma onBridgeEvent_piped tk auth target e st :
  piped st (onBridgeEvent requestId startTime tk auth target e st).
Proof.
  unfold onBridgeEvent. destruct e; try apply piped_refl.
  - (* InData *)
    apply piped_inbound_quiet; [done|]. rewrite pipe_ends_app.
    by destruct (dataSentToProxy _), (_ || _).
  - (* InEnd *)
    apply piped_inbound_quiet; [done|]. rewrite pipe_ends_app, dataLog_pipe.
    by destruct (_ || _).
  - (* InAborted *)
    by apply piped_ended.
  - (* OutResponse *)
    destruct (_ || _); [apply piped_refl|].
    match goal with |- context [safeRespond _ ?t ?h ?s] =>
      pose proof (safeRespond_piped t h s) as H;
      destruct (safeRespond _ t h s) as [st' fx] end.
    apply (piped_quiet _ _ _ [ _ ]); [done|].
    by eapply piped_inbound; [|exact H].
  - (* OutData *)
    destruct (_ || _); [apply piped_refl|].
    apply piped_inbound_quiet; [done|]. rewrite pipe_ends_app.
    by destruct (dataReceivedFromProxy _), (_ || _).
  - (* OutReadableEnd *)
    destruct (out_destroyed _ || out_closed _); cbn [orb]; [apply piped_refl|].
    destruct (destroyed _); cbn [orb]; [apply piped_refl|].
    destruct (writableEnded (inbound st)) eqn:Hw; [apply piped_refl|].
    unfold piped, pipe_budget. simpl. rewrite Hw. done.
  - (* OutError *)
    match goal with |- context [finalize _ tk 502 ?s] =>
      pose proof (finalize_piped tk 502 s) as H;
      destruct (finalize _ tk 502 s) as [st' fx] end.
    apply (piped_quiet _ _ _ [ _ ]); [done|].
    by eapply piped_inbound; [|exact H].
  - (* OutClose *)
    match goal with |- context [safeEnd ?t ?s] =>
      pose proof (safeEnd_piped t s) as H;
      destruct (safeEnd t s) as [st' fx] end.
    apply (piped_quiet _ _ _ [ _ ]); [done|].
    by eapply piped_inbound; [|exact H].
  - (* SessionFailed *)
    destruct (sessionListener _); [|apply piped_refl].
    destruct (_ || _); by apply piped_inbound_quiet.
Qed.

Lemma step_piped tk st : piped st (step tk st).
Proof.
  unfold Grpc.step.
  destruct (phase st), (event tk);
    first [ apply piped_refl | apply onOpen_piped
          | apply onStreamEvent_piped | apply onAuthAnswered_piped
          | apply onSessionSettled_piped | apply onBridgeEvent_piped
          | by apply piped_inbound_quiet ].
Qed.

Lemma run_piped tks st : piped st (run tks st).
Proof.
  revert st; induction tks as [|tk tks IH]; intros st; simpl.
  - apply piped_refl.
  - pose proof (step_piped tk st) as H1.
    destruct (step tk st) as [st1 fx1].
    pose proof (IH st1) as H2.
    destruct (run tks st1) as [st2 fx2].
    by apply (piped_trans _ st1).
Qed.

(** C6, at the input where the code departs from it.  [safeRespond] and
    [safeEnd] are guarded by two flags, so that over any sequence of
    events, with [stream.respond] and [stream.end] free to throw at any
    delivery, a status is sent at most once and [safeEnd] ends the stream
    at most once.  But [proxyStream.pipe(stream)] ends the inbound stream
    as well, on ['end'] of the outbound stream, and that call does not
    set [streamEnded]: when the outbound stream of a bridge ends and then
    closes, as it does after every response of the shard, the ['close']
    listener calls [stream.end()] a second time.  So [stream.end()] is
    called twice on the stream, and over any sequence of events at most
    twice. *)
Theorem pipe_end_escapes_guard
    (st : State) (tk1 tk2 : Tick) (tks : list Tick)
    (cache : gmap string Auth.CachedAuth) :
  (responds (run tks (init cache)).2 ≤ 1 ∧
   ends (run tks (init cache)).2 ≤ 1 ∧
   end_calls (run tks (init cache)).2 ≤ 2) ∧
  (bridging st →
   out_gone st = false →
   destroyed (inbound st) = false →
   writableEnded (inbound st) = false →
   streamEnded (guards st) = false →
   event tk1 = OutReadableEnd →
   event tk2 = OutClose →
   endThrows tk2 = false →
     streamEnded (guards (step tk1 st).1) = false ∧
     (step tk1 st).2 = [ StreamEndByPipe ] ∧
     StreamEnd ∈ (step tk2 (step tk1 st).1).2 ∧
     end_calls (run [ tk1; tk2 ] st).2 = 2).
Proof.
  split.
  - pose proof (run_within resolve endpoints URL_host requestId startTime
                  tks (init cache)) as [H1 H2].
    pose proof (run_piped tks (init cache)) as H3.
    unfold respond_budget, end_budget in H1, H2. unfold piped, pipe_budget in H3.
    simpl in H1, H2, H3. rewrite end_calls_split. split_and!; lia.
  - intros (auth & target & session & Hp) Hg Hd Hw He H1 H2 Ht.
    apply orb_false_iff in Hg as [Hod Hoc].
    assert (step tk1 st
            = (set_inbound {| destroyed := destroyed (inbound st);
                              closed := closed (inbound st);
                              writableEnded := true |} st,
               [ StreamEndByPipe ])) as Hs1.
    { unfold Grpc.step. rewrite Hp, H1. unfold onBridgeEvent.
      by rewrite Hod, Hoc, Hd, Hw. }
    cbn [Grpc.run]. rewrite Hs1. cbn [fst snd].
    unfold Grpc.step. cbn [phase set_inbound]. rewrite Hp, H2.
    unfold onBridgeEvent, safeEnd. cbn. rewrite He, Hd, Ht. cbn.
    split_and!; [done|done| |done].
    apply elem_of_cons; right. by apply elem_of_cons; left.
Qed.

End Completion.


(** ** Streaming gateway: rejected streams *)
Section RejectFacts.
Import Fx Grpc.
Context (resolve : Auth.Resolver) (endpoints : list string).
Context (URL_host : string → option string).
Context (requestId : string) (startTime : Z).

Abbreviation step := (Grpc.step resolve endpoints URL_host requestId startTime).
Abbreviation run := (Grpc.run resolve endpoints URL_host requestId startTime).

Lemma turned_away_early_weaken tr :
  forallb turned_away_early tr = true → forallb turned_away tr = true.
Proof.
  induction tr as [|e tr IH]; simpl; [done|].
  unfold turned_away_early at 1.
  intros [[-> _]%andb_true_iff ?]%andb_true_iff. auto.
Qed.

Lemma turned_away_early_calls tr :
  forallb turned_away_early tr = true → resolver_calls tr = 0.
Proof.
  induction tr as [|e tr IH]; simpl; [done|].
  unfold turned_away_early at 1.
  intros [[_ He]%andb_true_iff ?]%andb_true_iff.
  unfold resolver_calls in *. rewrite filter_cons.
  destruct (decide (is_resolver_call e = true)) as [Hc|]; [|auto].
  by rewrite Hc in He.
Qed.

(** [safeRespond] and [safeEnd] touch the guards and nothing else that
    the listener branches on. *)
Lemma safeRespond_frame throws h st :
  phase (safeRespond requestId throws h st).1 = phase st ∧
  outbound (safeRespond requestId throws h st).1 = outbound st ∧
  inbound (safeRespond requestId throws h st).1 = inbound st ∧
  streamEnded (guards (safeRespond requestId throws h st).1)
    = streamEnded (guards st).
Proof.
  unfold safeRespond.
  destruct (negb _ && negb _ && negb _); [|done]. by destruct throws.
Qed.

Lemma safeEnd_frame throws st :
  phase (safeEnd throws st).1 = phase st ∧
  outbound (safeEnd throws st).1 = outbound st ∧
  destroyed (inbound (safeEnd throws st).1) = destroyed (inbound st).
Proof.
  unfold safeEnd. destruct (negb _ && negb _); [|done]. by destruct throws.
Qed.

Lemma finalize_frame tk n st :
  phase (finalize requestId tk n st).1 = phase st ∧
  outbound (finalize requestId tk n st).1 = outbound st ∧
  destroyed (inbound (finalize requestId tk n st).1) = destroyed (inbound st).
Proof.
  unfold finalize.
  pose proof (safeRespond_frame (respondThrows tk) (Status n) st)
    as (H1 & H2 & H3 & _).
  destruct (safeRespond _ _ _ st) as [st1 fx1].
  pose proof (safeEnd_frame (endThrows tk) st1) as (H4 & H5 & H6).
  destruct (safeEnd _ st1) as [st2 fx2]. simpl in *.
  split_and!; congruence.
Qed.

Lemma finalize_turned_away tk st :
  forallb turned_away_early (finalize requestId tk 401 st).2 = true.
Proof.
  unfold finalize, safeRespond, safeEnd.
  destruct st as [[d c w] [r e] ? ? ? ? ? ? ? ?]; simpl.
  by destruct r, d, c, e, (respondThrows tk), (endThrows tk).
Qed.

(** On a stream that is live and has not been answered, with
    [stream.respond] working, [finalize] sends its status. *)
Lemma finalize_sends tk n st :
  streamResponded (guards st) = false →
  destroyed (inbound st) = false → closed (inbound st) = false →
  respondThrows tk = false →
  statuses (finalize requestId tk n st).2 = [ n ] ∧
  forwards (finalize requestId tk n st).2 = [].
Proof.
  unfold finalize, safeRespond, safeEnd.
  destruct st as [[d c w] [r e] ? ? ? ? ? ? ? ?]; simpl.
  intros -> -> -> ->. by destruct e, (endThrows tk).
Qed.

Lemma dataLog_turned_away failed ok st :
  forallb turned_away_early (dataLog requestId failed ok st) = true.
Proof. unfold dataLog. destruct (0 <? _)%N; [|done]. by destruct (authFailed st). Qed.

Lemma step_unauthorized tk st :
  phase st = Unauthorized →
  phase (step tk st).1 = Unauthorized ∧
  forallb turned_away_early (step tk st).2 = true.
Proof.
  intros Hp. unfold Grpc.step. rewrite Hp.
  destruct (event tk); try done; simpl; split; try done.
  apply dataLog_turned_away.
Qed.

Lemma run_unauthorized tks st :
  phase st = Unauthorized →
  forallb turned_away_early (run tks st).2 = true.
Proof.
  revert st; induction tks as [|tk tks IH]; intros st Hp; simpl; [done|].
  pose proof (step_unauthorized tk st Hp) as [H1 H2].
  destruct (step tk st) as [st1 fx1].
  pose proof (IH st1 H1) as H3.
  destruct (run tks st1) as [st2 fx2]. by apply forallb_app_true.
Qed.

Lemma onAuthAnswered_unresolved tk t st :
  resolve t = Auth.Fulfilled None →
  phase (onAuthAnswered resolve endpoints requestId tk t st).1 = Unauthorized ∧
  forallb turned_away (onAuthAnswered resolve endpoints requestId tk t st).2
    = true.
Proof.
  intros Hr. unfold onAuthAnswered, Auth.authenticateToken. rewrite Hr.
  match goal with |- context [finalize _ tk 401 ?s] =>
    pose proof (finalize_frame tk 401 s) as (H1 & _);
    pose proof (finalize_turned_away tk s) as H2;
    destruct (finalize _ tk 401 s) as [st' fx] end.
  simpl in *. split; [done|]. by apply turned_away_early_weaken.
Qed.

Lemma run_awaiting tks t st :
  phase st = AwaitAuth t → resolve t = Auth.Fulfilled None →
  forallb turned_away (run tks st).2 = true.
Proof.
  revert st; induction tks as [|tk tks IH]; intros st Hp Hr; simpl; [done|].
  unfold Grpc.step. rewrite Hp.
  destruct (event tk) eqn:He;
    try (specialize (IH st Hp Hr); destruct (run tks st) as [st2 fx2]; done).
  - (* the resolver answers *)
    pose proof (onAuthAnswered_unresolved tk t st Hr) as [H1 H2].
    destruct (onAuthAnswered _ _ _ _ _ _) as [st1 fx1].
    pose proof (run_unauthorized tks st1 H1) as H3%turned_away_early_weaken.
    destruct (run tks st1) as [st2 fx2]. by apply forallb_app_true.
  - (* ['error'] of the stream *)
    simpl. specialize (IH st Hp Hr). by destruct (run tks st) as [st2 fx2].
  - (* ['close'] of the stream *)
    simpl.
    match goal with |- context [Grpc.run _ _ _ _ _ tks ?s] =>
      specialize (IH s Hp Hr); destruct (Grpc.run _ _ _ _ _ tks s) as [st2 fx2] end.
    apply forallb_app_true; [|done].
    apply turned_away_early_weaken, dataLog_turned_away.
Qed.

Lemma onOpen_missing tk headers streamId st :
  Headers.token_missing
    (Headers.getBearerToken (Headers.getAuthHeader headers)) = true →
  phase (onOpen requestId tk headers streamId st).1 = Unauthorized ∧
  forallb turned_away_early (onOpen requestId tk headers streamId st).2 = true.
Proof.
  intros Hm. unfold onOpen. rewrite Hm.
  match goal with |- context [finalize _ tk 401 ?s] =>
    pose proof (finalize_frame tk 401 s) as (H1 & _);
    pose proof (finalize_turned_away tk s) as H2;
    destruct (finalize _ tk 401 s) as [st' fx] end.
  by simpl in *.
Qed.

(** A stream without a usable token, or whose token the resolver does
    not know: whatever happens on it afterwards, nothing goes to a shard,
    no session is asked for and no status other than 401 is sent. *)
Lemma stream_unauthenticated tk tks headers streamId cache :
  event tk = Open headers streamId →
  unauthenticated resolve headers →
  forallb turned_away (run (tk :: tks) (init cache)).2 = true.
Proof.
  intros He Hu. simpl. unfold Grpc.step. rewrite He. simpl.
  destruct (Headers.token_missing
              (Headers.getBearerToken (Headers.getAuthHeader headers))) eqn:Hm.
  - pose proof (onOpen_missing tk headers streamId (init cache) Hm) as [H1 H2].
    destruct (onOpen _ _ _ _ _) as [st1 fx1].
    pose proof (run_unauthorized tks st1 H1) as H3.
    destruct (run tks st1) as [st2 fx2].
    by apply forallb_app_true; apply turned_away_early_weaken.
  - destruct Hu as [Hu|(t & Ht & Hr)]; [congruence|].
    unfold onOpen. rewrite Hm, Ht. simpl.
    match goal with |- context [Grpc.run _ _ _ _ _ tks ?s] =>
      pose proof (run_awaiting tks t s eq_refl Hr) as H;
      destruct (Grpc.run _ _ _ _ _ tks s) as [st2 fx2] end.
    done.
Qed.

Lemma stream_missing tk tks headers streamId cache :
  event tk = Open headers streamId →
  Headers.token_missing
    (Headers.getBearerToken (Headers.getAuthHeader headers)) = true →
  resolver_calls (run (tk :: tks) (init cache)).2 = 0.
Proof.
  intros He Hm. simpl. unfold Grpc.step. rewrite He. simpl.
  pose proof (onOpen_missing tk headers streamId (init cache) Hm) as [H1 H2].
  destruct (onOpen _ _ _ _ _) as [st1 fx1].
  pose proof (run_unauthorized tks st1 H1) as H3.
  destruct (run tks st1) as [st2 fx2].
  by apply turned_away_early_calls, forallb_app_true.
Qed.

Lemma stream_absent tk tks headers streamId cache :
  event tk = Open headers streamId →
  no_authorization headers →
  resolver_calls (run (tk :: tks) (init cache)).2 = 0.
Proof.
  intros He Hno%getAuthHeader_absent.
  apply (stream_missing _ _ headers streamId); [done|]. by rewrite Hno.
Qed.

Lemma stream_missing_401 tk headers streamId cache :
  event tk = Open headers streamId → respondThrows tk = false →
  Headers.token_missing
    (Headers.getBearerToken (Headers.getAuthHeader headers)) = true →
  statuses (step tk (init cache)).2 = [ 401%N ].
Proof.
  intros He Hr Hm. unfold Grpc.step. rewrite He. simpl.
  unfold onOpen. rewrite Hm.
  match goal with |- context [finalize _ tk 401 ?s] =>
    pose proof (finalize_sends tk 401 s eq_refl eq_refl eq_refl Hr) as [H1 _];
    destruct (finalize _ tk 401 s) as [st1 fx1] end.
  simpl in *. by rewrite H1.
Qed.

(** When the stream stays open and [stream.respond] works, the 401 is
    sent: at once for a missing token, and when the resolver answers
    for an unknown one. *)
Lemma stream_unauthenticated_401 tk0 tk1 headers streamId cache :
  event tk0 = Open headers streamId → respondThrows tk0 = false →
  event tk1 = AuthAnswered → respondThrows tk1 = false →
  unauthenticated resolve headers →
  statuses (run [ tk0; tk1 ] (init cache)).2 = [ 401%N ].
Proof.
  intros He0 Hr0 He1 Hr1 Hu. simpl. unfold Grpc.step at 1. rewrite He0. simpl.
  destruct (Headers.token_missing
              (Headers.getBearerToken (Headers.getAuthHeader headers))) eqn:Hm.
  - unfold onOpen. rewrite Hm.
    match goal with |- context [finalize _ tk0 401 ?s] =>
      pose proof (finalize_sends tk0 401 s eq_refl eq_refl eq_refl Hr0) as [H1 _];
      pose proof (finalize_frame tk0 401 s) as (H2 & _);
      destruct (finalize _ tk0 401 s) as [st1 fx1] end.
    simpl in *. unfold Grpc.step. rewrite H2, He1. simpl.
    by rewrite app_nil_r, H1.
  - destruct Hu as [Hu|(t & Ht & Hr)]; [congruence|].
    unfold onOpen. rewrite Hm, Ht. simpl.
    unfold Grpc.step. simpl. rewrite He1.
    unfold onAuthAnswered, Auth.authenticateToken. rewrite Hr.
    match goal with |- context [finalize _ tk1 401 ?s] =>
      pose proof (finalize_sends tk1 401 s eq_refl eq_refl eq_refl Hr1) as [H1 _];
      destruct (finalize _ tk1 401 s) as [st1 fx1] end.
    simpl in *. by rewrite app_nil_r, H1.
Qed.

End RejectFacts.

(** ** Rejection of unauthenticated traffic *)
Section Rejection.
Import Fx.
Context (URL1 : string → option Http.Url) (URL2 : string → Http.Url → option Http.Url).
Context (resolve : Auth.Resolver).
Context (httpEndpoints grpcEndpoints : list string).
Context (clk : Http.Clock) (up : Http.Upstream) (req : Http.Request).
Context (URL_host : string → option string).
Context (requestId : string) (startTime : Z).
Context (cache : gmap string Auth.CachedAuth).

Abbreviation handle := (Http.handle URL1 URL2 resolve httpEndpoints clk up req).
Abbreviation run := (Grpc.run resolve grpcEndpoints URL_host requestId startTime).
Abbreviation step := (Grpc.step resolve grpcEndpoints URL_host requestId startTime).

(** C3.  A request or stream whose bearer token is missing, or is not
    known to the resolver, is answered with 401 and nothing of it is
    sent to a shard; without any Authorization header the resolver is
    not called.  For a request the status is written once the body has
    been drained.  For a stream, no later event makes the listener send
    another status, forward anything or ask for a session; the 401
    itself is sent when the stream is still open and [stream.respond]
    does not throw. *)
Theorem unauthenticated_gets_401
    (headers : Headers.t) (streamId : Z) (tk0 tk1 : Grpc.Tick)
    (tks : list Grpc.Tick) :
  (unauthenticated resolve (Http.req_headers req) →
     statuses (handle cache).2 = [ 401%N ] ∧ forwards (handle cache).2 = []) ∧
  (no_authorization (Http.req_headers req) →
     statuses (handle cache).2 = [ 401%N ] ∧
     resolver_calls (handle cache).2 = 0) ∧
  (Grpc.event tk0 = Grpc.Open headers streamId →
   unauthenticated resolve headers →
     forwards (run (tk0 :: tks) (Grpc.init cache)).2 = [] ∧
     (∀ n, n ∈ statuses (run (tk0 :: tks) (Grpc.init cache)).2 → n = 401%N) ∧
     (∀ t, GetClientSession t ∉ (run (tk0 :: tks) (Grpc.init cache)).2) ∧
     (Grpc.respondThrows tk0 = false →
      Grpc.event tk1 = Grpc.AuthAnswered → Grpc.respondThrows tk1 = false →
      statuses (run [ tk0; tk1 ] (Grpc.init cache)).2 = [ 401%N ])) ∧
  (Grpc.event tk0 = Grpc.Open headers streamId →
   no_authorization headers →
     resolver_calls (run (tk0 :: tks) (Grpc.init cache)).2 = 0).
Proof.
  split_and!.
  - intros Hu. by apply handle_unauthenticated.
  - apply handle_absent.
  - intros He Hu.
    pose proof (stream_unauthenticated resolve grpcEndpoints URL_host
                  requestId startTime tk0 tks headers streamId cache He Hu) as H.
    split_and!.
    + by apply turned_away_forwards.
    + intros n. by apply turned_away_statuses.
    + intros t. by apply turned_away_acquires.
    + intros. by apply (stream_unauthenticated_401 _ _ _ _ _ _ _ headers streamId).
  - intros. by apply (stream_absent _ _ _ _ _ _ _ headers streamId).
Qed.

(** C10.  An Authorization value that is empty or all white space
    yields no token, and of an array value only the first element is
    looked at; the request or stream then takes the missing-token
    branch: 401, no resolver call, nothing forwarded. *)
Theorem blank_authorization_rejected
    (v : Headers.HeaderValue) (h : string)
    (headers : Headers.t) (streamId : Z) (tk : Grpc.Tick)
    (tks : list Grpc.Tick) :
  first_value v = Some h →
  Js.all Js.is_space h = true →
  Headers.getBearerToken (Some v) = None ∧
  (∀ l, Headers.getBearerToken (Some (Headers.HArr l))
        = Headers.getBearerToken (Headers.HStr <$> head l)) ∧
  (Headers.getAuthHeader (Http.req_headers req) = Some v →
     statuses (handle cache).2 = [ 401%N ] ∧
     resolver_calls (handle cache).2 = 0 ∧
     forwards (handle cache).2 = []) ∧
  (Grpc.event tk = Grpc.Open headers streamId →
   Headers.getAuthHeader headers = Some v →
     resolver_calls (run (tk :: tks) (Grpc.init cache)).2 = 0 ∧
     forwards (run (tk :: tks) (Grpc.init cache)).2 = [] ∧
     (∀ n, n ∈ statuses (run (tk :: tks) (Grpc.init cache)).2 → n = 401%N) ∧
     (Grpc.respondThrows tk = false →
      statuses (step tk (Grpc.init cache)).2 = [ 401%N ])).
Proof.
  intros Hh Hb.
  assert (Headers.getBearerToken (Some v) = None) as Hnone.
  { destruct v as [s|l]; simpl in Hh.
    - injection Hh as ->. by apply getBearerToken_blank.
    - rewrite getBearerToken_array, Hh. by apply getBearerToken_blank. }
  split_and!; [done|apply getBearerToken_array|..].
  - intros Hv. by apply (handle_blank _ _ _ _ _ _ _ _ v h).
  - intros He Hv.
    assert (Headers.token_missing
              (Headers.getBearerToken (Headers.getAuthHeader headers)) = true)
      as Hm by by rewrite Hv, Hnone.
    pose proof (stream_unauthenticated resolve grpcEndpoints URL_host
                  requestId startTime tk tks headers streamId cache He
                  (or_introl Hm)) as H.
    split_and!.
    + by apply (stream_missing _ _ _ _ _ _ _ headers streamId).
    + by apply turned_away_forwards.
    + intros n. by apply turned_away_statuses.
    + intros Hr. by apply (stream_missing_401 _ _ _ _ _ _ headers streamId).
Qed.

End Rejection.

(** ** Streaming gateway: the bridge *)
Section BridgeFacts.
Import Fx Grpc.
Context (resolve : Auth.Resolver) (endpoints : list string).
Context (URL_host : string → option string).
Context (requestId : string) (startTime : Z).

Abbreviation step := (Grpc.step resolve endpoints URL_host requestId startTime).
Abbreviation run := (Grpc.run resolve endpoints URL_host requestId startTime).

Ltac open_state st :=
  destruct st as [[d c w] [r e] cnt [od oc sl] [ds rr dr] af tid md ph ac];
  unfold bridging, out_gone, in_finalized in *; simpl in *.

Ltac by_cases :=
  unfold onBridgeEvent, onStreamEvent, finalize, safeRespond, safeEnd,
    destroyOut, dataLog, out_gone, in_finalized, bridging;
  simpl; repeat case_match; simplify_eq/=; eauto.

Lemma relayed_app tr1 tr2 : relayed (tr1 ++ tr2) = relayed tr1 ++ relayed tr2.
Proof. apply filter_app. Qed.

(** The bridge stays installed. *)
Lemma step_bridging tk st : bridging st → bridging (step tk st).1.
Proof.
  intros (auth & target & session & Hp). open_state st. subst ph.
  unfold Grpc.step. simpl. destruct (event tk); by_cases.
Qed.

(** Once [proxyStream] is gone it stays gone, and no payload crosses
    the bridge any more. *)
Lemma step_gone tk st :
  bridging st → out_gone st = true →
  out_gone (step tk st).1 = true ∧ relayed (step tk st).2 = [].
Proof.
  intros (auth & target & session & Hp) Hg. open_state st. subst ph.
  unfold Grpc.step. simpl. destruct (event tk); by_cases.
Qed.

Lemma run_gone tks st :
  bridging st → out_gone st = true →
  out_gone (run tks st).1 = true ∧ relayed (run tks st).2 = [].
Proof.
  revert st; induction tks as [|tk tks IH]; intros st Hb Hg; simpl; [done|].
  pose proof (step_bridging tk st Hb) as Hb1.
  pose proof (step_gone tk st Hb Hg) as [Hg1 Hr1].
  destruct (step tk st) as [st1 fx1].
  pose proof (IH st1 Hb1 Hg1) as [Hg2 Hr2].
  destruct (run tks st1) as [st2 fx2]. simpl in *.
  by rewrite relayed_app, Hr1, Hr2.
Qed.

(** ['aborted'] of the inbound stream destroys [proxyStream]. *)
Lemma step_aborted tk st :
  bridging st → event tk = InAborted →
  out_gone (step tk st).1 = true ∧
  OutDestroy ∈ (step tk st).2 ∧
  relayed (step tk st).2 = [].
Proof.
  intros (auth & target & session & Hp) He. open_state st. subst ph.
  unfold Grpc.step. simpl. rewrite He. simpl.
  split_and!; [done| |done]. set_solver.
Qed.

(** ['close'] of [proxyStream] finalizes the inbound stream: it is ended
    there and then, unless it was ended or destroyed before. *)
Lemma step_closed tk st :
  bridging st → event tk = OutClose → endThrows tk = false →
  in_finalized (step tk st).1 = true ∧
  (in_finalized st = false → StreamEnd ∈ (step tk st).2) ∧
  out_gone (step tk st).1 = true ∧
  relayed (step tk st).2 = [].
Proof.
  intros (auth & target & session & Hp) He Ht. open_state st. subst ph.
  unfold Grpc.step. simpl. rewrite He. simpl.
  unfold safeEnd, in_finalized. simpl. rewrite Ht.
  destruct e, d; simpl; split_and!; try done.
  intros _. apply elem_of_cons; right. by apply elem_of_cons; left.
Qed.


End BridgeFacts.

(** ** Streaming gateway: an abort that arrives before the bridge *)
Section Leak.
Import Fx Grpc.
Context (resolve : Auth.Resolver) (endpoints : list string).
Context (URL_host : string → option string).
Context (requestId : string) (startTime : Z).

Abbreviation step := (Grpc.step resolve endpoints URL_host requestId startTime).
Abbreviation run := (Grpc.run resolve endpoints URL_host requestId startTime).

Lemma out_destroys_app tr1 tr2 :
  out_destroys (tr1 ++ tr2) = out_destroys tr1 + out_destroys tr2.
Proof. unfold out_destroys. by rewrite filter_app, length_app. Qed.

Lemma out_destroys_none tr : out_destroys tr = 0 → OutDestroy ∉ tr.
Proof.
  unfold out_destroys. induction tr as [|e tr IH]; [intros _; apply not_elem_of_nil|].
  intros H [<-|Hin]%elem_of_cons.
  - by rewrite filter_cons_True in H.
  - apply IH; [|done]. destruct (decide (match e with OutDestroy => true | _ => false end = true));
      [by rewrite filter_cons_True in H|by rewrite filter_cons_False in H].
Qed.

Lemma safeRespond_spares throws h st :
  out_destroys (safeRespond requestId throws h st).2 = 0.
Proof.
  unfold safeRespond. destruct (negb _ && negb _ && negb _); [|done].
  by destruct throws.
Qed.

Lemma safeEnd_spares throws st : out_destroys (safeEnd throws st).2 = 0.
Proof. unfold safeEnd. destruct (negb _ && negb _); [|done]. by destruct throws. Qed.

Lemma finalize_spares tk n st : out_destroys (finalize requestId tk n st).2 = 0.
Proof.
  unfold finalize.
  pose proof (safeRespond_spares (respondThrows tk) (Status n) st) as H1.
  destruct (safeRespond _ _ _ st) as [st1 fx1].
  pose proof (safeEnd_spares (endThrows tk) st1) as H2.
  destruct (safeEnd _ st1) as [st2 fx2]. cbn [fst snd] in *.
  by rewrite out_destroys_app, H1, H2.
Qed.

Lemma caught_spares tk st : out_destroys (caught requestId tk st).2 = 0.
Proof.
  unfold caught.
  pose proof (finalize_spares tk 500 (set_phase Finished st)) as H.
  by destruct (finalize _ _ _ _) as [st' fx].
Qed.

Lemma dataLog_spares failed ok st : out_destroys (dataLog requestId failed ok st) = 0.
Proof. unfold dataLog. destruct (0 <? _)%N; [|done]. by destruct (authFailed st). Qed.

Lemma authenticateToken_spares now token cache :
  out_destroys (Auth.authenticateToken resolve now token cache).2 = 0.
Proof.
  unfold Auth.authenticateToken.
  destruct (resolve token) as [|[res|]]; [done| |done].
  destruct (Js.truthy _); simpl; [|done].
  destruct (cache !! _) as [c|]; [|done].
  by destruct (_ <? _)%Z.
Qed.

Lemma onOpen_spares tk headers streamId st :
  out_destroys (onOpen requestId tk headers streamId st).2 = 0.
Proof.
  unfold onOpen. destruct (Headers.token_missing _); [|done].
  match goal with |- context [finalize _ tk 401 ?s] =>
    pose proof (finalize_spares tk 401 s) as H;
    by destruct (finalize _ tk 401 s) end.
Qed.

Lemma bridge_spares tk auth target session d c k st :
  out_destroys (bridge URL_host requestId tk auth target session d c k st).2 = 0.
Proof.
  unfold bridge. destruct (d || c).
  - pose proof (finalize_spares tk 503 (set_phase Finished st)) as H.
    by destruct (finalize _ _ _ _).
  - destruct (URL_host target); [done|apply caught_spares].
Qed.

Lemma onAuthAnswered_spares tk token st :
  out_destroys (onAuthAnswered resolve endpoints requestId tk token st).2 = 0.
Proof.
  unfold onAuthAnswered.
  pose proof (authenticateToken_spares (time tk) token (authCache st)) as Hq.
  destruct (Auth.authenticateToken _ _ _ _) as [[auth cache] calls].
  simpl in Hq. destruct auth as [[auth|]|].
  - destruct (from_option _ _ _).
    + cbn [snd]. by rewrite out_destroys_app, Hq.
    + match goal with |- context [finalize _ tk 503 ?s] =>
        pose proof (finalize_spares tk 503 s) as H;
        destruct (finalize _ tk 503 s) end.
      cbn [snd] in *. by rewrite !out_destroys_app, Hq, H.
  - match goal with |- context [finalize _ tk 401 ?s] =>
      pose proof (finalize_spares tk 401 s) as H;
      destruct (finalize _ tk 401 s) end.
    cbn [snd] in *. by rewrite !out_destroys_app, Hq, H.
  - pose proof (caught_spares tk (set_authCache cache st)) as H.
    destruct (caught _ _ _). cbn [snd] in *. by rewrite out_destroys_app, Hq, H.
Qed.

Lemma onSessionSettled_spares tk auth target retry r st :
  out_destroys (onSessionSettled URL_host requestId tk auth target retry r st).2 = 0.
Proof.
  unfold onSessionSettled. destruct r as [session d c k|e].
  - destruct (negb retry && _); [done|apply bridge_spares].
  - pose proof (finalize_spares tk 503 (set_phase Finished st)) as H.
    by destruct (finalize _ _ _ _).
Qed.

Lemma onStreamEvent_spares e st : out_destroys (onStreamEvent requestId e st).2 = 0.
Proof. destruct e; try done. apply dataLog_spares. Qed.

Lemma onBridgeEvent_spares tk auth target e st :
  tears_bridge e = false →
  out_destroys (onBridgeEvent requestId startTime tk auth target e st).2 = 0.
Proof.
  intros He. unfold onBridgeEvent. destruct e; try done; cbn [snd].
  - by destruct (dataSentToProxy _), (_ || _).
  - rewrite out_destroys_app, dataLog_spares. by destruct (_ || _).
  - destruct (_ || _); [done|].
    match goal with |- context [safeRespond _ ?t ?h ?s] =>
      pose proof (safeRespond_spares t h s) as H;
      by destruct (safeRespond _ t h s) end.
  - destruct (_ || _); [done|]. cbn [snd].
    by destruct (dataReceivedFromProxy _), (_ || _).
  - by destruct (_ || _ || _).
  - match goal with |- context [finalize _ tk 502 ?s] =>
      pose proof (finalize_spares tk 502 s) as H;
      by destruct (finalize _ tk 502 s) end.
  - match goal with |- context [safeEnd ?t ?s] =>
      pose proof (safeEnd_spares t s) as H;
      by destruct (safeEnd t s) end.
Qed.

Lemma step_spares_out tk st :
  tears_bridge (event tk) = false → out_destroys (step tk st).2 = 0.
Proof.
  intros He. unfold Grpc.step.
  destruct (phase st); destruct (event tk) eqn:E;
    first [ done | apply onOpen_spares | apply onStreamEvent_spares
          | apply onAuthAnswered_spares | apply onSessionSettled_spares
          | by apply onBridgeEvent_spares ].
Qed.

Lemma run_spares_out tks st :
  Forall (λ tk, tears_bridge (event tk) = false) tks →
  out_destroys (run tks st).2 = 0.
Proof.
  revert st; induction tks as [|tk tks IH]; intros st Hall; simpl; [done|].
  apply Forall_cons in Hall as [H1 H2].
  pose proof (step_spares_out tk st H1) as Hs.
  destruct (step tk st) as [st1 fx1]. specialize (IH st1 H2).
  destruct (run tks st1) as [st2 fx2]. cbn [snd] in *.
  by rewrite out_destroys_app, Hs, IH.
Qed.

(** C7, at the input where the code departs from it.  The ['aborted']
    listener, which destroys the outbound stream, is installed together
    with the bridge, after the two awaits of the stream listener.  A
    client that aborts while the listener is waiting for its session goes
    unnoticed: the abort and the ['close'] that follows it change nothing
    but the flags of the inbound stream, and once the session settles the
    listener opens the outbound stream all the same.  The pair then
    consists of a destroyed inbound stream and an open outbound stream,
    which no listener of the gateway destroys, whatever is delivered
    afterwards short of an ['error'] of the session. *)
Theorem abort_before_bridge_leaks
    (st : State) (tka tkc tk : Tick) (tks : list Tick)
    (auth : Auth.CachedAuth) (target : string) (retry : bool)
    (session : nat) (k : bool) (host : string) :
  phase st = AwaitSession auth target retry →
  event tka = InAborted →
  event tkc = InClose →
  event tk = SessionSettled (AcqOk session false false k) →
  retry = true ∨ k = false →
  URL_host target = Some host →
  Forall (λ tk', tears_bridge (event tk') = false) tks →
  step tka st = (st, []) ∧
  (∃ hdrs, SessionRequest session hdrs ∈ (run [ tka; tkc; tk ] st).2) ∧
  phase (run [ tka; tkc; tk ] st).1 = Bridging auth target session ∧
  destroyed (inbound (run [ tka; tkc; tk ] st).1) = true ∧
  out_gone (run [ tka; tkc; tk ] st).1 = false ∧
  OutDestroy ∉ (run ([ tka; tkc; tk ] ++ tks) st).2.
Proof.
  intros Hp Ha Hc He Hk Hh Hall.
  assert (step tka st = (st, [])) as Hs1.
  { unfold Grpc.step. by rewrite Hp, Ha. }
  assert (negb retry && (false || false || k) = false) as Hnot.
  { destruct Hk as [->| ->]; [done|]. by destruct retry. }
  split; [done|].
  set (st2 := set_inbound {| destroyed := true; closed := true;
                             writableEnded := writableEnded (inbound st) |} st).
  assert (step tkc st
          = (st2,
             dataLog requestId "OTLP gRPC gateway: stream closed (auth failed)"
               "OTLP gRPC gateway: stream closed" st)) as Hs2.
  { unfold Grpc.step. by rewrite Hp, Hc. }
  assert (∃ fx hdrs,
            step tk st2
            = (set_outbound {| out_destroyed := false; out_closed := false;
                               sessionListener := true |}
                 (set_phase (Bridging auth target session) st2), fx) ∧
            SessionRequest session hdrs ∈ fx ∧ out_destroys fx = 0)
    as (fx & hdrs & Hs3 & Hin & Hfx).
  { unfold Grpc.step. cbn [phase st2 set_inbound]. rewrite Hp, He.
    unfold onSessionSettled. rewrite Hnot. unfold bridge. cbn [orb].
    rewrite Hh. eexists _, _. split; [reflexivity|]. split; [|done].
    apply elem_of_cons; right. by apply elem_of_cons; left. }
  cbn [app Grpc.run]. rewrite Hs1, Hs2, Hs3. cbn [fst snd app].
  match goal with |- context [Grpc.run _ _ _ _ _ tks ?s] =>
    pose proof (run_spares_out tks s Hall) as Hrest;
    destruct (run tks s) as [st4 fx4] end.
  cbn [fst snd] in *.
  split_and!; try done.
  - exists hdrs. apply elem_of_app; right. by apply elem_of_app; left.
  - apply out_destroys_none.
    by rewrite !out_destroys_app, dataLog_spares, Hfx, Hrest.
Qed.

End Leak.


(** ** Connection pool *)
Section PoolFacts.
Import Fx Pool.

Lemma sessions_clearRegisteredPing t st :
  sessions (clearRegisteredPing t st) = sessions st.
Proof. unfold clearRegisteredPing. by destruct (_ !! t). Qed.

Lemma sessions_evict t st : sessions (evict t st) = delete t (sessions st).
Proof. unfold evict. by rewrite sessions_clearRegisteredPing. Qed.

Lemma intervals_evict t st : sessionPingIntervals (evict t st) !! t = None.
Proof.
  unfold evict, clearRegisteredPing. simpl.
  destruct (sessionPingIntervals st !! t) eqn:E; simpl; [|done].
  apply lookup_delete_eq.
Qed.

Lemma settled_evict t st : settled (evict t st) = settled st.
Proof. unfold evict, clearRegisteredPing. simpl. by destruct (_ !! t). Qed.

Lemma notify_frame ps r st :
  sessions (notify ps r st).1 = sessions st ∧
  sessionPingIntervals (notify ps r st).1 = sessionPingIntervals st ∧
  (∀ p x, settled st !! p = Some x → settled (notify ps r st).1 !! p = Some x) ∧
  (notify ps r st).2 = (λ p, settle_fx p r) <$> ps.
Proof.
  unfold notify. simpl. split_and!; [| | |done];
    revert st; induction ps as [|q ps IH]; intros st; simpl; try done.
  - by rewrite IH.
  - by rewrite IH.
  - intros p x Hp. apply IH. simpl.
    destruct (settled st !! q) eqn:Hq; [done|].
    rewrite lookup_insert_ne; [done|]. intros ->. congruence.
Qed.

(** ['error'] on an established session with [ECONNRESET]: nothing is
    logged; the endpoint's pool entry and interval timer are dropped;
    the only promises touched are those of calls still listening with
    [once('error')]. *)
Lemma reset_when_established sid s st :
  heap st !! sid = Some s → connecting s = false →
  filter (λ e, is_log e = true) (step (SessionError sid "ECONNRESET") st).2 = [] ∧
  (step (SessionError sid "ECONNRESET") st).2
    = (λ p, Reject p (ErrCode "ECONNRESET")) <$> onError s ∧
  sessions (step (SessionError sid "ECONNRESET") st).1
    = delete (target s) (sessions st) ∧
  sessionPingIntervals (step (SessionError sid "ECONNRESET") st).1 !! target s
    = None.
Proof.
  intros Hs Hc. unfold step. rewrite Hs. unfold onErrorEvent. rewrite Hc.
  change (String.eqb "ECONNRESET" "ECONNRESET") with true. cbn [negb].
  match goal with |- context [notify ?ps ?r ?s0] =>
    pose proof (notify_frame ps r s0) as (H1 & H2 & _ & H4);
    destruct (notify ps r s0) as [st' fx'] end.
  simpl in *. subst fx'. split_and!.
  - induction (onError s) as [|p ps IH]; [done|]. by rewrite fmap_cons, filter_cons.
  - done.
  - by rewrite H1, sessions_evict.
  - rewrite H2. apply intervals_evict.
Qed.

(** ['error'] while the session is still connecting, with any code:
    logged as an error, the pool entry dropped, and the promise of the
    call that opened the session rejected with that error. *)
Lemma error_while_connecting sid s code st :
  heap st !! sid = Some s → connecting s = true →
  (∃ fields msg tl,
     (step (SessionError sid code) st).2
     = Log Error fields msg :: Reject (creator s) (ErrCode code) :: tl) ∧
  sessions (step (SessionError sid code) st).1 = delete (target s) (sessions st) ∧
  (settled st !! creator s = None →
     settled (step (SessionError sid code) st).1 !! creator s
     = Some (Rejected (ErrCode code))).
Proof.
  intros Hs Hc. unfold step. rewrite Hs. unfold onErrorEvent. rewrite Hc.
  match goal with |- context [notify ?ps ?r ?s0] =>
    pose proof (notify_frame ps r s0) as (H1 & _ & H3 & _);
    destruct (notify ps r s0) as [st' fx'] end.
  simpl in *. split_and!.
  - by eexists _, _, _.
  - by rewrite H1, sessions_evict.
  - intros Hn. apply H3. rewrite settled_evict. simpl. rewrite Hn.
    apply lookup_insert_eq.
Qed.

(** As long as no session is registered for [t], every call for [t]
    opens a connection of its own. *)
Lemma acquire_unregistered t st :
  sessions st !! t = None →
  sessions (step (Acquire t false) st).1 = sessions st ∧
  attempts t (step (Acquire t false) st).2 = 1.
Proof.
  intros Hn. unfold step, getClientSession. cbn [sessions]. rewrite Hn.
  cbn [mbind option_bind]. unfold create. cbn [fst snd with_heap sessions].
  split; [done|]. unfold attempts.
  rewrite filter_cons_True; [done|]. apply String.eqb_refl.
Qed.

Lemma attempts_app t tr1 tr2 :
  attempts t (tr1 ++ tr2) = attempts t tr1 + attempts t tr2.
Proof. unfold attempts. by rewrite filter_app, length_app. Qed.

Lemma acquires_unregistered n t st :
  sessions st !! t = None →
  attempts t (run (replicate n (Acquire t false)) st).2 = n.
Proof.
  revert st; induction n as [|n IH]; intros st Hn; [done|].
  cbn [replicate run].
  pose proof (acquire_unregistered t st Hn) as [H1 H2].
  destruct (step (Acquire t false) st) as [st1 fx1].
  simpl in H1, H2. rewrite <- H1 in Hn. specialize (IH st1 Hn).
  destruct (run _ st1) as [st2 fx2]. simpl in *.
  by rewrite attempts_app, H2, IH.
Qed.

End PoolFacts.

(** ** Session errors: transient or fatal *)
Section ResetFacts.
Import Fx.
Context (resolve : Auth.Resolver) (endpoints : list string).
Context (URL_host : string → option string).
Context (requestId : string) (startTime : Z).

Abbreviation step := (Grpc.step resolve endpoints URL_host requestId startTime).

(** A rejected [getClientSession] is answered with 503 on a stream that
    is still open and unanswered. *)
Lemma acquire_failed_503 tk auth target retry err (st : Grpc.State) :
  Grpc.phase st = Grpc.AwaitSession auth target retry →
  Grpc.event tk = Grpc.SessionSettled (Grpc.AcqFail err) →
  Grpc.streamResponded (Grpc.guards st) = false →
  Grpc.destroyed (Grpc.inbound st) = false →
  Grpc.closed (Grpc.inbound st) = false →
  Grpc.respondThrows tk = false →
  statuses (step tk st).2 = [ 503%N ] ∧ forwards (step tk st).2 = [].
Proof.
  intros Hp He Hr Hd Hc Ht. unfold Grpc.step. rewrite Hp, He.
  unfold Grpc.onSessionSettled.
  match goal with |- context [Grpc.finalize _ tk 503 ?s] =>
    pose proof (finalize_sends requestId tk 503 s Hr Hd Hc Ht) as [H1 H2];
    destruct (Grpc.finalize _ tk 503 s) as [st' fx] end.
  cbn [fst snd] in *. split; [exact H1|exact H2].
Qed.

(** C8.  An ['error'] of a pooled session is classified by whether the
    session is still connecting.  A connection reset on an established
    session writes no log entry and drops the endpoint's entry from the
    pool (with its interval timer); beyond that it only rejects calls
    still listening on the session.  An error during establishment, a
    reset included, is logged at error level, drops the entry and
    rejects the promise of the call that opened the session; the stream
    that awaits that promise answers 503 when it is still open. *)
Theorem reset_classification
    (sid : nat) (s : Pool.Session) (code : string) (pool : Pool.State)
    (tk : Grpc.Tick) (auth : Auth.CachedAuth) (target : string)
    (retry : bool) (st : Grpc.State) :
  Pool.heap pool !! sid = Some s →
  (Pool.connecting s = false →
     filter (λ e, is_log e = true)
       (Pool.step (Pool.SessionError sid "ECONNRESET") pool).2 = [] ∧
     (Pool.step (Pool.SessionError sid "ECONNRESET") pool).2
       = (λ p, Reject p (ErrCode "ECONNRESET")) <$> Pool.onError s ∧
     Pool.sessions (Pool.step (Pool.SessionError sid "ECONNRESET") pool).1
       = delete (Pool.target s) (Pool.sessions pool) ∧
     Pool.sessionPingIntervals
       (Pool.step (Pool.SessionError sid "ECONNRESET") pool).1
       !! Pool.target s = None) ∧
  (Pool.connecting s = true →
     (∃ fields msg tl,
        (Pool.step (Pool.SessionError sid code) pool).2
        = Log Error fields msg :: Reject (Pool.creator s) (ErrCode code) :: tl) ∧
     Pool.sessions (Pool.step (Pool.SessionError sid code) pool).1
       = delete (Pool.target s) (Pool.sessions pool) ∧
     (Pool.settled pool !! Pool.creator s = None →
        Pool.settled (Pool.step (Pool.SessionError sid code) pool).1
          !! Pool.creator s = Some (Pool.Rejected (ErrCode code))) ∧
     (Grpc.phase st = Grpc.AwaitSession auth target retry →
      Grpc.event tk = Grpc.SessionSettled (Grpc.AcqFail (ErrCode code)) →
      Grpc.streamResponded (Grpc.guards st) = false →
      Grpc.destroyed (Grpc.inbound st) = false →
      Grpc.closed (Grpc.inbound st) = false →
      Grpc.respondThrows tk = false →
        statuses (step tk st).2 = [ 503%N ] ∧ forwards (step tk st).2 = [])).
Proof.
  intros Hs. split.
  - intros Hc. by apply reset_when_established.
  - intros Hc.
    pose proof (error_while_connecting sid s code pool Hs Hc) as (H1 & H2 & H3).
    split_and!; [done..|]. intros. by eapply acquire_failed_503.
Qed.

End ResetFacts.

(** ** Routing of authenticated traffic *)
Section RoutingFacts.
Import Fx.

Lemma get_set k v h : Headers.get k (Headers.set k v h) = Some v.
Proof.
  induction h as [|[k' v'] h IH]; cbn [Headers.set Headers.get].
  - by rewrite String.eqb_refl.
  - destruct (String.eqb k k') eqn:E; cbn [Headers.get]; by rewrite E.
Qed.

Lemma get_set_ne k k' v h :
  k ≠ k' → Headers.get k (Headers.set k' v h) = Headers.get k h.
Proof.
  intros Hne. induction h as [|[k0 v0] h IH]; cbn [Headers.set Headers.get].
  - by apply String.eqb_neq in Hne as ->.
  - destruct (String.eqb_spec k' k0) as [->|Hne0]; cbn [Headers.get].
    + by apply String.eqb_neq in Hne as ->.
    + by rewrite IH.
Qed.

Lemma authenticateToken_forwards resolve now token cache :
  forwards (Auth.authenticateToken resolve now token cache).2 = [].
Proof.
  unfold Auth.authenticateToken.
  destruct (resolve token) as [|[res|]]; [done| |done].
  destruct (Js.truthy _); simpl; [|done].
  destruct (cache !! _) as [c|]; [|done].
  by destruct (_ <? _)%Z.
Qed.

Lemma forwards_ProxyWrite body : forwards (ProxyWrite <$> body) = ProxyWrite <$> body.
Proof.
  induction body as [|c body IH]; [done|].
  rewrite fmap_cons. unfold forwards in *. by rewrite filter_cons_True, IH.
Qed.

Lemma forwards_ResWrite body : forwards (ResWrite <$> body) = [].
Proof.
  induction body as [|c body IH]; [done|].
  rewrite fmap_cons. unfold forwards in *. by rewrite filter_cons_False.
Qed.

Lemma shardOrDefault_absent : Capture.shardOrDefault None = "shard-0".
Proof. done. Qed.

Lemma default_shard_is_first endpoints :
  Shard.pickShardEndpoint "shard-0" endpoints = endpoints !! 0.
Proof. done. Qed.

Section Http.
Import Http.
Context (URL1 : string → option Url) (URL2 : string → Url → option Url).
Context (resolve : Auth.Resolver) (endpoints : list string).
Context (clk : Clock) (up : Upstream) (req : Request).

Abbreviation handle := (Http.handle URL1 URL2 resolve endpoints clk up req).

Lemma relay_forwards auth target : forwards (relay clk up auth target) = [].
Proof.
  unfold relay. destruct up as [sc hdrs body err|sc hdrs body|]; [| |done];
    (destruct (writeHead_throws _); [done|]);
    rewrite !forwards_app, forwards_ResWrite; [by destruct err|done].
Qed.

Lemma captured_forwards auth : forwards (captured clk req auth) = [].
Proof. unfold captured. by destruct (0 <? _)%N. Qed.

Lemma handle_forwards cache t auth cache' calls target base targetUrl :
  Headers.getBearerToken (Headers.getAuthHeader (req_headers req)) = Some t →
  Js.truthy t = true →
  Auth.authenticateToken resolve (authTime clk) t cache
    = (Auth.Return (Some auth), cache', calls) →
  Shard.pickShardEndpoint
    (Capture.shardOrDefault (Auth.assignedShard auth)) endpoints = Some target →
  Js.truthy target = true →
  URL1 target = Some base →
  URL2 (urlOrRoot req) base = Some targetUrl →
  forwards (handle cache).2
  = if request_throws (proxyOptions req auth targetUrl) then []
    else HttpRequest (proxyOptions req auth targetUrl)
           :: (ProxyWrite <$> req_body req) ++ [ ProxyEnd ].
Proof.
  intros Ht Htt Ha Hp Hpt Hb Hu.
  pose proof (authenticateToken_forwards resolve (authTime clk) t cache) as Hc.
  unfold Http.handle. rewrite Ht. cbn [Headers.token_missing default].
  rewrite Htt. cbn [negb]. change (id t) with t.
  rewrite Ha in Hc |- *. cbn [snd] in Hc.
  rewrite Hp. cbn [from_option default id]. rewrite Hpt, Hb.
  cbn [mbind option_bind]. rewrite Hu.
  destruct (request_throws _); cbn [snd].
  - by rewrite !forwards_app, Hc.
  - rewrite !forwards_app, Hc, forwards_ProxyWrite, captured_forwards,
      relay_forwards.
    by rewrite app_nil_r.
Qed.

End Http.

End RoutingFacts.

Section Routing.
Import Fx.
Context (URL1 : string → option Http.Url) (URL2 : string → Http.Url → option Http.Url).
Context (resolve : Auth.Resolver).
Context (httpEndpoints grpcEndpoints : list string).
Context (clk : Http.Clock) (up : Http.Upstream) (req : Http.Request).
Context (URL_host : string → option string).
Context (requestId : string) (startTime : Z).

Abbreviation handle := (Http.handle URL1 URL2 resolve httpEndpoints clk up req).
Abbreviation step := (Grpc.step resolve grpcEndpoints URL_host requestId startTime).

Lemma stream_routed tk t auth cache' calls target (st : Grpc.State) :
  Grpc.phase st = Grpc.AwaitAuth t →
  Grpc.event tk = Grpc.AuthAnswered →
  Auth.authenticateToken resolve (Grpc.time tk) t (Grpc.authCache st)
    = (Auth.Return (Some auth), cache', calls) →
  Shard.pickShardEndpoint
    (Capture.shardOrDefault (Auth.assignedShard auth)) grpcEndpoints
    = Some target →
  Js.truthy target = true →
  Grpc.phase (step tk st).1 = Grpc.AwaitSession auth target false ∧
  Grpc.metadata (step tk st).1 = Grpc.metadata st ∧
  GetClientSession target ∈ (step tk st).2.
Proof.
  intros Hp He Ha Ht Htt. unfold Grpc.step. rewrite Hp, He.
  unfold Grpc.onAuthAnswered. rewrite Ha, Ht. cbn [from_option default id].
  rewrite Htt. cbn [fst snd]. split_and!; [done..|]. set_solver.
Qed.

Lemma stream_bridged tk auth target retry session connecting host
    (st : Grpc.State) :
  Grpc.phase st = Grpc.AwaitSession auth target retry →
  Grpc.event tk = Grpc.SessionSettled (Grpc.AcqOk session false false connecting) →
  retry = true ∨ connecting = false →
  URL_host target = Some host →
  ∃ reqHeaders,
    SessionRequest session reqHeaders ∈ (step tk st).2 ∧
    Headers.get "x-hdx-team-id" reqHeaders
      = Some (Headers.HStr (Auth.teamId auth)) ∧
    Headers.get ":authority" reqHeaders = Some (Headers.HStr host) ∧
    Grpc.phase (step tk st).1 = Grpc.Bridging auth target session.
Proof.
  intros Hp He Hk Hh. unfold Grpc.step. rewrite Hp, He.
  unfold Grpc.onSessionSettled.
  assert (negb retry && (false || false || connecting) = false) as ->.
  { destruct Hk as [->| ->]; [done|]. by destruct retry. }
  unfold Grpc.bridge. cbn [orb]. rewrite Hh. cbn [fst snd].
  eexists. split_and!;
    [apply elem_of_cons; right; apply elem_of_cons; left; reflexivity
    |apply get_set| |done].
  rewrite get_set_ne by done. apply get_set.
Qed.


End Routing.

(** ** What the logs carry of the credentials *)
Section PrefixFacts.
Import Fx.
Context (headers : Headers.t).

Abbreviation fine := (prefixes_only headers).

Lemma fine_other e : auth_values e = [] → fine e.
Proof. intros H v Hv. rewrite H in Hv. by apply elem_of_nil in Hv. Qed.

Lemma fine_tokenPrefix l fields t msg :
  Headers.getBearerToken (Headers.getAuthHeader headers) = Some t →
  auth_values (Log l fields msg) = [ VStr (Capture.tokenPrefix t) ] →
  fine (Log l fields msg).
Proof.
  intros Ht Hf v Hv. rewrite Hf in Hv. apply list_elem_of_singleton in Hv as ->.
  eexists. split; [done|]. right. eauto.
Qed.

Lemma fine_headerPrefix l fields msg :
  auth_values (Log l fields msg)
  = [ VStr (Capture.headerPrefix (Headers.getAuthHeader headers)) ] →
  fine (Log l fields msg).
Proof.
  intros Hf v Hv. rewrite Hf in Hv. apply list_elem_of_singleton in Hv as ->.
  eexists. split; [done|]. by left.
Qed.

Lemma fine_fmap {A} (f : A → Effect) l :
  (∀ a, auth_values (f a) = []) → Forall fine (f <$> l).
Proof. intros H. apply Forall_fmap, Forall_forall. intros a _. by apply fine_other. Qed.

Lemma fine_calls resolve now token cache :
  Forall fine (Auth.authenticateToken resolve now token cache).2.
Proof.
  unfold Auth.authenticateToken.
  destruct (resolve token) as [|[res|]]; cbn [snd];
    [by repeat (apply Forall_cons_2; [by apply fine_other|])| |
     by repeat (apply Forall_cons_2; [by apply fine_other|])].
  destruct (Js.truthy _); cbn [negb snd];
    [|by repeat (apply Forall_cons_2; [by apply fine_other|])].
  destruct (cache !! _) as [c|];
    [destruct (_ <? _)%Z|]; cbn [snd];
    by repeat (apply Forall_cons_2; [by apply fine_other|]).
Qed.

End PrefixFacts.

Ltac fine_list :=
  cbn [snd];
  repeat first
    [ apply Forall_nil_2
    | apply Forall_app_2
    | apply Forall_cons_2; [try (by apply fine_other)|] ].

Section LogFacts.
Import Fx Http.
Context (URL1 : string → option Url) (URL2 : string → Url → option Url).
Context (resolve : Auth.Resolver) (endpoints : list string).
Context (clk : Clock) (up : Upstream) (req : Request).

Abbreviation handle := (Http.handle URL1 URL2 resolve endpoints clk up req).

Lemma headerPrefix_length a : String.length (Capture.headerPrefix a) ≤ 23.
Proof.
  unfold Capture.headerPrefix.
  destruct a as [[s|l]|]; [|simpl; lia..].
  destruct (Js.truthy s); [|simpl; lia].
  rewrite string_length_app. pose proof (length_take 20 s).
  change (String.length "...") with 3. lia.
Qed.

Lemma tokenPrefix_length t : String.length (Capture.tokenPrefix t) ≤ 13.
Proof.
  unfold Capture.tokenPrefix. rewrite string_length_app.
  pose proof (length_take 10 t). change (String.length "...") with 3. lia.
Qed.

Lemma too_long_to_occur s raw :
  String.length s ≤ 23 → 23 < String.length raw → Js.includes s raw = false.
Proof.
  intros Hs Hr. destruct (Js.includes s raw) eqn:E; [|done].
  apply includes_length in E. lia.
Qed.

Abbreviation fine := (prefixes_only (req_headers req)).

Lemma fine_incoming :
  fine (incoming clk req (Headers.getAuthHeader (req_headers req))).
Proof.
  intros v Hv. apply list_elem_of_singleton in Hv as ->.
  eexists. split; [done|]. by left.
Qed.

Lemma fine_reject_missing reason : Forall fine (reject clk req [] reason).
Proof. unfold reject. destruct (0 <? _)%N; fine_list. Qed.

Lemma fine_reject_invalid t reason :
  Headers.getBearerToken (Headers.getAuthHeader (req_headers req)) = Some t →
  Forall fine
    (reject clk req [ ("tokenPrefix", VStr (Capture.tokenPrefix t)) ] reason).
Proof.
  intros Ht. unfold reject. destruct (0 <? _)%N; fine_list.
  by apply (fine_tokenPrefix _ _ _ t).
Qed.

Lemma fine_writeHead auth target status hdrs :
  Forall fine (writeHead_logged clk auth target status hdrs).
Proof. unfold writeHead_logged. fine_list. Qed.

Lemma fine_relay auth target : Forall fine (relay clk up auth target).
Proof.
  unfold relay, writeHead_rejected. destruct up as [sc hdrs body err|sc hdrs body|].
  - destruct (writeHead_throws _); [fine_list|].
    apply Forall_app_2; [apply fine_writeHead|].
    apply Forall_app_2; [by apply fine_fmap|].
    destruct err; fine_list.
  - destruct (writeHead_throws _); [fine_list|].
    apply Forall_app_2; [apply fine_writeHead|by apply fine_fmap].
  - apply Forall_app_2; [fine_list|].
    apply Forall_app_2; [apply fine_writeHead|fine_list].
Qed.

Lemma fine_captured auth : Forall fine (captured clk req auth).
Proof.
  unfold captured. destruct (0 <? _)%N; fine_list.
  apply fine_other. by destruct (Js.truthy _).
Qed.

Lemma fine_handle cache : Forall fine (handle cache).2.
Proof.
  unfold Http.handle.
  destruct (Headers.token_missing _) eqn:Hm; cbn [snd].
  - apply Forall_app_2; [|apply fine_reject_missing].
    apply Forall_cons_2; [apply fine_incoming|fine_list].
  - destruct (Headers.getBearerToken _) as [t|] eqn:Ht; [|done].
    cbn [default from_option]. change (id t) with t.
    pose proof (fine_calls (req_headers req) resolve (authTime clk) t cache) as Hc.
    destruct (Auth.authenticateToken _ _ _ _) as [[auth cache'] calls].
    cbn [snd] in Hc. destruct auth as [[auth|]|]; cbn [snd].
    + destruct (from_option _ _ _).
      * destruct (_ ≫= _); [destruct (request_throws _)|]; cbn [snd].
        -- apply Forall_app_2;
             [apply Forall_app_2;
                [apply Forall_cons_2; [apply fine_incoming|fine_list]
                |apply Forall_app_2; [done|fine_list]]|].
           apply Forall_app_2; [fine_list|].
           apply Forall_app_2; [apply fine_writeHead|fine_list].
        -- apply Forall_app_2;
             [apply Forall_app_2;
                [apply Forall_cons_2; [apply fine_incoming|fine_list]
                |apply Forall_app_2; [done|fine_list]]|].
           apply Forall_app_2; [fine_list|].
           apply Forall_app_2; [by apply fine_fmap|].
           apply Forall_app_2; [apply fine_captured|].
           apply Forall_app_2; [fine_list|apply fine_relay].
        -- apply Forall_app_2;
             [apply Forall_app_2;
                [apply Forall_cons_2; [apply fine_incoming|fine_list]
                |apply Forall_app_2; [done|fine_list]]|].
           apply Forall_app_2; [fine_list|].
           apply Forall_app_2; [apply fine_writeHead|fine_list].
      * apply Forall_app_2;
          [apply Forall_app_2;
             [apply Forall_cons_2; [apply fine_incoming|fine_list]
             |apply Forall_app_2; [done|fine_list]]|fine_list].
    + apply Forall_app_2; [apply Forall_cons_2; [apply fine_incoming|fine_list]|].
      apply Forall_app_2; [done|].
      apply Forall_app_2; [|by apply fine_reject_invalid].
      apply Forall_cons_2; [by apply (fine_tokenPrefix _ _ _ t)|fine_list].
    + apply Forall_app_2; [apply Forall_cons_2; [apply fine_incoming|fine_list]|].
      apply Forall_app_2; [done|fine_list].
Qed.

End LogFacts.

Section StreamLogFacts.
Import Fx Grpc.
Context (resolve : Auth.Resolver) (endpoints : list string).
Context (URL_host : string → option string).
Context (requestId : string) (startTime : Z).
Context (headers : Headers.t).

Abbreviation step := (Grpc.step resolve endpoints URL_host requestId startTime).
Abbreviation run := (Grpc.run resolve endpoints URL_host requestId startTime).
Abbreviation fine := (prefixes_only headers).

Lemma fine_safeRespond throws h st :
  Forall fine (safeRespond requestId throws h st).2.
Proof.
  unfold safeRespond. destruct (negb _ && negb _ && negb _); [|fine_list].
  destruct throws; fine_list.
Qed.

Lemma fine_safeEnd throws st : Forall fine (safeEnd throws st).2.
Proof.
  unfold safeEnd. destruct (negb _ && negb _); [|fine_list].
  destruct throws; fine_list.
Qed.

Lemma fine_finalize tk n st : Forall fine (finalize requestId tk n st).2.
Proof.
  unfold finalize.
  pose proof (fine_safeRespond (respondThrows tk) (Status n) st) as H1.
  destruct (safeRespond _ _ _ st) as [st1 fx1].
  pose proof (fine_safeEnd (endThrows tk) st1) as H2.
  destruct (safeEnd _ st1) as [st2 fx2]. by apply Forall_app_2.
Qed.

Lemma fine_caught tk st : Forall fine (caught requestId tk st).2.
Proof.
  unfold caught.
  pose proof (fine_finalize tk 500 (set_phase Finished st)) as H.
  destruct (finalize _ _ _ _) as [st' fx]. cbn [snd] in *.
  apply Forall_cons_2; [by apply fine_other|done].
Qed.

Lemma fine_dataLog failed ok st : Forall fine (dataLog requestId failed ok st).
Proof.
  unfold dataLog. destruct (0 <? _)%N; [|fine_list].
  apply Forall_cons_2; [|fine_list]. apply fine_other.
  unfold dataFields.
  destruct (authFailed st), (teamId st) as [t|]; try destruct (Js.truthy t); done.
Qed.

Lemma fine_onOpen tk streamId st :
  Forall fine (onOpen requestId tk headers streamId st).2.
Proof.
  unfold onOpen. destruct (Headers.token_missing _); cbn [snd].
  - match goal with |- context [finalize _ tk 401 ?s] =>
      pose proof (fine_finalize tk 401 s) as H;
      destruct (finalize _ tk 401 s) as [st' fx] end.
    cbn [snd] in *. apply Forall_cons_2; [by apply fine_headerPrefix|].
    apply Forall_cons_2; [by apply fine_other|done].
  - apply Forall_cons_2; [by apply fine_headerPrefix|fine_list].
Qed.

Lemma fine_bridge tk auth target session d c k st :
  Forall fine (bridge URL_host requestId tk auth target session d c k st).2.
Proof.
  unfold bridge. destruct (d || c).
  - pose proof (fine_finalize tk 503 (set_phase Finished st)) as H.
    destruct (finalize _ _ _ _) as [st' fx]. cbn [snd] in *.
    apply Forall_cons_2; [by apply fine_other|done].
  - destruct (URL_host target); [fine_list|apply fine_caught].
Qed.

Lemma fine_onAuthAnswered tk t st :
  Headers.getBearerToken (Headers.getAuthHeader headers) = Some t →
  Forall fine (onAuthAnswered resolve endpoints requestId tk t st).2.
Proof.
  intros Ht. unfold onAuthAnswered.
  pose proof (fine_calls headers resolve (time tk) t (authCache st)) as Hc.
  destruct (Auth.authenticateToken _ _ _ _) as [[auth cache] calls].
  cbn [snd] in Hc. destruct auth as [[auth|]|].
  - destruct (from_option _ _ _); cbn [snd].
    + apply Forall_app_2; [done|fine_list].
    + match goal with |- context [finalize _ tk 503 ?s] =>
        pose proof (fine_finalize tk 503 s) as H;
        destruct (finalize _ tk 503 s) as [st' fx] end.
      cbn [snd] in *. apply Forall_app_2; [done|].
      apply Forall_app_2; [fine_list|done].
  - match goal with |- context [finalize _ tk 401 ?s] =>
      pose proof (fine_finalize tk 401 s) as H;
      destruct (finalize _ tk 401 s) as [st' fx] end.
    cbn [snd] in *. apply Forall_app_2; [done|].
    apply Forall_app_2; [|done].
    apply Forall_cons_2; [by apply (fine_tokenPrefix _ _ _ t)|fine_list].
  - pose proof (fine_caught tk (set_authCache cache st)) as H.
    destruct (caught _ _ _) as [st' fx]. cbn [snd] in *.
    by apply Forall_app_2.
Qed.

Lemma fine_onSessionSettled tk auth target retry r st :
  Forall fine (onSessionSettled URL_host requestId tk auth target retry r st).2.
Proof.
  unfold onSessionSettled. destruct r as [session d c k|e].
  - destruct (negb retry && _); [fine_list|apply fine_bridge].
  - pose proof (fine_finalize tk 503 (set_phase Finished st)) as H.
    destruct (finalize _ _ _ _) as [st' fx]. cbn [snd] in *.
    apply Forall_cons_2; [by apply fine_other|done].
Qed.

Lemma fine_onStreamEvent e st : Forall fine (onStreamEvent requestId e st).2.
Proof. destruct e; cbn [onStreamEvent snd]; try (solve [fine_list]). apply fine_dataLog. Qed.

Lemma fine_onBridgeEvent tk auth target e st :
  Forall fine (onBridgeEvent requestId startTime tk auth target e st).2.
Proof.
  unfold onBridgeEvent, destroyOut.
  destruct e; try (solve [fine_list]).
  - (* InData *)
    destruct (dataSentToProxy _), (_ || _); fine_list.
  - (* InEnd *)
    cbn [snd]. apply Forall_app_2; [apply fine_dataLog|].
    destruct (_ || _); fine_list.
  - (* OutResponse *)
    destruct (_ || _); [fine_list|].
    match goal with |- context [safeRespond _ ?t ?h ?s] =>
      pose proof (fine_safeRespond t h s) as H;
      destruct (safeRespond _ t h s) as [st' fx] end.
    cbn [snd] in *. apply Forall_cons_2; [by apply fine_other|done].
  - (* OutData *)
    destruct (_ || _); [fine_list|].
    destruct (dataReceivedFromProxy _), (_ || _); fine_list.
  - (* OutReadableEnd *)
    destruct (_ || _ || _); fine_list.
  - (* OutError *)
    match goal with |- context [finalize _ tk 502 ?s] =>
      pose proof (fine_finalize tk 502 s) as H;
      destruct (finalize _ tk 502 s) as [st' fx] end.
    cbn [snd] in *. apply Forall_cons_2; [|done].
    apply fine_other. by destruct (String.eqb code "ECONNRESET").
  - (* OutClose *)
    match goal with |- context [safeEnd ?t ?s] =>
      pose proof (fine_safeEnd t s) as H;
      destruct (safeEnd t s) as [st' fx] end.
    cbn [snd] in *. apply Forall_cons_2; [by apply fine_other|done].
  - (* SessionFailed *)
    destruct (sessionListener _); [|fine_list]. destruct (_ || _); fine_list.
Qed.

Lemma fine_step tk st :
  opened_on headers st ∨ (∃ streamId, event tk = Open headers streamId) →
  Forall fine (step tk st).2.
Proof.
  intros Hst. unfold Grpc.step.
  destruct (phase st) eqn:Hp.
  - destruct (event tk) eqn:He; try (solve [fine_list]).
    destruct Hst as [[Hf _]|[streamId' Ho]]; [done|].
    injection Ho as -> ->. apply fine_onOpen.
  - destruct (event tk) eqn:He; try (solve [fine_list]); try apply fine_onStreamEvent.
    destruct Hst as [[_ Ht]|[? Ho]]; [|done]. by apply fine_onAuthAnswered, Ht.
  - destruct (event tk); try (solve [fine_list]); try apply fine_onStreamEvent.
    apply fine_onSessionSettled.
  - destruct (event tk); try apply fine_onStreamEvent; apply fine_onBridgeEvent.
  - destruct (event tk); try (solve [fine_list]); apply fine_onStreamEvent.
  - destruct (event tk); try (solve [fine_list]); apply fine_onStreamEvent.
Qed.

Lemma past_auth_opened st : past_auth (phase st) → opened_on headers st.
Proof. unfold opened_on. destruct (phase st); by intros []. Qed.

Lemma caught_phase tk st : phase (caught requestId tk st).1 = Finished.
Proof.
  unfold caught.
  pose proof (finalize_frame requestId tk 500 (set_phase Finished st)) as (H & _).
  by destruct (finalize _ _ _ _).
Qed.

Lemma bridge_phase tk auth target session d c k st :
  past_auth (phase (bridge URL_host requestId tk auth target session d c k st).1).
Proof.
  unfold bridge. destruct (d || c).
  - pose proof (finalize_frame requestId tk 503 (set_phase Finished st)) as (H & _).
    destruct (finalize _ _ _ _). cbn [fst] in *. by rewrite H.
  - destruct (URL_host target); [done|]. by rewrite caught_phase.
Qed.

Lemma onAuthAnswered_phase tk t st :
  past_auth (phase (onAuthAnswered resolve endpoints requestId tk t st).1).
Proof.
  unfold onAuthAnswered.
  destruct (Auth.authenticateToken _ _ _ _) as [[auth cache] calls].
  destruct auth as [[auth|]|].
  - destruct (from_option _ _ _); [done|].
    match goal with |- context [finalize _ tk 503 ?s] =>
      pose proof (finalize_frame requestId tk 503 s) as (H & _);
      destruct (finalize _ tk 503 s) end.
    cbn [fst] in *. by rewrite H.
  - match goal with |- context [finalize _ tk 401 ?s] =>
      pose proof (finalize_frame requestId tk 401 s) as (H & _);
      destruct (finalize _ tk 401 s) end.
    cbn [fst] in *. by rewrite H.
  - pose proof (caught_phase tk (set_authCache cache st)) as H.
    destruct (caught _ _ _). cbn [fst] in *. by rewrite H.
Qed.

Lemma onSessionSettled_phase tk auth target retry r st :
  past_auth
    (phase (onSessionSettled URL_host requestId tk auth target retry r st).1).
Proof.
  unfold onSessionSettled. destruct r as [session d c k|e].
  - destruct (negb retry && _); [done|apply bridge_phase].
  - pose proof (finalize_frame requestId tk 503 (set_phase Finished st)) as (H & _).
    destruct (finalize _ _ _ _). cbn [fst] in *. by rewrite H.
Qed.

Lemma onStreamEvent_phase e st : phase (onStreamEvent requestId e st).1 = phase st.
Proof. by destruct e. Qed.

Lemma onOpen_opened tk streamId st :
  opened_on headers (onOpen requestId tk headers streamId st).1.
Proof.
  unfold onOpen.
  destruct (Headers.token_missing _) eqn:Hm.
  - apply past_auth_opened.
    match goal with |- context [finalize _ tk 401 ?s] =>
      pose proof (finalize_frame requestId tk 401 s) as (H & _);
      destruct (finalize _ tk 401 s) end.
    cbn [fst] in *. by rewrite H.
  - cbn [fst]. split; [done|]. simpl. intros t [= <-].
    destruct (Headers.getBearerToken _); [done|discriminate Hm].
Qed.

Lemma step_opened tk st :
  opened_on headers st → opened_on headers (step tk st).1.
Proof.
  intros [Hf Ht]. unfold Grpc.step.
  destruct (phase st) eqn:Hp; [done|..].
  - destruct (event tk) eqn:He;
      try (split; cbn [fst]; rewrite ?onStreamEvent_phase, Hp; done).
    apply past_auth_opened, onAuthAnswered_phase.
  - destruct (event tk) eqn:He;
      try (split; cbn [fst]; rewrite ?onStreamEvent_phase, Hp; done).
    apply past_auth_opened, onSessionSettled_phase.
  - pose proof (step_bridging resolve endpoints URL_host requestId startTime
                  tk st (ex_intro _ auth (ex_intro _ target
                            (ex_intro _ session Hp)))) as (a & t & s & H).
    unfold Grpc.step in H. rewrite Hp in H.
    apply past_auth_opened. by rewrite H.
  - destruct (event tk) eqn:He;
      try (split; cbn [fst]; rewrite ?onStreamEvent_phase, ?Hp; done).
    apply past_auth_opened. unfold count. simpl. by rewrite Hp.
  - destruct (event tk) eqn:He;
      try (split; cbn [fst]; rewrite ?onStreamEvent_phase, ?Hp; done).
Qed.

Lemma fine_run tks st : opened_on headers st → Forall fine (run tks st).2.
Proof.
  revert st; induction tks as [|tk tks IH]; intros st Hst; simpl;
    [apply Forall_nil_2|].
  pose proof (fine_step tk st (or_introl Hst)) as H1.
  pose proof (step_opened tk st Hst) as Hst1.
  destruct (step tk st) as [st1 fx1].
  pose proof (IH st1 Hst1) as H2.
  destruct (run tks st1) as [st2 fx2]. by apply Forall_app_2.
Qed.

Lemma fine_stream tk tks streamId cache :
  event tk = Open headers streamId →
  Forall fine (run (tk :: tks) (init cache)).2.
Proof.
  intros He. simpl.
  pose proof (fine_step tk (init cache) (or_intror (ex_intro _ streamId He))) as H1.
  assert (opened_on headers (step tk (init cache)).1) as Hst1.
  { unfold Grpc.step. simpl. rewrite He. apply onOpen_opened. }
  destruct (step tk (init cache)) as [st1 fx1].
  pose proof (fine_run tks st1 Hst1) as H2.
  destruct (run tks st1) as [st2 fx2]. by apply Forall_app_2.
Qed.

End StreamLogFacts.

(** ** What the log entries depend on *)

Section AlikeFacts.
Import Headers.

Lemma alike_keys h h' : alike h h' → keys h = keys h'.
Proof.
  induction 1 as [|[k v] [k' v'] h h' [Hk _] _ IH]; [done|].
  unfold keys in *. rewrite !fmap_cons. cbn [fst] in *. congruence.
Qed.

Lemma alike_get k h h' :
  alike h h' → is_authorization k = false → get k h = get k h'.
Proof.
  intros Ha Hk. induction Ha as [|[k1 v] [k2 v'] h h' [Hk1 Hv] _ IH]; [done|].
  simpl in *. subst k2. destruct (String.eqb_spec k k1) as [->|_]; [|done].
  by rewrite (Hv Hk).
Qed.

Lemma alike_set k v h h' : alike h h' → alike (set k v h) (set k v h').
Proof.
  induction 1 as [|[k1 v1] [k2 v2] h h' [Hk1 Hv] Ha IH]; simpl.
  - by repeat constructor.
  - simpl in *. subst k2. destruct (String.eqb k k1).
    + by constructor.
    + by constructor.
Qed.

Lemma sendable_set k v h :
  sendable h = true → sendable (set k v h) = Http.header_value_ok v.
Proof.
  unfold sendable. induction h as [|[k1 v1] h IH]; simpl.
  - intros _. by rewrite andb_true_r.
  - intros [H1 H2]%andb_true_iff. destruct (String.eqb k k1); simpl.
    + by rewrite H2, andb_true_r.
    + by rewrite H1, IH.
Qed.

(** A value put under one key is still there after another key is set. *)
Lemma set_keeps k1 v1 k2 v2 h :
  k1 ≠ k2 → (k2, v2) ∈ set k1 v1 (set k2 v2 h).
Proof.
  intros Hne.
  assert (∀ l, (k2, v2) ∈ l → (k2, v2) ∈ set k1 v1 l) as Hkeep.
  { induction l as [|[k v] l IH]; [by intros ?%elem_of_nil|].
    intros [[= <- <-]|Hin]%elem_of_cons; simpl.
    - destruct (String.eqb_spec k1 k2) as [->|_]; [done|]. by left.
    - destruct (String.eqb k1 k); right; [done|by apply IH]. }
  apply Hkeep. induction h as [|[k v] h IH]; simpl; [by left|].
  destruct (String.eqb_spec k2 k) as [->|_]; [by left|by right].
Qed.

Lemma sendable_elem kv h :
  kv ∈ h → Http.header_value_ok kv.2 = false → sendable h = false.
Proof.
  unfold sendable. induction h as [|x h IH]; [by intros ?%elem_of_nil|].
  intros [<-|Hin]%elem_of_cons Hb; simpl.
  - by rewrite Hb.
  - rewrite IH by done. apply andb_false_r.
Qed.

Lemma sendable_set_set k1 v1 k2 v2 h h' :
  k1 ≠ k2 → sendable h = true → sendable h' = true →
  sendable (set k1 v1 (set k2 v2 h)) = sendable (set k1 v1 (set k2 v2 h')).
Proof.
  intros Hne H H'. destruct (Http.header_value_ok v2) eqn:Hv.
  - rewrite !sendable_set; [done|by rewrite sendable_set..].
  - rewrite !(sendable_elem (k2, v2)); [done|by apply set_keeps|done|
                                          by apply set_keeps|done].
Qed.

End AlikeFacts.

Section LogsOnly.
Import Fx.

Lemma logs_app tr1 tr2 : logs (tr1 ++ tr2) = logs tr1 ++ logs tr2.
Proof. apply filter_app. Qed.

Lemma logs_fmap {A} (f : A → Effect) l :
  (∀ a, is_log (f a) = false) → logs (f <$> l) = [].
Proof.
  intros Hf. induction l as [|a l IH]; [done|].
  rewrite fmap_cons. unfold logs in *. rewrite filter_cons_False; [done|].
  by rewrite Hf.
Qed.

(** The resolver's answer decides what [authenticateToken] returns and
    what it leaves in the cache; it logs nothing. *)
Lemma authenticateToken_alike resolve now t t' cache :
  resolve t = resolve t' →
  (Auth.authenticateToken resolve now t cache).1
    = (Auth.authenticateToken resolve now t' cache).1 ∧
  logs (Auth.authenticateToken resolve now t cache).2 = [] ∧
  logs (Auth.authenticateToken resolve now t' cache).2 = [].
Proof.
  intros Hr. unfold Auth.authenticateToken. rewrite <- Hr.
  destruct (resolve t) as [|[res|]]; [done| |done].
  destruct (Js.truthy _); simpl; [|done].
  destruct (cache !! _) as [c|]; [|done].
  by destruct (_ <? _)%Z.
Qed.

End LogsOnly.

Section HttpAlike.
Import Fx Http.
Context (URL1 : string → option Url) (URL2 : string → Url → option Url).
Context (resolve : Auth.Resolver) (endpoints : list string).
Context (clk : Clock) (up : Upstream) (req : Request).
Context (h' : Headers.t).
Hypothesis Halike : alike (req_headers req) h'.

Abbreviation req' := (with_headers h' req).

Lemma incoming_alike a a' :
  Capture.headerPrefix a = Capture.headerPrefix a' →
  incoming clk req' a' = incoming clk req a.
Proof.
  intros Hp. unfold incoming. cbn [req_headers req_method req_url
    remoteAddress remotePort with_headers].
  by rewrite <- !(alike_get _ _ _ Halike), <- (alike_keys _ _ Halike), Hp.
Qed.

Lemma reject_alike extra reason :
  reject clk req' extra reason = reject clk req extra reason.
Proof.
  unfold reject. cbn [req_headers req_body with_headers].
  by rewrite <- !(alike_get _ _ _ Halike).
Qed.

Lemma captured_alike auth : captured clk req' auth = captured clk req auth.
Proof.
  unfold captured. cbn [req_headers req_body with_headers].
  by rewrite <- !(alike_get _ _ _ Halike).
Qed.

Lemma request_throws_alike auth u :
  sendable (req_headers req) = true → sendable h' = true →
  request_throws (proxyOptions req' auth u) = request_throws (proxyOptions req auth u).
Proof.
  intros Hs Hs'. unfold request_throws, proxyOptions.
  cbn [protocol path headers req_headers req_method with_headers].
  f_equal. f_equal. by apply (sendable_set_set "x-hdx-team-id" _ "host").
Qed.

Lemma handle_alike cache :
  sendable (req_headers req) = true → sendable h' = true →
  same_prefixes resolve (req_headers req) h' →
  logs (Http.handle URL1 URL2 resolve endpoints clk up req cache).2
  = logs (Http.handle URL1 URL2 resolve endpoints clk up req' cache).2.
Proof.
  intros Hs Hs' (Hhp & Hm & Ht). unfold Http.handle. cbv zeta.
  change (req_headers req') with h'.
  change (urlOrRoot req') with (urlOrRoot req).
  change (req_body req') with (req_body req).
  rewrite (incoming_alike _ _ Hhp), <- Hm.
  destruct (Headers.token_missing _) eqn:Hmiss; cbn [snd].
  { by rewrite reject_alike. }
  destruct (Ht eq_refl) as [Htp Hr].
  pose proof (authenticateToken_alike resolve (authTime clk) _ _ cache Hr)
    as (Ha & Hl & Hl').
  destruct (Auth.authenticateToken resolve (authTime clk)
              (default "" (Headers.getBearerToken
                             (Headers.getAuthHeader (req_headers req)))) cache)
    as [[a c] calls].
  destruct (Auth.authenticateToken resolve (authTime clk)
              (default "" (Headers.getBearerToken (Headers.getAuthHeader h'))) cache)
    as [[a' c'] calls'].
  cbn [fst snd] in *. injection Ha as <- <-.
  destruct a as [[auth|]|]; cbn [snd].
  - destruct (from_option Js.truthy false _); cbn [snd].
    + destruct (_ ≫= _) as [u|]; cbn [snd].
      * rewrite request_throws_alike by done.
        destruct (request_throws _); cbn [snd].
        -- by rewrite !logs_app, Hl, Hl'.
        -- rewrite captured_alike. rewrite !logs_app, Hl, Hl'. done.
      * by rewrite !logs_app, Hl, Hl'.
    + by rewrite !logs_app, Hl, Hl'.
  - rewrite reject_alike, <- Htp. by rewrite !logs_app, Hl, Hl'.
  - by rewrite !logs_app, Hl, Hl'.
Qed.

End HttpAlike.

Section StreamAlike.
Import Fx Grpc.
Context (resolve : Auth.Resolver) (endpoints : list string).
Context (URL_host : string → option string).
Context (requestId : string) (startTime : Z).

Abbreviation step := (Grpc.step resolve endpoints URL_host requestId startTime).
Abbreviation run := (Grpc.run resolve endpoints URL_host requestId startTime).

Lemma safeRespond_twin throws h m p st :
  safeRespond requestId throws h (twin m p st)
  = (twin m p (safeRespond requestId throws h st).1,
     (safeRespond requestId throws h st).2).
Proof.
  unfold safeRespond, twin. cbn [guards inbound set_phase set_metadata].
  destruct (negb _ && negb _ && negb _); [|done]. by destruct throws.
Qed.

Lemma safeEnd_twin throws m p st :
  safeEnd throws (twin m p st)
  = (twin m p (safeEnd throws st).1, (safeEnd throws st).2).
Proof.
  unfold safeEnd, twin. cbn [guards inbound set_phase set_metadata].
  destruct (negb _ && negb _); [|done]. by destruct throws.
Qed.

Lemma finalize_twin tk n m p st :
  finalize requestId tk n (twin m p st)
  = (twin m p (finalize requestId tk n st).1, (finalize requestId tk n st).2).
Proof.
  unfold finalize. rewrite safeRespond_twin.
  destruct (safeRespond _ _ _ st) as [st1 fx1]. cbn [fst snd].
  rewrite safeEnd_twin. by destruct (safeEnd _ st1) as [st2 fx2].
Qed.

Lemma dataLog_twin failed ok m p st :
  Headers.get "content-type" m = Headers.get "content-type" (metadata st) →
  dataLog requestId failed ok (twin m p st) = dataLog requestId failed ok st.
Proof.
  intros Hm. unfold dataLog, dataFields, twin.
  cbn [counters authFailed teamId metadata set_phase set_metadata].
  by rewrite Hm.
Qed.

Lemma count_twin chunk m p st : count chunk (twin m p st) = twin m p (count chunk st).
Proof. done. Qed.

Lemma onStreamEvent_twin e m p st :
  Headers.get "content-type" m = Headers.get "content-type" (metadata st) →
  onStreamEvent requestId e (twin m p st)
  = (twin m p (onStreamEvent requestId e st).1, (onStreamEvent requestId e st).2).
Proof.
  intros Hm. destruct e; try done. cbn [onStreamEvent fst snd].
  by rewrite dataLog_twin.
Qed.


Lemma caught_twin tk m p st :
  caught requestId tk (twin m p st)
  = (twin m Finished (caught requestId tk st).1, (caught requestId tk st).2).
Proof.
  unfold caught.
  change (set_phase Finished (twin m p st)) with (twin m Finished (set_phase Finished st)).
  rewrite finalize_twin.
  pose proof (finalize_frame requestId tk 500 (set_phase Finished st)) as (Hp & _).
  by destruct (finalize _ _ _ _) as [st' fx].
Qed.

Lemma onBridgeEvent_twin tk auth target e m p st :
  Headers.get "content-type" m = Headers.get "content-type" (metadata st) →
  onBridgeEvent requestId startTime tk auth target e (twin m p st)
  = (twin m p (onBridgeEvent requestId startTime tk auth target e st).1,
     (onBridgeEvent requestId startTime tk auth target e st).2).
Proof.
  intros Hm. unfold onBridgeEvent. cbv zeta.
  change (outbound (twin m p st)) with (outbound st).
  change (seen (twin m p st)) with (seen st).
  change (inbound (twin m p st)) with (inbound st).
  destruct e; try reflexivity;
    first
      [ (* InEnd *)
        cbn [fst snd]; by rewrite dataLog_twin
      | (* OutResponse *)
        (destruct (out_destroyed _ || out_closed _); [reflexivity|]);
        match goal with
        | |- context [safeRespond _ ?t ?h (set_seen ?x (twin m p st))] =>
            change (set_seen x (twin m p st)) with (twin m p (set_seen x st));
            rewrite safeRespond_twin;
            destruct (safeRespond requestId t h (set_seen x st)) as [st' fx]
        end; reflexivity
      | (* OutError *)
        match goal with
        | |- context [finalize _ tk 502 (set_outbound ?x (twin m p st))] =>
            change (set_outbound x (twin m p st))
              with (twin m p (set_outbound x st));
            rewrite finalize_twin;
            destruct (finalize requestId tk 502 (set_outbound x st)) as [st' fx]
        end; reflexivity
      | (* OutClose *)
        match goal with
        | |- context [safeEnd ?t (set_outbound ?x (twin m p st))] =>
            change (set_outbound x (twin m p st))
              with (twin m p (set_outbound x st));
            rewrite safeEnd_twin;
            destruct (safeEnd t (set_outbound x st)) as [st' fx]
        end; reflexivity
      | (* SessionFailed *)
        destruct (sessionListener _); [|reflexivity]; by destruct (_ || _)
      | (* OutData *)
        destruct (out_destroyed _ || out_closed _); reflexivity
      | (* OutReadableEnd *)
        destruct (_ || _ || _); reflexivity ].
Qed.


Lemma twin_self st : twin (metadata st) (phase st) st = st.
Proof. by destruct st. Qed.

Lemma logs_cons_log l fields msg tr :
  logs (Log l fields msg :: tr) = Log l fields msg :: logs tr.
Proof. unfold logs. by rewrite filter_cons_True. Qed.

Lemma finalize_mirrors tk n m q st st2 (f f' : list Effect → list Effect) :
  (∀ fx, logs (f' fx) = logs (f fx)) →
  phase st = q →
  st2 = twin m q st →
  mirrors m
    (let '(st', fx) := finalize requestId tk n st in (st', f fx))
    (let '(st', fx) := finalize requestId tk n st2 in (st', f' fx)).
Proof.
  intros Hl Hq ->.
  rewrite finalize_twin.
  pose proof (finalize_frame requestId tk n st) as (Hp & _).
  destruct (finalize _ _ _ st) as [st' fx]. cbn [fst snd] in *.
  split; cbn [fst snd]; [by rewrite Hp, Hq|done].
Qed.

Lemma bridge_mirrors tk auth target session d c k m p st :
  alike (metadata st) m →
  mirrors m (bridge URL_host requestId tk auth target session d c k st)
    (bridge URL_host requestId tk auth target session d c k (twin m p st)).
Proof.
  intros Ha. unfold bridge. destruct (d || c).
  - change (set_phase Finished (twin m p st))
      with (twin m Finished (twin m p (set_phase Finished st))).
    by apply (finalize_mirrors tk 503 m Finished (set_phase Finished st) _
                (λ fx, _ :: fx) (λ fx, _ :: fx)).
  - destruct (URL_host target) as [host|].
    + split; [done|]. cbn [snd metadata twin set_phase set_metadata].
      rewrite !logs_cons_log. f_equal. f_equal.
      rewrite <- !(alike_get _ _ _ Ha) by done.
      by rewrite <- (alike_keys _ _ (alike_set _ _ _ _ (alike_set _ _ _ _ Ha))).
    + rewrite caught_twin. split; cbn [fst snd]; [|done].
      by rewrite caught_phase.
Qed.

Lemma onSessionSettled_mirrors tk auth target retry r m p st :
  alike (metadata st) m →
  mirrors m (onSessionSettled URL_host requestId tk auth target retry r st)
    (onSessionSettled URL_host requestId tk auth target retry r (twin m p st)).
Proof.
  intros Ha. unfold onSessionSettled. destruct r as [session d c k|e].
  - destruct (negb retry && _); [done|]. by apply bridge_mirrors.
  - change (set_phase Finished (twin m p st))
      with (twin m Finished (twin m p (set_phase Finished st))).
    by apply (finalize_mirrors tk 503 m Finished (set_phase Finished st) _
                (λ fx, _ :: fx) (λ fx, _ :: fx)).
Qed.

Lemma onAuthAnswered_mirrors tk t t' m p st :
  resolve t = resolve t' →
  Capture.tokenPrefix t = Capture.tokenPrefix t' →
  mirrors m (onAuthAnswered resolve endpoints requestId tk t st)
    (onAuthAnswered resolve endpoints requestId tk t' (twin m p st)).
Proof.
  intros Hr Htp. unfold onAuthAnswered.
  change (authCache (twin m p st)) with (authCache st).
  pose proof (authenticateToken_alike resolve (time tk) t t' (authCache st) Hr)
    as (Ha & Hl & Hl').
  destruct (Auth.authenticateToken resolve (time tk) t (authCache st))
    as [[a c] calls].
  destruct (Auth.authenticateToken resolve (time tk) t' (authCache st))
    as [[a' c'] calls'].
  cbn [fst snd] in *. injection Ha as <- <-.
  destruct a as [[auth|]|].
  - destruct (from_option Js.truthy false _).
    + split; [done|]. cbn [snd]. by rewrite !logs_app, Hl, Hl'.
    + match goal with
      | |- context [finalize _ tk 503 (set_phase Finished (set_teamId ?x
                      (set_authCache ?y (twin m p st))))] =>
          change (set_phase Finished (set_teamId x (set_authCache y (twin m p st))))
            with (twin m Finished
                    (twin m p (set_phase Finished (set_teamId x (set_authCache y st)))))
      end.
      apply (finalize_mirrors tk 503 m Finished _ _
               (λ fx, calls ++ _ ++ fx) (λ fx, calls' ++ _ ++ fx)); [|done..].
      intros fx. by rewrite !logs_app, Hl, Hl'.
  - match goal with
    | |- context [finalize _ tk 401 (set_phase Unauthorized (set_authFailed
                    (set_authCache ?y (twin m p st))))] =>
        change (set_phase Unauthorized (set_authFailed (set_authCache y (twin m p st))))
          with (twin m Unauthorized
                  (twin m p (set_phase Unauthorized
                               (set_authFailed (set_authCache y st)))))
    end.
    rewrite Htp.
    apply (finalize_mirrors tk 401 m Unauthorized _ _
             (λ fx, calls ++ _ ++ fx) (λ fx, calls' ++ _ ++ fx)); [|done..].
    intros fx. by rewrite !logs_app, Hl, Hl'.
  - change (set_authCache c (twin m p st)) with (twin m p (set_authCache c st)).
    rewrite caught_twin.
    pose proof (caught_phase requestId tk (set_authCache c st)) as Hp.
    destruct (caught requestId tk (set_authCache c st)) as [st' fx].
    cbn [fst snd] in *. split; cbn [fst snd]; [by rewrite Hp|].
    by rewrite !logs_app, Hl, Hl'.
Qed.

Lemma alike_refl h : alike h h.
Proof. induction h; by constructor. Qed.

Lemma phase_sim_refl p : p ≠ Fresh → phase_sim resolve p p.
Proof. by destruct p. Qed.

Lemma phase_sim_past p : past_auth p → phase_sim resolve p p.
Proof. by destruct p. Qed.

Lemma alike_content_type m m' :
  alike m m' → Headers.get "content-type" m' = Headers.get "content-type" m.
Proof. intros Ha. symmetry. by apply alike_get. Qed.

(** A handler that commutes with [twin] keeps [sim]. *)
Lemma twin_sim m p' st (r r' : State * list Effect) :
  r' = (twin m p' r.1, r.2) →
  r = (twin (metadata st) (phase st) r.1, r.2) →
  alike (metadata st) m → phase_sim resolve (phase st) p' →
  sim resolve m r.1 r'.1 ∧ logs r'.2 = logs r.2.
Proof.
  intros -> Hr Ha Hp. cbn [fst snd]. split; [|done].
  split; [done|]. rewrite Hr. cbn [fst]. by split.
Qed.

(** A handler that mirrors itself keeps [sim]. *)
Lemma mirrors_sim m st (r r' : State * list Effect) :
  mirrors m r r' → mirrors (metadata st) r r → past_auth (phase r.1) →
  alike (metadata st) m →
  sim resolve m r.1 r'.1 ∧ logs r'.2 = logs r.2.
Proof.
  intros [H1 H2] [H3 _] Hp Ha. split; [|done].
  split; [by rewrite H1|]. split.
  - by rewrite H3.
  - rewrite H1. by apply phase_sim_past.
Qed.

Lemma step_sim tk m st st' :
  sim resolve m st st' →
  sim resolve m (step tk st).1 (step tk st').1 ∧ logs (step tk st').2 = logs (step tk st).2.
Proof.
  intros (Heq & Ha & Hp). set (p' := phase st') in *. clearbody p'.
  subst st'. pose proof (alike_content_type _ _ Ha) as Hct.
  pose proof (alike_content_type _ _ (alike_refl (metadata st))) as Hct0.
  assert (Hquiet : sim resolve m (st, @nil Effect).1 (twin m p' st, @nil Effect).1 ∧
                   logs (twin m p' st, @nil Effect).2 = logs (st, @nil Effect).2).
  { by apply (twin_sim m p' st); [| rewrite twin_self|..]. }
  assert (Hse : ∀ e,
    sim resolve m (onStreamEvent requestId e st).1
      (onStreamEvent requestId e (twin m p' st)).1 ∧
    logs (onStreamEvent requestId e (twin m p' st)).2
      = logs (onStreamEvent requestId e st).2).
  { intros e. apply (twin_sim m p' st); [by apply onStreamEvent_twin| |done..].
    rewrite <- (onStreamEvent_twin _ _ _ _ Hct0). by rewrite twin_self. }
  unfold Grpc.step. change (phase (twin m p' st)) with p'.
  destruct (phase st) as [|t|auth target retry|auth target session| |] eqn:Hph;
    [done|..].
  - destruct p' as [|t'| | | |]; try done. destruct Hp as [Htp Hr].
    destruct (event tk); try done.
    apply (mirrors_sim m st).
    + by apply onAuthAnswered_mirrors.
    + pose proof (onAuthAnswered_mirrors tk t t
                    (metadata st) (phase st) st eq_refl eq_refl) as H.
      by rewrite twin_self in H.
    + apply onAuthAnswered_phase.
    + done.
  - simpl in Hp. subst p'.
    destruct (event tk); try done.
    apply (mirrors_sim m st).
    + by apply onSessionSettled_mirrors.
    + pose proof (onSessionSettled_mirrors tk auth target
                    retry r (metadata st) (phase st) st (alike_refl _)) as H.
      by rewrite twin_self in H.
    + apply onSessionSettled_phase.
    + done.
  - simpl in Hp. subst p'.
    pose proof (λ e, onBridgeEvent_twin tk auth target e
                       (metadata st) (phase st) st Hct0) as Hb.
    destruct (event tk) eqn:He; try done;
      (apply (twin_sim m (Bridging auth target session) st);
       [by apply onBridgeEvent_twin
       |rewrite <- Hb; by rewrite twin_self
       |done|by rewrite Hph]).
  - simpl in Hp. subst p'.
    destruct (event tk); try done.
    apply (twin_sim m Unauthorized st); [done| |done|by rewrite Hph].
    cbn [fst snd]. by rewrite <- count_twin, twin_self.
  - simpl in Hp. subst p'. destruct (event tk); done.
Qed.

Lemma run_sim tks m st st' :
  sim resolve m st st' → logs (run tks st').2 = logs (run tks st).2.
Proof.
  revert st st'. induction tks as [|tk tks IH]; intros st st' Hs; [done|].
  simpl. destruct (step_sim tk m st st' Hs) as [Hs' Hl].
  specialize (IH _ _ Hs').
  destruct (Grpc.step _ _ _ _ _ tk st) as [st1 fx1].
  destruct (Grpc.step _ _ _ _ _ tk st') as [st1' fx1'].
  cbn [fst snd] in *.
  destruct (Grpc.run _ _ _ _ _ tks st1) as [st2 fx2].
  destruct (Grpc.run _ _ _ _ _ tks st1') as [st2' fx2'].
  cbn [fst snd] in *. by rewrite !logs_app, Hl, IH.
Qed.

(** The opening of a stream on two sets of headers that differ in the
    credential only. *)
Lemma onOpen_sim tk h h' streamId st :
  alike h h' → same_prefixes resolve h h' →
  sim resolve h' (onOpen requestId tk h streamId st).1
         (onOpen requestId tk h' streamId st).1 ∧
  logs (onOpen requestId tk h' streamId st).2
    = logs (onOpen requestId tk h streamId st).2.
Proof.
  intros Ha (Hhp & Hm & Ht). unfold onOpen.
  rewrite <- Hhp, <- Hm, <- (alike_keys _ _ Ha), <- !(alike_get _ _ _ Ha) by done.
  destruct (Headers.token_missing _) eqn:Hmiss.
  - change (set_phase Unauthorized (set_authFailed (set_metadata h' st)))
      with (twin h' Unauthorized
              (set_phase Unauthorized (set_authFailed (set_metadata h st)))).
    rewrite finalize_twin.
    match goal with |- context [finalize _ tk 401 ?s] =>
      pose proof (finalize_frame requestId tk 401 s) as (Hp & _);
      pose proof (finalize_twin tk 401 h Unauthorized s) as Hf;
      change (finalize requestId tk 401 (twin h Unauthorized s))
        with (finalize requestId tk 401 s) in Hf;
      destruct (finalize _ tk 401 s) as [st1 fx1] end.
    cbn [fst snd phase set_phase] in *.
    split; [|done]. injection Hf as Hf. split; [done|].
    split; [by rewrite Hf|]. by rewrite Hp.
  - destruct (Ht eq_refl) as [Htp Hr]. cbn [fst snd]. split; [|done].
    split; [done|]. by split.
Qed.

End StreamAlike.


Section Logs.
Import Fx.
Context (URL1 : string → option Http.Url) (URL2 : string → Http.Url → option Http.Url).
Context (resolve : Auth.Resolver).
Context (httpEndpoints grpcEndpoints : list string).
Context (clk : Http.Clock) (up : Http.Upstream) (req : Http.Request).
Context (URL_host : string → option string).
Context (requestId : string) (startTime : Z).

Abbreviation handle := (Http.handle URL1 URL2 resolve httpEndpoints clk up req).
Abbreviation run := (Grpc.run resolve grpcEndpoints URL_host requestId startTime).


End Logs.


(** ** The properties at the scenario *)





Lemma unauthenticated_gets_401_witness :
  (Fx.statuses
     (Http.handle Scenario.URL1 Scenario.URL2 (Scenario.resolve None)
        Scenario.endpoints Scenario.clk Scenario.up
        (Scenario.request (Scenario.bearer "Bearer nope")) ∅).2 = [ 401%N ] ∧
   Fx.forwards
     (Http.handle Scenario.URL1 Scenario.URL2 (Scenario.resolve None)
        Scenario.endpoints Scenario.clk Scenario.up
        (Scenario.request (Scenario.bearer "Bearer nope")) ∅).2 = []) ∧
  (Fx.statuses
     (Http.handle Scenario.URL1 Scenario.URL2 (Scenario.resolve None)
        Scenario.endpoints Scenario.clk Scenario.up
        (Scenario.request [ ("host", Headers.HStr "gateway:4318") ]) ∅).2
   = [ 401%N ] ∧
   Fx.resolver_calls
     (Http.handle Scenario.URL1 Scenario.URL2 (Scenario.resolve None)
        Scenario.endpoints Scenario.clk Scenario.up
        (Scenario.request [ ("host", Headers.HStr "gateway:4318") ]) ∅).2 = 0) ∧
  Fx.statuses
    (Grpc.run (Scenario.resolve None) Scenario.endpoints Scenario.URL_host
       "r-1" 1000
       [ Scenario.tick (Grpc.Open (Scenario.bearer "Bearer nope") 1);
         Scenario.tick Grpc.AuthAnswered ] (Grpc.init ∅)).2 = [ 401%N ] ∧
  Fx.resolver_calls
    (Grpc.run (Scenario.resolve None) Scenario.endpoints Scenario.URL_host
       "r-1" 1000
       [ Scenario.tick (Grpc.Open [ ("host", Headers.HStr "gateway:4317") ] 1) ]
       (Grpc.init ∅)).2 = 0.
Proof.
  assert (unauthenticated (Scenario.resolve None) (Scenario.bearer "Bearer nope"))
    as Hu by (right; exists "nope"; split; reflexivity).
  assert (∀ port, no_authorization [ ("host", Headers.HStr port) ]) as Hno.
  { intros port key Hk. apply list_elem_of_singleton in Hk. subst key. reflexivity. }
  pose proof (unauthenticated_gets_401 Scenario.URL1 Scenario.URL2
                (Scenario.resolve None) Scenario.endpoints Scenario.endpoints
                Scenario.clk Scenario.up
                (Scenario.request (Scenario.bearer "Bearer nope"))
                Scenario.URL_host "r-1" 1000%Z ∅
                (Scenario.bearer "Bearer nope") 1%Z
                (Scenario.tick (Grpc.Open (Scenario.bearer "Bearer nope") 1))
                (Scenario.tick Grpc.AuthAnswered) [])
    as (Hhttp & _ & Hstream & _).
  pose proof (unauthenticated_gets_401 Scenario.URL1 Scenario.URL2
                (Scenario.resolve None) Scenario.endpoints Scenario.endpoints
                Scenario.clk Scenario.up
                (Scenario.request [ ("host", Headers.HStr "gateway:4318") ])
                Scenario.URL_host "r-1" 1000%Z ∅
                [ ("host", Headers.HStr "gateway:4317") ] 1%Z
                (Scenario.tick (Grpc.Open [ ("host", Headers.HStr "gateway:4317") ] 1))
                (Scenario.tick Grpc.AuthAnswered) [])
    as (_ & Habsent & _ & Hquiet).
  split; [exact (Hhttp Hu)|].
  split; [exact (Habsent (Hno _))|].
  split.
  - destruct (Hstream eq_refl Hu) as (_ & _ & _ & H401).
    exact (H401 eq_refl eq_refl eq_refl).
  - exact (Hquiet eq_refl (Hno _)).
Defined.

Lemma blank_authorization_rejected_witness :
  Headers.getBearerToken (Some (Headers.HArr [ "   "; "Bearer abc" ])) = None ∧
  Fx.statuses
    (Http.handle Scenario.URL1 Scenario.URL2 (Scenario.resolve None)
       Scenario.endpoints Scenario.clk Scenario.up
       (Scenario.request (Scenario.bearer "   ")) ∅).2 = [ 401%N ] ∧
  Fx.resolver_calls
    (Grpc.run (Scenario.resolve None) Scenario.endpoints Scenario.URL_host
       "r-1" 1000
       [ Scenario.tick (Grpc.Open (Scenario.bearer "") 1) ] (Grpc.init ∅)).2 = 0.
Proof.
  pose proof (blank_authorization_rejected Scenario.URL1 Scenario.URL2
                (Scenario.resolve None) Scenario.endpoints Scenario.endpoints
                Scenario.clk Scenario.up
                (Scenario.request (Scenario.bearer "   "))
                Scenario.URL_host "r-1" 1000%Z ∅
                (Headers.HArr [ "   "; "Bearer abc" ]) "   " [] 1%Z
                (Scenario.tick Grpc.InEnd) [] eq_refl eq_refl)
    as (Hnone & _).
  pose proof (blank_authorization_rejected Scenario.URL1 Scenario.URL2
                (Scenario.resolve None) Scenario.endpoints Scenario.endpoints
                Scenario.clk Scenario.up
                (Scenario.request (Scenario.bearer "   "))
                Scenario.URL_host "r-1" 1000%Z ∅
                (Headers.HStr "   ") "   " [] 1%Z
                (Scenario.tick Grpc.InEnd) [] eq_refl eq_refl)
    as (_ & _ & Hhttp & _).
  pose proof (blank_authorization_rejected Scenario.URL1 Scenario.URL2
                (Scenario.resolve None) Scenario.endpoints Scenario.endpoints
                Scenario.clk Scenario.up (Scenario.request [])
                Scenario.URL_host "r-1" 1000%Z ∅
                (Headers.HStr "") "" (Scenario.bearer "") 1%Z
                (Scenario.tick (Grpc.Open (Scenario.bearer "") 1)) []
                eq_refl eq_refl)
    as (_ & _ & _ & Hstream).
  split; [exact Hnone|].
  split; [exact (proj1 (Hhttp eq_refl))|].
  exact (proj1 (Hstream eq_refl eq_refl)).
Defined.



Lemma pipe_end_escapes_guard_witness :
  end_calls
    (Scenario.run
       [ Scenario.tick (Grpc.Open Scenario.metadata 1);
         Scenario.tick Grpc.AuthAnswered;
         Scenario.tick (Grpc.SessionSettled (Grpc.AcqOk 0 false false false));
         Scenario.tick (Grpc.OutResponse [ (":status", Headers.HStr "200") ]);
         Scenario.tick (Grpc.OutData "ok");
         Scenario.tick Grpc.OutReadableEnd;
         Scenario.tick Grpc.OutClose ] (Grpc.init ∅)).2 ≤ 2 ∧
  end_calls
    (Scenario.run [ Scenario.tick Grpc.OutReadableEnd; Scenario.tick Grpc.OutClose ]
       (Scenario.run
          [ Scenario.tick (Grpc.OutResponse [ (":status", Headers.HStr "200") ]);
            Scenario.tick (Grpc.OutData "ok") ] Scenario.bridged).1).2 = 2.
Proof.
  destruct (pipe_end_escapes_guard (Scenario.resolve (Some "shard-1"))
              Scenario.endpoints Scenario.URL_host "r-1" 1000%Z
              (Scenario.run
                 [ Scenario.tick
                     (Grpc.OutResponse [ (":status", Headers.HStr "200") ]);
                   Scenario.tick (Grpc.OutData "ok") ] Scenario.bridged).1
              (Scenario.tick Grpc.OutReadableEnd) (Scenario.tick Grpc.OutClose)
              [ Scenario.tick (Grpc.Open Scenario.metadata 1);
                Scenario.tick Grpc.AuthAnswered;
                Scenario.tick (Grpc.SessionSettled (Grpc.AcqOk 0 false false false));
                Scenario.tick (Grpc.OutResponse [ (":status", Headers.HStr "200") ]);
                Scenario.tick (Grpc.OutData "ok");
                Scenario.tick Grpc.OutReadableEnd;
                Scenario.tick Grpc.OutClose ] ∅) as [(_ & _ & Hmost) Htwice].
  split; [exact Hmost|].
  apply Htwice; try reflexivity.
  exists Scenario.cached, "http://h1:9", 0. reflexivity.
Defined.

Lemma abort_before_bridge_leaks_witness :
  (∃ hdrs,
     Fx.SessionRequest 0 hdrs ∈
       (Scenario.run
          [ Scenario.tick Grpc.InAborted; Scenario.tick Grpc.InClose;
            Scenario.tick (Grpc.SessionSettled (Grpc.AcqOk 0 false false false)) ]
          Scenario.awaiting).2) ∧
  Grpc.destroyed
    (Grpc.inbound
       (Scenario.run
          [ Scenario.tick Grpc.InAborted; Scenario.tick Grpc.InClose;
            Scenario.tick (Grpc.SessionSettled (Grpc.AcqOk 0 false false false)) ]
          Scenario.awaiting).1) = true ∧
  out_gone
    (Scenario.run
       [ Scenario.tick Grpc.InAborted; Scenario.tick Grpc.InClose;
         Scenario.tick (Grpc.SessionSettled (Grpc.AcqOk 0 false false false)) ]
       Scenario.awaiting).1 = false ∧
  Fx.OutDestroy ∉
    (Scenario.run
       ([ Scenario.tick Grpc.InAborted; Scenario.tick Grpc.InClose;
          Scenario.tick (Grpc.SessionSettled (Grpc.AcqOk 0 false false false)) ]
        ++ [ Scenario.tick (Grpc.OutResponse [ (":status", Headers.HStr "200") ]);
             Scenario.tick (Grpc.OutData "ok") ])
       Scenario.awaiting).2.
Proof.
  destruct (abort_before_bridge_leaks (Scenario.resolve (Some "shard-1"))
              Scenario.endpoints Scenario.URL_host "r-1" 1000%Z
              Scenario.awaiting
              (Scenario.tick Grpc.InAborted) (Scenario.tick Grpc.InClose)
              (Scenario.tick (Grpc.SessionSettled (Grpc.AcqOk 0 false false false)))
              [ Scenario.tick (Grpc.OutResponse [ (":status", Headers.HStr "200") ]);
                Scenario.tick (Grpc.OutData "ok") ]
              Scenario.cached "http://h1:9" false 0 false "h1:9"
              eq_refl eq_refl eq_refl eq_refl (or_intror eq_refl) eq_refl)
    as (_ & H1 & _ & H2 & H3 & H4).
  - repeat constructor.
  - split; [exact H1|]. split; [exact H2|]. split; [exact H3|exact H4].
Defined.

Lemma reset_classification_witness :
  (Pool.step (Pool.SessionError 0 "ECONNRESET") Scenario.establishedPool).2 = [] ∧
  Pool.sessions
    (Pool.step (Pool.SessionError 0 "ECONNRESET") Scenario.establishedPool).1
  = delete "http://h1:9" (Pool.sessions Scenario.establishedPool) ∧
  Pool.settled
    (Pool.step (Pool.SessionError 0 "ECONNRESET") Scenario.connectingPool).1 !! 0
  = Some (Pool.Rejected (Fx.ErrCode "ECONNRESET")) ∧
  Fx.statuses
    (Scenario.run
       [ Scenario.tick
           (Grpc.SessionSettled (Grpc.AcqFail (Fx.ErrCode "ECONNRESET"))) ]
       Scenario.awaiting).2 = [ 503%N ].
Proof.
  pose (established :=
          {| Pool.target := "http://h1:9"; Pool.connecting := false;
             Pool.closed := false; Pool.destroyed := false; Pool.creator := 0;
             Pool.timeout := false; Pool.pingInterval := true;
             Pool.onConnect := []; Pool.onError := [] |}).
  pose (connecting :=
          {| Pool.target := "http://h1:9"; Pool.connecting := true;
             Pool.closed := false; Pool.destroyed := false; Pool.creator := 0;
             Pool.timeout := true; Pool.pingInterval := false;
             Pool.onConnect := []; Pool.onError := [] |}).
  pose proof (reset_classification (Scenario.resolve (Some "shard-1"))
                Scenario.endpoints Scenario.URL_host "r-1" 1000%Z
                0 established "ECONNRESET" Scenario.establishedPool
                (Scenario.tick Grpc.InEnd) Scenario.cached "http://h1:9" false
                Scenario.awaiting eq_refl) as (Hest & _).
  pose proof (reset_classification (Scenario.resolve (Some "shard-1"))
                Scenario.endpoints Scenario.URL_host "r-1" 1000%Z
                0 connecting "ECONNRESET" Scenario.connectingPool
                (Scenario.tick
                   (Grpc.SessionSettled (Grpc.AcqFail (Fx.ErrCode "ECONNRESET"))))
                Scenario.cached "http://h1:9" false
                Scenario.awaiting eq_refl) as (_ & Hconn).
  destruct (Hest eq_refl) as (_ & Hfx & Hsessions & _).
  destruct (Hconn eq_refl) as (_ & _ & Hrejected & H503).
  split; [exact Hfx|].
  split; [exact Hsessions|].
  split; [exact (Hrejected eq_refl)|].
  exact (proj1 (H503 eq_refl eq_refl eq_refl eq_refl eq_refl eq_refl)).
Defined.

(** C5, at the input where the code departs from it.  The token resolves
    to tenant [t1] on [shard-1], whose endpoint is [http://h1:9], and the
    request target is the scheme-relative reference
    [//evil.example/v1/logs].  The gateway builds the outbound request
    from [new URL(req.url, base)], so the request, with the tenant header
    and the body, goes to [evil.example] and not to the shard's endpoint.
    The streaming gateway, which opens its outbound stream on the session
    of the endpoint, has no such case. *)
Theorem scheme_relative_target_leaves_endpoint :
  let req := Scenario.requestTo "//evil.example/v1/logs"
               (Scenario.bearer "Bearer abc") in
  let r := Http.handle Scenario.URL1 Scenario.URL2
             (Scenario.resolve (Some "shard-1")) Scenario.endpoints
             Scenario.clk Scenario.up req ∅ in
  r.1 !! "5f2c" = Some Scenario.cached ∧
  Shard.pickShardEndpoint "shard-1" Scenario.endpoints = Some "http://h1:9" ∧
  Fx.forwards r.2
  = [ Fx.HttpRequest
        {| Fx.protocol := "http:"; Fx.hostname := "evil.example"; Fx.port := "";
           Fx.method := Some "POST"; Fx.path := "/v1/logs";
           Fx.headers :=
             [ ("host", Headers.HStr "evil.example");
               ("authorization", Headers.HStr "Bearer abc");
               ("x-hdx-team-id", Headers.HStr "t1") ] |};
      Fx.ProxyWrite "payload"; Fx.ProxyEnd ].
Proof. vm_compute. by split_and!. Qed.

(** ** Connection pool: the branch that awaits a handshake *)
Section PoolInvariant.
Import Fx Pool.

Lemma inv_init : pool_inv init.
Proof. split; intros ?? H; simpl in H; by rewrite lookup_empty in H. Qed.

Lemma inv_same st st' :
  sessions st' = sessions st → heap st' = heap st →
  nextSession st' = nextSession st → pool_inv st → pool_inv st'.
Proof. unfold pool_inv. by intros -> -> ->. Qed.

Lemma inv_update sid f st : calm f → pool_inv st → pool_inv (update sid f st).
Proof.
  intros Hf [Hfresh Hreg]. split; simpl.
  - intros sid' s' [(_ & s & Hs & _)|[_ Hs]]%lookup_alter_Some; eauto.
  - intros t sid' (s & Hs & Hc)%Hreg.
    destruct (decide (sid = sid')) as [->|Hne].
    + exists (f s). rewrite lookup_alter_eq, Hs. split; [done|].
      destruct (connecting (f s)) eqn:E; [|done]. apply Hf in E. congruence.
    + exists s. by rewrite lookup_alter_ne.
Qed.

Lemma inv_delete t st : pool_inv st → pool_inv (with_sessions (delete t) st).
Proof.
  intros [Hfresh Hreg]. split; simpl; [done|].
  intros t' sid [_ H]%lookup_delete_Some. eauto.
Qed.

Lemma calm_set_pingInterval b : calm (set_pingInterval b).
Proof. by intros s. Qed.

Lemma calm_set_timeout b : calm (set_timeout b).
Proof. by intros s. Qed.

Lemma calm_set_destroyed : calm set_destroyed.
Proof. by intros s. Qed.

Lemma calm_set_closed : calm set_closed.
Proof. by intros s. Qed.

Lemma calm_set_listeners c e : calm (λ s, set_listeners (c s) (e s) s).
Proof. by intros s. Qed.

Lemma calm_established : calm (set_connecting false).
Proof. by intros s. Qed.

Lemma inv_clearRegisteredPing t st :
  pool_inv st → pool_inv (clearRegisteredPing t st).
Proof.
  intros H. unfold clearRegisteredPing.
  destruct (sessionPingIntervals st !! t) as [owner|]; [|done].
  apply (inv_same (update owner (set_pingInterval false) st)); [done..|].
  apply inv_update; [apply calm_set_pingInterval|done].
Qed.

Lemma inv_evict t st : pool_inv st → pool_inv (evict t st).
Proof. intros H. by apply inv_clearRegisteredPing, inv_delete. Qed.

Lemma inv_settle p r st : pool_inv st → pool_inv (settle p r st).
Proof. by apply inv_same. Qed.

Lemma inv_notify ps r st : pool_inv st → pool_inv (notify ps r st).1.
Proof.
  unfold notify. simpl. revert st.
  induction ps as [|p ps IH]; intros st H; simpl; [done|].
  apply IH, inv_settle. by eapply inv_same; [..|exact H].
Qed.

Lemma inv_create b t p st : pool_inv st → pool_inv (create b t p st).1.
Proof.
  intros [Hfresh Hreg]. unfold create. destruct b; simpl.
  { by apply inv_settle. }
  split; simpl.
  - intros sid s [[<- _]|[_ H]]%lookup_insert_Some; [lia|].
    apply Hfresh in H. lia.
  - intros t' sid (s & Hs & Hc)%Hreg. exists s. split; [|done].
    rewrite lookup_insert_ne; [done|]. apply Hfresh in Hs. lia.
Qed.

(** In a reachable state a call never takes the branch that awaits the
    handshake of a registered session: it leaves no timer of a waiting
    call behind. *)
Lemma getClientSession_never_waits b t st :
  pool_inv st →
  pool_inv (getClientSession b t st).1.2 ∧
  waitTimeouts (getClientSession b t st).1.2 = waitTimeouts st.
Proof.
  intros H. pose proof H as [Hfresh Hreg].
  unfold getClientSession. cbn [sessions heap].
  match goal with |- context [create b t ?p ?s0] =>
    assert (pool_inv s0) as H0 by (by eapply inv_same; [..|exact H]);
    pose proof (inv_create b t p s0 H0) as Hc;
    assert (waitTimeouts (create b t p s0).1 = waitTimeouts st) as Hw
      by (unfold create; by destruct b)
  end.
  destruct (sessions st !! t) as [sid|] eqn:Ht; cbn [mbind option_bind];
    [|by destruct (create _ _ _ _)].
  destruct (Hreg t sid Ht) as (s & Hs & Hconn). rewrite Hs. cbn [fmap option_fmap option_map].
  destruct (negb (closed s) && negb (destroyed s)) eqn:Hlive;
    [|by destruct (create _ _ _ _)].
  apply andb_true_iff in Hlive as [Hc1 Hd1].
  apply negb_true_iff in Hc1, Hd1. rewrite Hc1, Hd1, Hconn. cbn [orb fst snd].
  split; [|done]. apply inv_settle. by eapply inv_same; [..|exact H].
Qed.

Lemma keeps_refl st : keeps st st.
Proof. by split. Qed.

Lemma keeps_trans st1 st2 st3 : keeps st1 st2 → keeps st2 st3 → keeps st1 st3.
Proof. intros [H1 H2] [H3 H4]. split; eauto. Qed.

Lemma keeps_update sid f st : calm f → keeps st (update sid f st).
Proof. intros Hf. split; [by apply inv_update|done]. Qed.

Lemma keeps_settle p r st : keeps st (settle p r st).
Proof. split; [apply inv_settle|done]. Qed.

Lemma keeps_intervals f st : keeps st (with_intervals f st).
Proof. split; [by apply inv_same|done]. Qed.

Lemma keeps_delete t st : keeps st (with_sessions (delete t) st).
Proof. split; [apply inv_delete|done]. Qed.

Lemma keeps_evict t st : keeps st (evict t st).
Proof.
  split; [apply inv_evict|]. unfold evict, clearRegisteredPing. simpl.
  by destruct (_ !! t).
Qed.

Lemma keeps_expire p st : keeps st (with_waitTimeouts (delete p) st).
Proof.
  split; [by apply inv_same|]. simpl. by intros q t [_ H]%lookup_delete_Some.
Qed.

Lemma keeps_notify ps r st :
  keeps st (foldl (λ st p, settle p r (with_waitTimeouts (delete p) st)) st ps).
Proof.
  revert st; induction ps as [|p ps IH]; intros st; simpl; [apply keeps_refl|].
  eapply keeps_trans; [|apply IH].
  eapply keeps_trans; [apply keeps_expire|apply keeps_settle].
Qed.

(** A session is entered into [sessions] once it is past its handshake. *)
Lemma keeps_register t sid st :
  (∃ s, heap st !! sid = Some s ∧ connecting s = false) →
  keeps st (with_sessions <[t := sid]> st).
Proof.
  intros Hs. split; [|done]. intros [Hfresh Hreg]. split; simpl; [done|].
  intros t' sid' [[_ <-]|[_ H]]%lookup_insert_Some; eauto.
Qed.

Ltac calm_now :=
  first [ apply calm_set_pingInterval | apply calm_set_timeout
        | apply calm_set_destroyed | apply calm_set_closed
        | apply calm_established | by intros ? ].

Ltac keeps_chain :=
  repeat first
    [ apply keeps_refl
    | eapply keeps_trans;
      [|first [ apply keeps_update; calm_now | apply keeps_settle
              | apply keeps_intervals | apply keeps_delete | apply keeps_evict
              | apply keeps_expire | apply keeps_notify ]] ].

Lemma keeps_step e st : pool_inv st → keeps st (step e st).1.
Proof.
  intros H. destruct e as [t b|sid|sid code|sid|sid|p|sid r|sid|sid]; cbn [step].
  - pose proof (getClientSession_never_waits b t st H) as [H1 H2].
    destruct (getClientSession b t st) as [[p st'] fx]. cbn [fst snd] in *.
    split; [done|]. by rewrite H2.
  - destruct (heap st !! sid) as [s|] eqn:Hs; [|apply keeps_refl].
    destruct (connecting s); [|apply keeps_refl].
    unfold onConnectEvent, notify. destruct (destroyed s || closed s);
      cbn [fst snd]; [keeps_chain|].
    eapply keeps_trans; [|apply keeps_update; by intros ?].
    eapply keeps_trans; [|apply keeps_notify].
    eapply keeps_trans; [|apply keeps_settle].
    eapply keeps_trans; [|apply keeps_intervals].
    eapply keeps_trans; [|apply keeps_register]; [keeps_chain|].
    exists (set_pingInterval true (set_timeout false (set_connecting false s))).
    split; [|done]. simpl. by rewrite !lookup_alter_eq, Hs.
  - destruct (heap st !! sid) as [s|] eqn:Hs; [|apply keeps_refl].
    unfold onErrorEvent, notify.
    destruct (connecting s); cbn [fst snd]; keeps_chain.
  - destruct (heap st !! sid) as [s|] eqn:Hs; [|apply keeps_refl].
    unfold onCloseEvent. cbn [fst snd]. keeps_chain.
  - destruct (heap st !! sid) as [s|] eqn:Hs; [|apply keeps_refl].
    destruct (timeout s); [|apply keeps_refl].
    unfold onConnectTimeout. destruct (negb (destroyed s)); cbn [fst snd];
      keeps_chain.
  - destruct (waitTimeouts st !! p) as [t|]; [|apply keeps_refl].
    cbn [fst snd]. keeps_chain.
  - destruct (heap st !! sid) as [s|] eqn:Hs; [|apply keeps_refl].
    destruct (pingInterval s); [|apply keeps_refl].
    unfold onPingTick. destruct (destroyed s || closed s); [cbn; keeps_chain|].
    destruct r; cbn [fst snd]; keeps_chain.
  - cbn [fst]. apply keeps_update, calm_set_closed.
  - cbn [fst]. apply keeps_update, calm_set_destroyed.
Qed.

Lemma keeps_run es st : pool_inv st → keeps st (run es st).1.
Proof.
  revert st; induction es as [|e es IH]; intros st H; simpl; [apply keeps_refl|].
  pose proof (keeps_step e st H) as H1.
  destruct (step e st) as [st1 fx1]. cbn [fst] in H1.
  pose proof (IH st1 (proj1 H1 H)) as H2.
  destruct (run es st1) as [st2 fx2]. by apply (keeps_trans _ st1).
Qed.

(** Whatever the event loop has delivered since the gateway started, a
    session found in [sessions] is past its handshake, so that no call
    of [getClientSession] has ever awaited an in-flight attempt. *)
Lemma no_call_ever_waits es :
  pool_inv (run es init).1 ∧ waitTimeouts (run es init).1 = ∅.
Proof.
  pose proof (keeps_run es init inv_init) as [H1 H2].
  split; [apply H1, inv_init|].
  apply map_eq. intros p. rewrite lookup_empty.
  destruct (waitTimeouts (run es init).1 !! p) as [t|] eqn:E; [|done].
  apply H2 in E. simpl in E. by rewrite lookup_empty in E.
Qed.

(** C2, as the code has it.  [n] calls of [getClientSession] for an
    endpoint that no session is registered for, made before any of the
    connections is established, open [n] connections: a session is
    entered into [sessions] only by its ['connect'] listener, so the
    later calls find no entry to wait on.  For the same reason the branch
    that awaits the handshake of a registered session is never taken,
    whatever events the pool has seen. *)
Theorem concurrent_acquires_connect_each
    (n : nat) (endpoint : string) (es : list Event) :
  attempts endpoint (run (replicate n (Acquire endpoint false)) init).2 = n ∧
  waitTimeouts (run es init).1 = ∅.
Proof.
  split; [by apply acquires_unregistered|apply no_call_ever_waits].
Qed.

End PoolInvariant.

(* ===================================================================== *)
(** * Part III: further properties                                        *)
(* ===================================================================== *)

Section TokenMore.
Import Headers.

Lemma get_Some_key k h v : get k h = Some v → k ∈ keys h.
Proof.
  induction h as [|[k' v'] h IH]; [done|].
  change (get k ((k', v') :: h)) with (if String.eqb k k' then Some v' else get k h).
  destruct (String.eqb_spec k k') as [->|Hne].
  - intros _. by left.
  - intros H. right. by apply IH.
Qed.

Lemma key_get_Some k h : k ∈ keys h → ∃ v, get k h = Some v.
Proof.
  induction h as [|[k' v'] h IH]; [by intros ?%elem_of_nil|].
  change (get k ((k', v') :: h)) with (if String.eqb k k' then Some v' else get k h).
  intros Hk. destruct (String.eqb_spec k k') as [->|Hne]; [by eexists|].
  apply IH. apply elem_of_cons in Hk as [Hk|Hk]; [done|exact Hk].
Qed.

(** X1.  The lookup of the Authorization header finds it under any casing
    of its name: the result is [undefined] exactly when no key of the
    headers lower-cases to [authorization]. *)
Theorem getAuthHeader_None_iff (headers : Headers.t) :
  getAuthHeader headers = None ↔ no_authorization headers.
Proof.
  split; [|apply getAuthHeader_absent].
  intros Hn key Hk. destruct (is_authorization key) eqn:Ha; [|done]. exfalso.
  unfold getAuthHeader in Hn.
  destruct (from_option truthy false (get "authorization" headers)) eqn:Hd.
  - by destruct (get "authorization" headers).
  - destruct (List.find is_authorization (keys headers)) as [k'|] eqn:E.
    + apply List.find_some in E as [Hin _].
      apply list_elem_of_In, key_get_Some in Hin as [v Hv]. congruence.
    + rewrite (List.find_none _ _ E key) in Ha; [done|]. by apply list_elem_of_In.
Qed.

(** X2.  A request that carries the Authorization header under one key, in
    whatever casing, has the value of that key returned. *)
Theorem getAuthHeader_any_casing (headers : Headers.t) (key : string)
    (v : HeaderValue) :
  is_authorization key = true →
  get key headers = Some v →
  (∀ k, k ∈ keys headers → is_authorization k = true → k = key) →
  getAuthHeader headers = Some v.
Proof.
  intros Ha Hv Hu. unfold getAuthHeader.
  assert (List.find is_authorization (keys headers) = Some key) as Hf.
  { destruct (List.find is_authorization (keys headers)) as [k'|] eqn:E.
    - apply List.find_some in E as [Hin Hk]. f_equal. apply Hu; [|done].
      by apply list_elem_of_In.
    - rewrite (List.find_none _ _ E key) in Ha; [done|].
      apply list_elem_of_In. by apply (get_Some_key _ _ v). }
  destruct (get "authorization" headers) as [d|] eqn:Hd; simpl.
  - assert ("authorization" = key) as <-.
    { apply Hu; [by apply (get_Some_key _ _ d)|done]. }
    rewrite Hf. destruct (truthy d); congruence.
  - by rewrite Hf.
Qed.

End TokenMore.

Section TrimFacts.

Lemma trimEnd_idem s : Js.trimEnd (Js.trimEnd s) = Js.trimEnd s.
Proof.
  induction s as [|c s IH]; [done|]. simpl.
  destruct (Js.trimEnd s) as [|d r] eqn:E.
  - destruct (Js.is_space c) eqn:Hc; [done|]. simpl. by rewrite Hc.
  - simpl in *. by rewrite IH.
Qed.

(** [s] does not begin with white space. *)
Lemma trimStart_head s :
  match Js.trimStart s with
  | String c _ => Js.is_space c = false
  | EmptyString => True
  end.
Proof.
  induction s as [|c s IH]; simpl; [done|].
  by destruct (Js.is_space c) eqn:Hc.
Qed.

Lemma trimStart_id c s : Js.is_space c = false → Js.trimStart (String c s) = String c s.
Proof. simpl. by intros ->. Qed.

Lemma trimEnd_head c s :
  Js.is_space c = false → ∃ r, Js.trimEnd (String c s) = String c r.
Proof.
  intros Hc. simpl. destruct (Js.trimEnd s); rewrite ?Hc; by eexists.
Qed.

Lemma trim_idem s : Js.trim (Js.trim s) = Js.trim s.
Proof.
  unfold Js.trim. pose proof (trimStart_head s) as H.
  destruct (Js.trimStart s) as [|c u]; [done|].
  pose proof (trimEnd_idem (String c u)) as Hi.
  destruct (trimEnd_head c u H) as [r Hr]. rewrite Hr in Hi |- *.
  by rewrite trimStart_id.
Qed.

Lemma trimEnd_no_space s : no_space s = true → Js.trimEnd s = s.
Proof.
  induction s as [|c s IH]; [done|]. unfold no_space. simpl.
  intros [Hc Hs]%andb_true_iff. rewrite (IH Hs).
  apply negb_true_iff in Hc. rewrite Hc. by destruct s.
Qed.

Lemma trim_no_space s : no_space s = true → Js.trim s = s.
Proof.
  intros H. unfold Js.trim.
  destruct s as [|c s]; [done|].
  rewrite trimStart_id; [by apply trimEnd_no_space|].
  unfold no_space in H. simpl in H. apply andb_true_iff in H as [Hc _].
  by apply negb_true_iff in Hc.
Qed.

Lemma all_app p s1 s2 : Js.all p (s1 +:+ s2) = Js.all p s1 && Js.all p s2.
Proof. induction s1 as [|c s1 IH]; simpl; [done|]. by rewrite IH, andb_assoc. Qed.

End TrimFacts.

Section BearerFacts.
Import Headers.

Lemma line_terminator_space c :
  Js.is_line_terminator c = true → Js.is_space c = true.
Proof. destruct c as [[] [] [] [] [] [] [] []]; vm_compute; congruence. Qed.

Lemma dot_plus_end_no_space t :
  Js.truthy t = true → no_space t = true → dot_plus_end t = Some t.
Proof.
  intros Ht Hs. unfold dot_plus_end. rewrite Ht. simpl.
  assert (Js.all (λ c, negb (Js.is_line_terminator c)) t = true) as ->; [|done].
  revert Hs. clear Ht. unfold no_space. induction t as [|c t IH]; simpl; [done|].
  intros [Hc Hs]%andb_true_iff. rewrite (IH Hs), andb_true_r.
  destruct (Js.is_line_terminator c) eqn:E; [|done].
  by rewrite (line_terminator_space c E) in Hc.
Qed.

Lemma spaces_then_group_no_space t :
  no_space t = true → spaces_then_group t = None.
Proof.
  destruct t as [|c t]; [done|]. unfold no_space. simpl.
  intros [Hc _]%andb_true_iff. apply negb_true_iff in Hc. by rewrite Hc.
Qed.

Lemma spaces_then_group_token ws t :
  Js.truthy ws = true → Js.all Js.is_space ws = true →
  Js.truthy t = true → no_space t = true →
  spaces_then_group (ws +:+ t) = Some t.
Proof.
  intros Hw Hs Ht Hn. induction ws as [|c ws IH]; [done|].
  simpl in Hs. apply andb_true_iff in Hs as [Hc Hs].
  change (spaces_then_group (String c ws +:+ t))
    with (if Js.is_space c then
            match spaces_then_group (ws +:+ t) with
            | Some g => Some g
            | None => dot_plus_end (ws +:+ t)
            end
          else None).
  rewrite Hc. destruct ws as [|d ws].
  - change ("" +:+ t) with t.
    by rewrite spaces_then_group_no_space, dot_plus_end_no_space.
  - by rewrite IH.
Qed.

Lemma match_bearer_no_space t : no_space t = true → match_bearer t = None.
Proof.
  intros Hn. destruct t as [|c t]; [done|].
  unfold match_bearer. destruct (Ascii.eqb c "B" || Ascii.eqb c "b"); [|done].
  destruct (Js.strip_prefix "earer" t) as [r|] eqn:E; [|done].
  apply strip_prefix_Some in E as ->.
  apply spaces_then_group_no_space.
  unfold no_space in *. simpl in Hn. apply andb_true_iff in Hn as [_ Hn].
  rewrite all_app in Hn. by apply andb_true_iff in Hn as [_ Hn].
Qed.

(** X3.  A token that is extracted has no white space at either end: it is
    its own [trim]. *)
Theorem getBearerToken_trimmed (authHeader : option HeaderValue) (t : string) :
  getBearerToken authHeader = Some t → Js.trim t = t.
Proof.
  unfold getBearerToken.
  destruct (match authHeader with
            | Some (HArr l) => head l
            | Some (HStr s) => Some s
            | None => None
            end) as [h|]; [|done].
  destruct (Js.truthy h); simpl; [|done].
  assert ((if Js.truthy (Js.trim h) then Some (Js.trim h) else None) = Some t →
          Js.trim t = t) as Hfall.
  { destruct (Js.truthy (Js.trim h)); [|done]. intros [= <-]. apply trim_idem. }
  destruct (match_bearer h) as [m1|]; [|done].
  destruct (Js.truthy m1); [|done].
  intros [= <-]. apply trim_idem.
Qed.

Lemma getBearerToken_prefixed (c : ascii) (ws t : string) :
  Ascii.eqb c "B" || Ascii.eqb c "b" = true →
  Js.truthy ws = true → Js.all Js.is_space ws = true →
  Js.truthy t = true → no_space t = true →
  getBearerToken (Some (HStr (String c ("earer" +:+ ws +:+ t)))) = Some t.
Proof.
  intros Hc Hw Hs Ht Hn. unfold getBearerToken.
  change (Js.truthy (String c _)) with true. cbn [negb].
  unfold match_bearer. rewrite Hc, strip_prefix_app.
  rewrite spaces_then_group_token by done.
  by rewrite Ht, trim_no_space.
Qed.

(** X4.  A token without white space is recovered from [Bearer <token>] and
    [bearer <token>], whatever white space separates the two, from the
    first element of an array value, and from a header value that is
    the bare token. *)
Theorem getBearerToken_recovers (ws t : string) (rest : list string) :
  Js.truthy ws = true → Js.all Js.is_space ws = true →
  Js.truthy t = true → no_space t = true →
  getBearerToken (Some (HStr ("Bearer" +:+ ws +:+ t))) = Some t ∧
  getBearerToken (Some (HStr ("bearer" +:+ ws +:+ t))) = Some t ∧
  getBearerToken (Some (HArr (("Bearer" +:+ ws +:+ t) :: rest))) = Some t ∧
  getBearerToken (Some (HStr t)) = Some t.
Proof.
  intros Hw Hs Ht Hn. split_and!.
  - by apply (getBearerToken_prefixed "B").
  - by apply (getBearerToken_prefixed "b").
  - rewrite getBearerToken_array. by apply (getBearerToken_prefixed "B").
  - unfold getBearerToken. rewrite Ht. cbn [negb].
    by rewrite match_bearer_no_space, trim_no_space, Ht.
Qed.

End BearerFacts.

Section AuthMore.
Import Auth Fx.

Lemma authenticateToken_expires_by resolve now bound token cache :
  (now ≤ bound)%Z →
  expires_by bound cache →
  expires_by bound (authenticateToken resolve now token cache).1.2.
Proof.
  intros Hle H. unfold authenticateToken.
  destruct (resolve token) as [|[res|]]; [done| |done].
  destruct (Js.truthy (tokenHash res)); simpl; [|done].
  assert (expires_by bound
            (<[tokenHash res := {| teamId := r_teamId res;
                                   assignedShard := r_assignedShard res;
                                   expiresAt := now + TTL |}]> cache)) as Hf.
  { intros h c. destruct (decide (h = tokenHash res)) as [->|Hne].
    - rewrite lookup_insert_eq. intros [= <-]. simpl. lia.
    - rewrite lookup_insert_ne by done. apply H. }
  destruct (cache !! tokenHash res) as [c|]; [|done].
  by destruct (now <? expiresAt c)%Z.
Qed.

Lemma afterCalls_expires_by resolve calls bound cache :
  Forall (λ c, (c.1 ≤ bound)%Z) calls →
  expires_by bound cache →
  expires_by bound (afterCalls resolve calls cache).
Proof.
  revert cache. induction calls as [|[t tok] calls IH]; intros cache Hc H; [done|].
  apply Forall_cons in Hc as [Ht Hc]. simpl in *.
  apply IH; [done|]. by apply authenticateToken_expires_by.
Qed.

Lemma authenticateToken_unexpired resolve now token cache a cache' tr :
  authenticateToken resolve now token cache = (Return (Some a), cache', tr) →
  (now < expiresAt a)%Z.
Proof.
  unfold authenticateToken.
  destruct (resolve token) as [|[res|]]; [done| |done].
  destruct (Js.truthy (tokenHash res)); simpl; [|done].
  destruct (cache !! tokenHash res) as [c|].
  - destruct (now <? expiresAt c)%Z eqn:E.
    + intros [= <- _ _]. by apply Z.ltb_lt.
    + intros [= <- _ _]. simpl. unfold TTL. lia.
  - intros [= <- _ _]. simpl. unfold TTL. lia.
Qed.

(** X5.  A record handed out at [now] is not expired, and was written at most
    one TTL (60 s) before: no record is served for longer than that,
    provided no earlier call read a later clock. *)
Theorem authenticateToken_within_ttl
    (resolve : Resolver) (calls : list (Z * string)) (now : Z) (token : string)
    (a : CachedAuth) (cache' : gmap string CachedAuth) (tr : list Effect) :
  Forall (λ c, (c.1 ≤ now)%Z) calls →
  authenticateToken resolve now token (afterCalls resolve calls ∅)
    = (Return (Some a), cache', tr) →
  (now < expiresAt a ≤ now + 60000)%Z.
Proof.
  intros Hc Ha. split; [by eapply authenticateToken_unexpired|].
  pose proof (afterCalls_expires_by resolve calls now ∅ Hc) as Hb.
  pose proof (authenticateToken_expires_by resolve now now token _ (Z.le_refl _)
                (Hb ltac:(done))) as He.
  rewrite Ha in He. simpl in He.
  apply authenticateToken_cached in Ha as (res & _ & _ & Hl).
  apply (He _ _ Hl).
Qed.

(** X6.  A call touches at most the cache entry under the hash the resolver
    returned: it removes nothing, an unsuccessful call changes nothing
    and marks no token as used. *)
Theorem authenticateToken_frame
    (resolve : Resolver) (now : Z) (token : string)
    (cache : gmap string CachedAuth) :
  let r := authenticateToken resolve now token cache in
  (∀ h, is_Some (cache !! h) → is_Some (r.1.2 !! h)) ∧
  (∀ h res, resolve token = Fulfilled (Some res) → h ≠ tokenHash res →
     r.1.2 !! h = cache !! h) ∧
  ((∀ a, r.1.1 ≠ Return (Some a)) → r.1.2 = cache ∧ r.2 = [ ResolveToken token ]).
Proof.
  unfold authenticateToken.
  destruct (resolve token) as [|[res|]]; [done| |done].
  destruct (Js.truthy (tokenHash res)); simpl; [|done].
  assert (∀ h c, is_Some (cache !! h) → is_Some (<[tokenHash res := c]> cache !! h))
    as Hk.
  { intros h c Hh. destruct (decide (h = tokenHash res)) as [->|Hne].
    - by rewrite lookup_insert_eq.
    - by rewrite lookup_insert_ne. }
  destruct (cache !! tokenHash res) as [c|] eqn:Hc;
    [destruct (now <? expiresAt c)%Z|]; simpl; split_and!;
    try done; try (intros; by apply Hk);
    try (intros h res' [= <-] Hne; by rewrite lookup_insert_ne);
    try (intros H; by destruct (H c));
    intros H; by edestruct H.
Qed.

(** X7.  An entry that has reached its expiry, the instant [expiresAt = now]
    included, is replaced by a new record that lives one TTL from now,
    and the token is marked as used. *)
Theorem authenticateToken_refreshes_expired
    (resolve : Resolver) (now : Z) (token : string)
    (cache : gmap string CachedAuth) (res : ResolvedToken) :
  resolve token = Fulfilled (Some res) →
  Js.truthy (tokenHash res) = true →
  (∀ c, cache !! tokenHash res = Some c → (expiresAt c ≤ now)%Z) →
  let result := {| teamId := r_teamId res;
                   assignedShard := r_assignedShard res;
                   expiresAt := now + 60000 |} in
  authenticateToken resolve now token cache
  = (Return (Some result), <[tokenHash res := result]> cache,
     [ ResolveToken token; MarkUsed (tokenId res) ]).
Proof.
  intros Hr Hh He. unfold authenticateToken. rewrite Hr, Hh. simpl.
  destruct (cache !! tokenHash res) as [c|]; [|done].
  specialize (He c eq_refl). by apply Z.ltb_ge in He as ->.
Qed.

End AuthMore.

Section HttpMore.
Import Fx Http.
Context (URL1 : string → option Url) (URL2 : string → Url → option Url).
Context (resolve : Auth.Resolver) (endpoints : list string).
Context (clk : Clock) (up : Upstream) (req : Request).

Abbreviation handle := (Http.handle URL1 URL2 resolve endpoints clk up req).
Abbreviation token := (Headers.getBearerToken (Headers.getAuthHeader (req_headers req))).

Lemma actions_app tr1 tr2 : actions (tr1 ++ tr2) = actions tr1 ++ actions tr2.
Proof. apply filter_app. Qed.

Lemma res_ends_app tr1 tr2 : res_ends (tr1 ++ tr2) = res_ends tr1 + res_ends tr2.
Proof. unfold res_ends. by rewrite filter_app, length_app. Qed.

Lemma res_body_app tr1 tr2 : res_body (tr1 ++ tr2) = res_body tr1 ++ res_body tr2.
Proof. apply omap_app. Qed.

Lemma authenticateToken_quiet_http now t cache :
  statuses (Auth.authenticateToken resolve now t cache).2 = [] ∧
  res_ends (Auth.authenticateToken resolve now t cache).2 = 0 ∧
  res_body (Auth.authenticateToken resolve now t cache).2 = [] ∧
  actions (Auth.authenticateToken resolve now t cache).2
  = (Auth.authenticateToken resolve now t cache).2.
Proof.
  unfold Auth.authenticateToken.
  destruct (resolve t) as [|[res|]]; [done| |done].
  destruct (Js.truthy _); simpl; [|done].
  destruct (cache !! _) as [c|]; [|done].
  by destruct (_ <? _)%Z.
Qed.

Lemma statuses_ResWrite body : statuses (ResWrite <$> body) = [].
Proof. by induction body. Qed.

Lemma statuses_ProxyWrite body : statuses (ProxyWrite <$> body) = [].
Proof. by induction body. Qed.

Lemma res_ends_ResWrite body : res_ends (ResWrite <$> body) = 0.
Proof. by induction body. Qed.

Lemma res_ends_ProxyWrite body : res_ends (ProxyWrite <$> body) = 0.
Proof. by induction body. Qed.

Lemma res_body_ResWrite body : res_body (ResWrite <$> body) = body.
Proof. induction body as [|c body IH]; [done|]. simpl. by f_equal. Qed.

Lemma res_body_ProxyWrite body : res_body (ProxyWrite <$> body) = [].
Proof. by induction body. Qed.

Lemma actions_ResWrite body : actions (ResWrite <$> body) = ResWrite <$> body.
Proof.
  induction body as [|c body IH]; [done|].
  rewrite fmap_cons. unfold actions in *. by rewrite filter_cons_True, IH.
Qed.

Lemma actions_ProxyWrite body : actions (ProxyWrite <$> body) = ProxyWrite <$> body.
Proof.
  induction body as [|c body IH]; [done|].
  rewrite fmap_cons. unfold actions in *. by rewrite filter_cons_True, IH.
Qed.

Ltac handle_cases cache :=
  unfold Http.handle;
  destruct (Headers.token_missing _) eqn:Hm;
  [| destruct (Auth.authenticateToken _ _ _ cache) as [[r cache'] calls] eqn:Ha;
     destruct r as [[auth|]|];
     [ destruct (Shard.pickShardEndpoint _ _) as [target|] eqn:Hp;
       cbn [from_option default id];
       [ destruct (Js.truthy target) eqn:Htt;
         [ destruct (URL1 target ≫= URL2 _) as [targetUrl|] eqn:Hu;
           [ destruct (request_throws _) eqn:Hrt | ] | ] | ]
     | | ] ].

Lemma reject_tally extra reason :
  res_ends (reject clk req extra reason) = 1 ∧
  res_body (reject clk req extra reason) = [].
Proof. unfold reject. by destruct (0 <? _)%N. Qed.

Lemma captured_tally auth :
  statuses (captured clk req auth) = [] ∧
  res_ends (captured clk req auth) = 0 ∧
  res_body (captured clk req auth) = [] ∧
  actions (captured clk req auth) = [].
Proof. unfold captured. by destruct (0 <? _)%N. Qed.

Lemma uncaught_app tr1 tr2 : uncaught (tr1 ++ tr2) = uncaught tr1 + uncaught tr2.
Proof. unfold uncaught. by rewrite filter_app, length_app. Qed.

Lemma uncaught_ResWrite body : uncaught (ResWrite <$> body) = 0.
Proof. by induction body. Qed.

Lemma uncaught_ProxyWrite body : uncaught (ProxyWrite <$> body) = 0.
Proof. by induction body. Qed.

Lemma relay_tally auth target :
  statuses (relay clk up auth target)
    = (if relayable up then [ relayed_status up ] else []) ∧
  res_ends (relay clk up auth target)
    = (if relayable up && completes up then 1 else 0) ∧
  res_body (relay clk up auth target)
    = (if relayable up then upstream_body up else []) ∧
  uncaught (relay clk up auth target) = (if relayable up then 0 else 1).
Proof.
  unfold relay, relayable, writeHead_rejected.
  destruct up as [sc hdrs body err|sc hdrs body|]; [| |done];
    cbn [relayed_status upstream_body completes];
    (destruct (writeHead_throws _); [done|]); cbn [negb andb];
    rewrite ?statuses_app, ?res_ends_app, ?res_body_app, ?uncaught_app,
      ?statuses_ResWrite, ?res_ends_ResWrite, ?res_body_ResWrite,
      ?uncaught_ResWrite;
    try destruct err; simpl; by rewrite ?app_nil_r.
Qed.

Ltac tally Ha :=
  cbn [fst snd];
  rewrite ?statuses_app, ?res_ends_app, ?res_body_app, ?forwards_app;
  rewrite ?reject_statuses, ?reject_forwards, ?(proj1 (reject_tally _ _)),
    ?(proj2 (reject_tally _ _)), ?statuses_ProxyWrite, ?res_ends_ProxyWrite,
    ?res_body_ProxyWrite, ?forwards_ProxyWrite, ?captured_forwards,
    ?relay_forwards,
    ?(proj1 (captured_tally _)), ?(proj1 (proj2 (captured_tally _))),
    ?(proj1 (proj2 (proj2 (captured_tally _)))),
    ?(proj1 (relay_tally _ _)), ?(proj1 (proj2 (relay_tally _ _))),
    ?(proj1 (proj2 (proj2 (relay_tally _ _))));
  try (match type of Ha with
       | Auth.authenticateToken ?r ?n ?t ?c = (_, _, ?calls) =>
           let H := fresh "Hq" in
           let F := fresh "Hf" in
           let H1 := fresh "Hq" in
           let H2 := fresh "Hq" in
           let H3 := fresh "Hq" in
           pose proof (authenticateToken_quiet_http n t c) as H;
           pose proof (authenticateToken_forwards r n t c) as F;
           rewrite Ha in H, F; cbn [snd] in H, F;
           destruct H as (H1 & H2 & H3 & _); rewrite ?H1, ?H2, ?H3, ?F
       end);
  unfold writeHead_logged.

Lemma relay_uncaught auth target :
  relayable up = false → Uncaught ∈ relay clk up auth target.
Proof.
  unfold relay, relayable, writeHead_rejected.
  destruct up as [sc hdrs body err|sc hdrs body|]; [| |done];
    cbn [relayed_status]; (destruct (writeHead_throws _); [|done]);
    intros _; apply elem_of_cons; right; by apply elem_of_cons; left.
Qed.


Lemma token_present (tok : option string) :
  Headers.token_missing tok = false → ∃ t, tok = Some t ∧ Js.truthy t = true.
Proof.
  destruct tok as [t|]; [|done]. simpl. intros H%negb_false_iff. by exists t.
Qed.

Lemma not_in_forwards e tr : forwards tr = [] → is_forward e = true → e ∉ tr.
Proof.
  intros Hf He Hin. assert (e ∈ forwards tr) as H.
  { unfold forwards. by apply list_elem_of_filter. }
  rewrite Hf in H. by apply elem_of_nil in H.
Qed.

(** X9.  Whatever request the handler sends to a shard, it sends on behalf of
    an authenticated record: [x-hdx-team-id] is that record's tenant,
    whatever the client put there, and method and every other header
    but [host] are the inbound ones, the Authorization header included. *)
Theorem forwarded_request_authenticated
    (cache : gmap string Auth.CachedAuth) (o : RequestOptions) :
  HttpRequest o ∈ (handle cache).2 →
  ∃ t auth,
    token = Some t ∧
    (Auth.authenticateToken resolve (authTime clk) t cache).1.1
      = Auth.Return (Some auth) ∧
    Headers.get "x-hdx-team-id" (headers o)
      = Some (Headers.HStr (Auth.teamId auth)) ∧
    method o = req_method req ∧
    ∀ k, k ≠ "host" → k ≠ "x-hdx-team-id" →
      Headers.get k (headers o) = Headers.get k (req_headers req).
Proof.
  intros Hin.
  assert (HttpRequest o ∈ forwards (handle cache).2) as Hf.
  { unfold forwards. by apply list_elem_of_filter. }
  revert Hf. clear Hin. handle_cases cache; tally Ha; simpl;
    try (intros H; unfold forwards, caught in H; simpl in H;
         by apply elem_of_nil in H).
  intros [[= ->]|Hin]%elem_of_cons.
  - destruct (token_present _ Hm) as (t & Ht & _). rewrite Ht in Ha |- *.
    cbn [default from_option id] in Ha. change (id t) with t in Ha.
    exists t, auth. rewrite Ha. split_and!; [done| done |apply get_set|done|].
    intros k Hk1 Hk2. cbn [headers proxyOptions].
    by rewrite !get_set_ne.
  - apply elem_of_app in Hin as [(c & [=] & _)%list_elem_of_fmap|Hin].
    by apply list_elem_of_singleton in Hin.
Qed.

Ltac enter Ht Htt Ha :=
  unfold Http.handle; rewrite Ht; cbn [Headers.token_missing default];
  rewrite Htt; cbn [negb from_option id]; change (id ?t) with t; rewrite Ha.

(** X10.  An authenticated request whose shard has no endpoint in the
    configured list, or an empty one, is answered with 503 and the body
    [no shard endpoint]; nothing is sent to any shard. *)
Theorem no_endpoint_503
    (cache cache' : gmap string Auth.CachedAuth) (t : string)
    (auth : Auth.CachedAuth) (calls : list Effect) :
  token = Some t →
  Js.truthy t = true →
  Auth.authenticateToken resolve (authTime clk) t cache
    = (Auth.Return (Some auth), cache', calls) →
  from_option Js.truthy false
    (Shard.pickShardEndpoint
       (Capture.shardOrDefault (Auth.assignedShard auth)) endpoints) = false →
  statuses (handle cache).2 = [ 503%N ] ∧
  forwards (handle cache).2 = [] ∧
  ResEnd (Some "no shard endpoint") ∈ (handle cache).2 ∧
  res_body (handle cache).2 = [].
Proof.
  intros Ht Htt Ha Hp. enter Ht Htt Ha. rewrite Hp. tally Ha.
  split_and!; [done..| |done]. set_solver.
Qed.

(** X11.  An exception inside the listener is answered with 500 and the body
    [error], and nothing is sent to a shard: so when the resolver's
    promise is rejected, which leaves the cache as it was, and when the
    [URL] constructor rejects the endpoint or the request target. *)
Theorem exception_500
    (cache cache' : gmap string Auth.CachedAuth) (t : string)
    (auth : Auth.CachedAuth) (calls : list Effect) (target : string) :
  token = Some t →
  Js.truthy t = true →
  (resolve t = Auth.Rejected →
     handle cache
     = (cache,
        [ incoming clk req (Headers.getAuthHeader (req_headers req));
          ResolveToken t; caught clk; WriteHead 500 None;
          ResEnd (Some "error") ])) ∧
  (Auth.authenticateToken resolve (authTime clk) t cache
     = (Auth.Return (Some auth), cache', calls) →
   Shard.pickShardEndpoint
     (Capture.shardOrDefault (Auth.assignedShard auth)) endpoints
     = Some target →
   Js.truthy target = true →
   URL1 target ≫= URL2 (urlOrRoot req) = None →
     statuses (handle cache).2 = [ 500%N ] ∧
     forwards (handle cache).2 = [] ∧
     ResEnd (Some "error") ∈ (handle cache).2).
Proof.
  intros Ht Htt. split.
  - intros Hr.
    assert (Auth.authenticateToken resolve (authTime clk) t cache
            = (Auth.Throw, cache, [ ResolveToken t ])) as Ha.
    { unfold Auth.authenticateToken. by rewrite Hr. }
    by enter Ht Htt Ha.
  - intros Ha Hp Hpt Hu. enter Ht Htt Ha. rewrite Hp.
    cbn [from_option default id]. rewrite Hpt, Hu. tally Ha.
    split_and!; [done..|]. set_solver.
Qed.

Lemma relay_writeHead auth target :
  relayable up = true →
  WriteHead (relayed_status up) (upstream_headers up) ∈ relay clk up auth target.
Proof.
  unfold relay, relayable, writeHead_logged.
  destruct up as [sc hdrs body err|sc hdrs body|];
    cbn [relayed_status upstream_headers].
  - destruct (writeHead_throws _); [done|]. intros _.
    apply elem_of_app; left. apply elem_of_cons; right. by apply elem_of_cons; left.
  - destruct (writeHead_throws _); [done|]. intros _.
    apply elem_of_app; left. apply elem_of_cons; right. by apply elem_of_cons; left.
  - intros _. apply elem_of_app; right. apply elem_of_app; left.
    apply elem_of_cons; right. by apply elem_of_cons; left.
Qed.


(** X13.  The handler's forwarding is [pipeHttp] written out in place: apart
    from log entries, what the handler does for an authenticated request
    is the resolver's calls followed by what [pipeHttp] does for the
    picked endpoint and the record's tenant; and where [pipeHttp] would
    throw, the handler answers 500. *)
Theorem pipeHttp_inlined
    (cache cache' : gmap string Auth.CachedAuth) (t : string)
    (auth : Auth.CachedAuth) (calls : list Effect) (target : string) :
  token = Some t →
  Js.truthy t = true →
  Auth.authenticateToken resolve (authTime clk) t cache
    = (Auth.Return (Some auth), cache', calls) →
  Shard.pickShardEndpoint
    (Capture.shardOrDefault (Auth.assignedShard auth)) endpoints
    = Some target →
  Js.truthy target = true →
  match pipeHttp URL1 URL2 up req target (Auth.teamId auth) (requestId clk) with
  | Some fx => actions (handle cache).2 = calls ++ actions fx
  | None => statuses (handle cache).2 = [ 500%N ]
  end.
Proof.
  intros Ht Htt Ha Hp Hpt. enter Ht Htt Ha. rewrite Hp.
  cbn [from_option default id]. rewrite Hpt. unfold pipeHttp.
  pose proof (authenticateToken_quiet_http (authTime clk) t cache) as Hq.
  rewrite Ha in Hq. cbn [snd] in Hq. destruct Hq as (_ & _ & _ & Hq).
  destruct (URL1 target ≫= URL2 (urlOrRoot req)) as [targetUrl|];
    cbn [mbind option_bind]; [|by tally Ha].
  change (request_throws _) with (request_throws (proxyOptions req auth targetUrl)).
  destruct (request_throws _); [by tally Ha|].
  cbn [snd]. rewrite !actions_app, Hq, !actions_ProxyWrite.
  rewrite (proj2 (proj2 (proj2 (captured_tally auth)))).
  unfold relay, writeHead_logged, writeHead_rejected. simpl.
  destruct (0 <? _)%N; destruct up as [sc hdrs body e|sc hdrs body|]; simpl;
    try destruct (writeHead_throws _); simpl;
    rewrite ?actions_app, ?actions_ProxyWrite, ?actions_ResWrite;
    try destruct e; simpl; by rewrite ?app_nil_r.
Qed.

End HttpMore.

Section PoolWf.
Import Fx Pool.

Lemma wf_init : pool_wf [] init.
Proof. split; intros ??; simpl; by rewrite ?lookup_empty. Qed.

Lemma wf_same ex st st' :
  sessions st' = sessions st → heap st' = heap st →
  nextSession st' = nextSession st → pool_wf ex st → pool_wf ex st'.
Proof. unfold pool_wf. by intros -> -> ->. Qed.

Lemma wf_weaken ex ex' st : ex ⊆ ex' → pool_wf ex st → pool_wf ex' st.
Proof.
  intros Hsub [Hh Hr]. split; [done|]. intros t sid Ht. apply Hr.
  intros Hin. by apply Ht, Hsub.
Qed.

Lemma wf_gentle ex sid f st :
  gentle f → pool_wf ex st → pool_wf ex (update sid f st).
Proof.
  intros Hf [Hh Hr]. split; simpl.
  - intros sid' s' [(_ & s & Hs & ->)|[_ Hs]]%lookup_alter_Some; [|eauto].
    destruct (Hh _ _ Hs) as [? Hu]. split; [done|]. by apply Hf.
  - intros t sid' Ht (s & Hs & Hl)%Hr; [|done].
    destruct (decide (sid = sid')) as [->|Hne].
    + exists (f s). rewrite lookup_alter_eq, Hs. split; [done|]. by apply Hf.
    + exists s. by rewrite lookup_alter_ne.
Qed.

(** Any update of a session leaves the rest of the pool sound, the
    entry of the session's own endpoint apart. *)
Lemma wf_steady ex sid s f st :
  steady f → heap st !! sid = Some s →
  pool_wf ex st → pool_wf (target s :: ex) (update sid f st).
Proof.
  intros Hf Hs [Hh Hr]. split; simpl.
  - intros sid' s' [(_ & s0 & Hs0 & ->)|[_ Hs0]]%lookup_alter_Some; [|eauto].
    destruct (Hh _ _ Hs0) as [? Hu]. split; [done|]. by apply Hf.
  - intros t sid' Ht Hreg. apply not_elem_of_cons in Ht as [Hne Ht].
    destruct (Hr t sid' Ht Hreg) as (s' & Hs' & Hl).
    exists s'. split; [|done]. rewrite lookup_alter_ne; [done|].
    intros <-. destruct Hl as [Htgt _]. congruence.
Qed.

(** An update of a session that is not registered anywhere. *)
Lemma wf_unregistered ex sid f st :
  steady f → (∀ t, t ∉ ex → sessions st !! t ≠ Some sid) →
  pool_wf ex st → pool_wf ex (update sid f st).
Proof.
  intros Hf Hun [Hh Hr]. split; simpl.
  - intros sid' s' [(_ & s0 & Hs0 & ->)|[_ Hs0]]%lookup_alter_Some; [|eauto].
    destruct (Hh _ _ Hs0) as [? Hu]. split; [done|]. by apply Hf.
  - intros t sid' Ht Hreg. destruct (Hr t sid' Ht Hreg) as (s' & Hs' & Hl).
    exists s'. split; [|done]. rewrite lookup_alter_ne; [done|].
    intros <-. by apply (Hun t).
Qed.

Lemma wf_delete ex t st :
  pool_wf (t :: ex) st → pool_wf ex (with_sessions (delete t) st).
Proof.
  intros [Hh Hr]. split; simpl; [done|].
  intros t' sid Ht [Hne H]%lookup_delete_Some. apply Hr; [|done].
  by apply not_elem_of_cons.
Qed.

Lemma gentle_set_pingInterval b : gentle (set_pingInterval b).
Proof. by intros s. Qed.

Lemma gentle_set_timeout : gentle (set_timeout false).
Proof. intros s. split; [|done]. by intros t (?&?&?). Qed.

Lemma gentle_established : gentle (set_connecting false).
Proof. intros s. split; [|done]. by intros t (?&?&?). Qed.

Lemma gentle_set_closed : gentle set_closed.
Proof. by intros s. Qed.

Lemma gentle_set_destroyed : gentle set_destroyed.
Proof. by intros s. Qed.

Lemma gentle_forget_connect : gentle (λ s, set_listeners [] (onError s) s).
Proof. intros s. split; [done|]. by intros [_ ?]. Qed.

Lemma gentle_forget_error : gentle (λ s, set_listeners (onConnect s) [] s).
Proof. intros s. split; [done|]. by intros [? _]. Qed.

Lemma steady_set_destroyed : steady set_destroyed.
Proof. by intros s. Qed.

Lemma wf_clearRegisteredPing ex t st :
  pool_wf ex st → pool_wf ex (clearRegisteredPing t st).
Proof.
  intros H. unfold clearRegisteredPing.
  destruct (sessionPingIntervals st !! t) as [owner|]; [|done].
  apply (wf_same _ (update owner (set_pingInterval false) st)); [done..|].
  apply wf_gentle; [apply gentle_set_pingInterval|done].
Qed.

Lemma wf_evict ex t st : pool_wf (t :: ex) st → pool_wf ex (evict t st).
Proof. intros H. by apply wf_clearRegisteredPing, wf_delete. Qed.

Lemma wf_settle ex p r st : pool_wf ex st → pool_wf ex (settle p r st).
Proof. by apply wf_same. Qed.

Lemma wf_intervals ex f st : pool_wf ex st → pool_wf ex (with_intervals f st).
Proof. by apply wf_same. Qed.

Lemma wf_create b t p st : pool_wf [] st → pool_wf [] (create b t p st).1.
Proof.
  intros [Hh Hr]. unfold create. destruct b; simpl.
  { by apply wf_settle. }
  split; simpl.
  - intros sid s [[<- <-]|[_ H]]%lookup_insert_Some; [split; [lia|done]|].
    apply Hh in H as [? ?]. split; [lia|done].
  - intros t' sid Ht (s & Hs & Hl)%Hr; [|done]. exists s. split; [|done].
    rewrite lookup_insert_ne; [done|]. apply Hh in Hs as [? _]. lia.
Qed.

Lemma wf_register ex t sid s st :
  heap st !! sid = Some s → live_for t s →
  pool_wf ex st → pool_wf ex (with_sessions <[t := sid]> st).
Proof.
  intros Hs Hl [Hh Hr]. split; simpl; [done|].
  intros t' sid' Ht [[<- <-]|[_ H]]%lookup_insert_Some; eauto.
Qed.

(** A session that is registered is registered under its own endpoint. *)
Lemma registered_own ex st sid s t :
  pool_wf ex st → heap st !! sid = Some s → t ∉ ex →
  sessions st !! t = Some sid → live_for t s.
Proof.
  intros [_ Hr] Hs Ht (s' & Hs' & Hl)%Hr; [|done]. congruence.
Qed.

(** A call for an endpoint with a registered session that passes the
    test is resolved with that session at once; nothing else changes but
    the promise. *)
Lemma getClientSession_registered b t sid s st :
  pool_wf [] st → sessions st !! t = Some sid →
  heap st !! sid = Some s → usable s = true →
  (getClientSession b t st).2 = [ Resolve (nextPromise st) sid ] ∧
  sessions (getClientSession b t st).1.2 = sessions st ∧
  heap (getClientSession b t st).1.2 = heap st ∧
  nextSession (getClientSession b t st).1.2 = nextSession st ∧
  nextPromise (getClientSession b t st).1.2 = S (nextPromise st).
Proof.
  intros H Ht Hs Hu.
  pose proof (registered_own [] st sid s t H Hs ltac:(apply not_elem_of_nil) Ht)
    as (_ & Hc & _).
  apply andb_true_iff in Hu as [Hcl%negb_true_iff Hd%negb_true_iff].
  unfold getClientSession. cbn [sessions heap]. rewrite Ht.
  cbn [mbind option_bind]. rewrite Hs. cbn [fmap option_fmap option_map].
  by rewrite Hc, Hd, Hcl.
Qed.

(** Any other call runs the rest of the executor: when no session is
    registered, and when the registered one fails the test. *)
Lemma getClientSession_creates b t st :
  pool_wf [] st →
  (∀ sid s, sessions st !! t = Some sid → heap st !! sid = Some s →
     usable s = false) →
  (getClientSession b t st).1.2
    = (create b t (nextPromise st)
         {| sessions := sessions st;
            sessionPingIntervals := sessionPingIntervals st;
            heap := heap st; settled := settled st;
            waitTimeouts := waitTimeouts st;
            nextSession := nextSession st;
            nextPromise := S (nextPromise st) |}).1 ∧
  (getClientSession b t st).2
    = (create b t (nextPromise st)
         {| sessions := sessions st;
            sessionPingIntervals := sessionPingIntervals st;
            heap := heap st; settled := settled st;
            waitTimeouts := waitTimeouts st;
            nextSession := nextSession st;
            nextPromise := S (nextPromise st) |}).2.
Proof.
  intros H Hun. unfold getClientSession. cbn [sessions heap].
  destruct (sessions st !! t) as [sid|] eqn:Ht; cbn [mbind option_bind];
    [|by destruct (create _ _ _ _)].
  destruct (heap st !! sid) as [s|] eqn:Hs;
    cbn [fmap option_fmap option_map]; [|by destruct (create _ _ _ _)].
  specialize (Hun sid s eq_refl Hs). unfold usable in Hun. rewrite Hun.
  by destruct (create _ _ _ _).
Qed.

(** The two cases of a call. *)
Lemma getClientSession_cases t st :
  pool_wf [] st →
  (∃ sid s, sessions st !! t = Some sid ∧ heap st !! sid = Some s ∧
            usable s = true) ∨
  (∀ sid s, sessions st !! t = Some sid → heap st !! sid = Some s →
     usable s = false).
Proof.
  intros H. destruct (sessions st !! t) as [sid|] eqn:Ht; [|by right].
  destruct (heap st !! sid) as [s|] eqn:Hs; [|right; congruence].
  destruct (usable s) eqn:Hu; [left; eauto|].
  right. intros sid' s' [= <-] Hs'. congruence.
Qed.

Lemma getClientSession_wf b t st :
  pool_wf [] st → pool_wf [] (getClientSession b t st).1.2.
Proof.
  intros H. destruct (getClientSession_cases t st H)
    as [(sid & s & Ht & Hs & Hu)|Hun].
  - pose proof (getClientSession_registered b t sid s st H Ht Hs Hu)
      as (_ & H1 & H2 & H3 & _).
    by apply (wf_same _ st).
  - rewrite (proj1 (getClientSession_creates b t st H Hun)).
    apply wf_create. by eapply wf_same; [..|exact H].
Qed.

Ltac gentle_now :=
  first [ apply gentle_set_pingInterval | apply gentle_set_timeout
        | apply gentle_established | apply gentle_forget_connect
        | apply gentle_forget_error | apply gentle_set_closed
        | apply gentle_set_destroyed ].

Ltac wf_chain :=
  repeat first
    [ assumption
    | apply wf_settle | apply wf_intervals
    | apply wf_gentle; [gentle_now|]
    | apply wf_evict ].

Lemma step_wf e st : pool_wf [] st → pool_wf [] (step e st).1.
Proof.
  intros H. destruct e as [t b|sid|sid code|sid|sid|p|sid r|sid|sid]; cbn [step].
  - pose proof (getClientSession_wf b t st H) as H1.
    by destruct (getClientSession b t st) as [[p st'] fx].
  - destruct (heap st !! sid) as [s|] eqn:Hs; [|done].
    destruct (connecting s) eqn:Hc; [|done].
    destruct (proj1 H sid s Hs) as [_ [Hoc Hoe]].
    unfold onConnectEvent. rewrite Hoc. cbn [notify foldl fmap list_fmap].
    destruct (destroyed s || closed s) eqn:Hd; cbn [fst snd]; [wf_chain|].
    apply orb_false_iff in Hd as [Hd Hcl].
    apply wf_gentle; [gentle_now|]. apply wf_settle, wf_intervals.
    eapply wf_register; [| |wf_chain].
    + simpl. by rewrite !lookup_alter_eq, Hs.
    + by split_and!.
  - destruct (heap st !! sid) as [s|] eqn:Hs; [|done].
    destruct (proj1 H sid s Hs) as [_ [Hoc Hoe]].
    unfold onErrorEvent. rewrite Hoe. cbn [notify foldl fmap list_fmap].
    assert (pool_wf [target s]
              (update sid (set_timeout false) (update sid set_destroyed st))) as H1.
    { apply wf_gentle; [gentle_now|].
      by apply (wf_steady [] sid s); [apply steady_set_destroyed|..]. }
    destruct (connecting s); cbn [fst snd]; wf_chain.
  - destruct (heap st !! sid) as [s|] eqn:Hs; [|done].
    unfold onCloseEvent. cbn [fst snd]. apply wf_evict.
    apply wf_gentle; [gentle_now|].
    by apply (wf_steady [] sid s); [apply steady_set_destroyed|..].
  - destruct (heap st !! sid) as [s|] eqn:Hs; [|done].
    destruct (timeout s) eqn:Ht; [|done].
    unfold onConnectTimeout.
    destruct (negb (destroyed s)); cbn [fst snd]; [|wf_chain].
    apply wf_settle, wf_unregistered; [apply steady_set_destroyed| |wf_chain].
    intros t _ Hreg. simpl in Hreg.
    pose proof (registered_own [] st sid s t H Hs ltac:(apply not_elem_of_nil) Hreg)
      as (_ & _ & Hto). congruence.
  - destruct (waitTimeouts st !! p) as [t|]; [|done].
    cbn [fst snd]. apply wf_settle. by eapply wf_same; [..|exact H].
  - destruct (heap st !! sid) as [s|] eqn:Hs; [|done].
    destruct (pingInterval s); [|done].
    unfold onPingTick. destruct (destroyed s || closed s); [cbn; wf_chain|].
    assert (pool_wf [] (with_sessions (delete (target s)) st)) as Hdel.
    { apply wf_delete. eapply wf_weaken; [|exact H]. by intros x ?%elem_of_nil. }
    destruct r; cbn [fst snd]; [done| |wf_chain].
    apply wf_unregistered; [apply steady_set_destroyed| |wf_chain].
    intros t _ Hreg. simpl in Hreg.
    apply lookup_delete_Some in Hreg as [Hne Hreg].
    pose proof (registered_own [] st sid s t H Hs ltac:(apply not_elem_of_nil) Hreg)
      as (Htgt & _). congruence.
  - cbn [fst]. by apply wf_gentle; [gentle_now|].
  - cbn [fst]. by apply wf_gentle; [gentle_now|].
Qed.

Lemma run_wf es st : pool_wf [] st → pool_wf [] (run es st).1.
Proof.
  revert st; induction es as [|e es IH]; intros st H; simpl; [done|].
  pose proof (step_wf e st H) as H1.
  destruct (step e st) as [st1 fx1]. cbn [fst] in H1.
  specialize (IH st1 H1). by destruct (run es st1).
Qed.

Lemma ages_refl st : ages st st.
Proof. intros sid s Hs. by exists s. Qed.

Lemma ages_trans st1 st2 st3 : ages st1 st2 → ages st2 st3 → ages st1 st3.
Proof.
  intros H1 H2 sid s Hs. destruct (H1 sid s Hs) as (s' & Hs' & Hd).
  destruct (H2 sid s' Hs') as (s'' & Hs'' & Hd'). exists s''. auto.
Qed.

Lemma ages_same st st' : heap st' = heap st → ages st st'.
Proof. intros Hh sid s Hs. exists s. by rewrite Hh. Qed.

Lemma ages_update sid f st :
  (∀ s, destroyed s = true → destroyed (f s) = true) → ages st (update sid f st).
Proof.
  intros Hf sid' s Hs. simpl. destruct (decide (sid = sid')) as [->|Hne].
  - exists (f s). rewrite lookup_alter_eq, Hs. auto.
  - exists s. by rewrite lookup_alter_ne.
Qed.

Lemma ages_evict t st : ages st (evict t st).
Proof.
  unfold evict, clearRegisteredPing. simpl.
  destruct (sessionPingIntervals st !! t) as [owner|]; [|by apply ages_same].
  eapply ages_trans; [|by apply ages_same].
  eapply ages_trans; [by apply (ages_same _ (with_sessions (delete t) st))|].
  by apply ages_update.
Qed.

Lemma ages_create b t p st : pool_wf [] st → ages st (create b t p st).1.
Proof.
  intros [Hh _]. unfold create. destruct b; [by apply ages_same|].
  intros sid s Hs. exists s. split; [|done]. simpl.
  rewrite lookup_insert_ne; [done|]. apply Hh in Hs as [? _]. lia.
Qed.

Lemma ages_then_update st sid f st1 :
  (∀ s, destroyed s = true → destroyed (f s) = true) →
  ages st st1 → ages st (update sid f st1).
Proof. intros Hf H. eapply ages_trans; [exact H|by apply ages_update]. Qed.

Lemma ages_then_evict st t st1 : ages st st1 → ages st (evict t st1).
Proof. intros H. eapply ages_trans; [exact H|apply ages_evict]. Qed.

Lemma ages_then_same st st1 st2 :
  heap st2 = heap st1 → ages st st1 → ages st st2.
Proof. intros Hh H. eapply ages_trans; [exact H|by apply ages_same]. Qed.

Lemma ages_then_settle st p r st1 : ages st st1 → ages st (settle p r st1).
Proof. by apply ages_then_same. Qed.

Lemma ages_then_intervals st f st1 :
  ages st st1 → ages st (with_intervals f st1).
Proof. by apply ages_then_same. Qed.

Lemma ages_then_sessions st f st1 :
  ages st st1 → ages st (with_sessions f st1).
Proof. by apply ages_then_same. Qed.

Lemma ages_then_waitTimeouts st f st1 :
  ages st st1 → ages st (with_waitTimeouts f st1).
Proof. by apply ages_then_same. Qed.

Ltac ages_chain :=
  repeat first
    [ apply ages_refl
    | apply ages_then_evict
    | apply ages_then_update; [done|]
    | apply ages_then_settle
    | apply ages_then_intervals
    | apply ages_then_sessions
    | apply ages_then_waitTimeouts ].

Lemma step_ages e st : pool_wf [] st → ages st (step e st).1.
Proof.
  intros H. destruct e as [t b|sid|sid code|sid|sid|p|sid r|sid|sid]; cbn [step].
  - assert (ages st (getClientSession b t st).1.2) as Ha;
      [|by destruct (getClientSession b t st) as [[q st'] fx]].
    destruct (getClientSession_cases t st H)
      as [(sid & s & Ht & Hs & Hu)|Hun].
    + pose proof (getClientSession_registered b t sid s st H Ht Hs Hu)
        as (_ & _ & H2 & _).
      by apply ages_same.
    + rewrite (proj1 (getClientSession_creates b t st H Hun)).
      eapply ages_trans; [|apply ages_create; by eapply wf_same; [..|exact H]].
      by apply ages_same.
  - destruct (heap st !! sid) as [s|] eqn:Hs; [|apply ages_refl].
    destruct (connecting s) eqn:Hc; [|apply ages_refl].
    destruct (proj1 H sid s Hs) as [_ [Hoc Hoe]].
    unfold onConnectEvent. rewrite Hoc. cbn [notify foldl fmap list_fmap].
    destruct (destroyed s || closed s); cbn [fst snd]; ages_chain.
  - destruct (heap st !! sid) as [s|] eqn:Hs; [|apply ages_refl].
    destruct (proj1 H sid s Hs) as [_ [Hoc Hoe]].
    unfold onErrorEvent. rewrite Hoe. cbn [notify foldl fmap list_fmap].
    destruct (connecting s); cbn [fst snd]; ages_chain.
  - destruct (heap st !! sid) as [s|] eqn:Hs; [|apply ages_refl].
    unfold onCloseEvent. cbn [fst snd]. ages_chain.
  - destruct (heap st !! sid) as [s|] eqn:Hs; [|apply ages_refl].
    destruct (timeout s); [|apply ages_refl].
    unfold onConnectTimeout. destruct (negb (destroyed s)); cbn [fst snd];
      ages_chain.
  - destruct (waitTimeouts st !! p) as [t|]; [|apply ages_refl].
    cbn [fst snd]. ages_chain.
  - destruct (heap st !! sid) as [s|] eqn:Hs; [|apply ages_refl].
    destruct (pingInterval s); [|apply ages_refl].
    unfold onPingTick. destruct (destroyed s || closed s); [cbn; ages_chain|].
    destruct r; cbn [fst snd]; ages_chain.
  - cbn [fst]. by apply ages_update.
  - cbn [fst]. by apply ages_update.
Qed.

Lemma step_dead e st sid : pool_wf [] st → dead sid st → dead sid (step e st).1.
Proof.
  intros H (s & Hs & Hd). destruct (step_ages e st H sid s Hs) as (s' & Hs' & Hd').
  exists s'. auto.
Qed.

Ltac no_resolve :=
  let Hin := fresh "Hin" in
  intros Hin;
  repeat (apply elem_of_cons in Hin as [Hin|Hin]; [discriminate|]);
  by apply elem_of_nil in Hin.

(** No listener resolves a promise with a session that is torn down. *)
Lemma step_spares e st sid p :
  pool_wf [] st → dead sid st → Resolve p sid ∉ (step e st).2.
Proof.
  intros H (s & Hs & Hd).
  destruct e as [t b|sid'|sid' code|sid'|sid'|q|sid' r|sid'|sid']; cbn [step];
    [| | | | | | |apply not_elem_of_nil..].
  - assert (Resolve p sid ∉ (getClientSession b t st).2) as Hn;
      [|by destruct (getClientSession b t st) as [[q st'] fx]].
    destruct (getClientSession_cases t st H)
      as [(sid' & s' & Ht & Hs' & Hu)|Hun].
    + pose proof (getClientSession_registered b t sid' s' st H Ht Hs' Hu)
        as (H1 & _).
      rewrite H1. intros [=]%list_elem_of_singleton. subst sid'.
      unfold usable in Hu. rewrite Hs in Hs'. injection Hs' as <-.
      rewrite Hd in Hu. by rewrite andb_false_r in Hu.
    + rewrite (proj2 (getClientSession_creates b t st H Hun)).
      unfold create. destruct b; cbn [snd]; by intros [=]%list_elem_of_singleton.
  - destruct (heap st !! sid') as [s'|] eqn:Hs'; [|apply not_elem_of_nil].
    destruct (connecting s') eqn:Hc; [|apply not_elem_of_nil].
    destruct (proj1 H sid' s' Hs') as [_ [Hoc Hoe]].
    unfold onConnectEvent. rewrite Hoc. cbn [notify foldl fmap list_fmap].
    destruct (destroyed s' || closed s') eqn:Hdc; cbn [fst snd].
    + by intros [=]%list_elem_of_singleton.
    + intros [=]%list_elem_of_singleton. subst sid'.
      apply orb_false_iff in Hdc as [Hd' _]. congruence.
  - destruct (heap st !! sid') as [s'|] eqn:Hs'; [|apply not_elem_of_nil].
    destruct (proj1 H sid' s' Hs') as [_ [Hoc Hoe]].
    unfold onErrorEvent. rewrite Hoe. cbn [notify foldl fmap list_fmap].
    destruct (connecting s'); cbn [fst snd]; rewrite ?app_nil_r;
      [|destruct (negb _)]; no_resolve.
  - destruct (heap st !! sid') as [s'|]; [|apply not_elem_of_nil].
    apply not_elem_of_nil.
  - destruct (heap st !! sid') as [s'|]; [|apply not_elem_of_nil].
    destruct (timeout s'); [|apply not_elem_of_nil].
    unfold onConnectTimeout. destruct (negb (destroyed s')); cbn [fst snd];
      no_resolve.
  - destruct (waitTimeouts st !! q) as [t|]; [|apply not_elem_of_nil].
    cbn [snd]. no_resolve.
  - destruct (heap st !! sid') as [s'|]; [|apply not_elem_of_nil].
    destruct (pingInterval s'); [|apply not_elem_of_nil].
    unfold onPingTick. destruct (destroyed s' || closed s'); [apply not_elem_of_nil|].
    destruct r; cbn [snd]; no_resolve.
Qed.

Lemma run_spares es st sid p :
  pool_wf [] st → dead sid st → Resolve p sid ∉ (run es st).2.
Proof.
  revert st; induction es as [|e es IH]; intros st H Hd; simpl;
    [apply not_elem_of_nil|].
  pose proof (step_wf e st H) as H1. pose proof (step_dead e st sid H Hd) as H2.
  pose proof (step_spares e st sid p H Hd) as H3.
  destruct (step e st) as [st1 fx1]. cbn [fst snd] in *.
  specialize (IH st1 H1 H2). destruct (run es st1) as [st2 fx2]. cbn [snd] in *.
  by intros [?|?]%elem_of_app.
Qed.

Lemma dead_ages sid st st' : ages st st' → dead sid st → dead sid st'.
Proof. intros H (s & Hs & Hd). destruct (H sid s Hs) as (s' & ? & ?). exists s'. auto. Qed.

(** The ['close'] and ['error'] listeners leave their session torn down. *)
Lemma tears_down_dead e sid st :
  pool_wf [] st → is_Some (heap st !! sid) → tears_down e sid →
  dead sid (step e st).1.
Proof.
  intros H [s Hs] He.
  assert (dead sid (update sid set_destroyed st)) as Hd.
  { exists (set_destroyed s). simpl. by rewrite lookup_alter_eq, Hs. }
  destruct (proj1 H sid s Hs) as [_ [Hoc Hoe]].
  destruct He as [->|[code ->]]; cbn [step]; rewrite Hs.
  - unfold onCloseEvent. cbn [fst]. eapply dead_ages; [|exact Hd]. ages_chain.
  - unfold onErrorEvent. rewrite Hoe. cbn [notify foldl fmap list_fmap].
    destruct (connecting s); cbn [fst]; (eapply dead_ages; [|exact Hd]);
      ages_chain.
Qed.

Lemma reachable_wf es : pool_wf [] (run es init).1.
Proof. apply run_wf, wf_init. Qed.

(** X15.  Whatever the event loop has delivered, [sessions] maps an endpoint
    only to a session that was opened for this endpoint, whose handshake
    has completed and whose connect timer is cleared, and on which no
    call is waiting.  Whether that session is still open the pool does
    not know: the transport closes and destroys sessions before any
    listener of the gateway runs. *)
Theorem pool_holds_established_sessions
    (es : list Event) (t : string) (sid : nat) :
  sessions (run es init).1 !! t = Some sid →
  ∃ s, heap (run es init).1 !! sid = Some s ∧ target s = t ∧
       connecting s = false ∧ timeout s = false ∧
       onConnect s = [] ∧ onError s = [].
Proof.
  intros Ht. destruct (reachable_wf es) as [Hh Hr].
  destruct (Hr t sid ltac:(apply not_elem_of_nil) Ht) as (s & Hs & ? & ? & ?).
  destruct (Hh sid s Hs) as [_ [? ?]]. by exists s.
Qed.

Lemma acquires_registered n b t sid s st :
  pool_wf [] st → sessions st !! t = Some sid →
  heap st !! sid = Some s → usable s = true →
  (run (replicate n (Acquire t b)) st).2
    = (λ p, Resolve p sid) <$> seq (nextPromise st) n ∧
  sessions (run (replicate n (Acquire t b)) st).1 = sessions st.
Proof.
  revert st; induction n as [|n IH]; intros st H Ht Hs Hu; [done|].
  cbn [replicate run step].
  pose proof (getClientSession_registered b t sid s st H Ht Hs Hu)
    as (H1 & H2 & H3 & H4 & H5).
  pose proof (getClientSession_wf b t st H) as Hwf.
  destruct (getClientSession b t st) as [[p st1] fx1]. cbn [fst snd] in *.
  rewrite <- H2 in Ht. rewrite <- H3 in Hs.
  destruct (IH st1 Hwf Ht Hs Hu) as [IH1 IH2].
  destruct (run _ st1) as [st2 fx2]. cbn [fst snd] in *.
  split; [|congruence]. by rewrite H1, IH1, H5.
Qed.


(** X17.  Once the ['close'] or the ['error'] listener of a session has run,
    no call is ever resolved with that session again, whatever the event
    loop delivers afterwards. *)
Theorem torn_down_session_not_reused
    (es es' : list Event) (e : Event) (sid p : nat) :
  is_Some (heap (run es init).1 !! sid) →
  tears_down e sid →
  Resolve p sid ∉ (run es' (step e (run es init).1).1).2.
Proof.
  intros Hs He. apply run_spares.
  - apply step_wf, reachable_wf.
  - by apply tears_down_dead; [apply reachable_wf|..].
Qed.

(** A call for an endpoint without a registered session opens a
    connection; the new session is numbered [nextSession], connecting,
    with its timer armed on behalf of the call's promise. *)
Lemma acquire_creates t st :
  sessions st !! t = None →
  (step (Acquire t false) st).2 = [ Http2Connect t (nextSession st) ] ∧
  sessions (step (Acquire t false) st).1 = sessions st ∧
  heap (step (Acquire t false) st).1 !! nextSession st
  = Some {| target := t; connecting := true; closed := false;
            destroyed := false; creator := nextPromise st; timeout := true;
            pingInterval := false; onConnect := []; onError := [] |}.
Proof.
  intros Ht. unfold step, getClientSession. cbn [sessions]. rewrite Ht.
  cbn [mbind option_bind]. unfold create. cbn [fst snd heap with_heap nextSession].
  split_and!; [done..|]. apply lookup_insert_eq.
Qed.

(** The 5 s timer of a session that is still armed. *)
Lemma timeout_fires sid s st :
  heap st !! sid = Some s → timeout s = true → destroyed s = false →
  (step (ConnectTimeout sid) st).2
  = [ SessionDestroy sid; Reject (creator s) (ErrTimeout (target s)) ] ∧
  sessions (step (ConnectTimeout sid) st).1 = sessions st ∧
  dead sid (step (ConnectTimeout sid) st).1.
Proof.
  intros Hs Ht Hd. cbn [step]. rewrite Hs, Ht. unfold onConnectTimeout.
  rewrite Hd. cbn [negb fst snd app]. split_and!; [done..|].
  eexists. simpl. by rewrite !lookup_alter_eq, Hs.
Qed.

(** A handshake that completes on a session already torn down does not
    register the session. *)
Lemma late_connect sid st :
  pool_wf [] st → dead sid st →
  sessions (step (Connect sid) st).1 = sessions st.
Proof.
  intros H (s & Hs & Hd). cbn [step]. rewrite Hs.
  destruct (connecting s); [|done].
  destruct (proj1 H sid s Hs) as [_ [Hoc Hoe]].
  unfold onConnectEvent. rewrite Hoc, Hd. by cbn [notify foldl fmap list_fmap orb].
Qed.

(** X18.  A connection that is not established within 5 s is destroyed and
    its caller is rejected with the timeout error; should the handshake
    complete afterwards, the session is still not registered, and no
    call is ever resolved with it. *)
Theorem connect_timeout_rejects
    (es es' : list Event) (t : string) (q : nat) :
  sessions (run es init).1 !! t = None →
  let st := (run es init).1 in
  let r := run [ Acquire t false; ConnectTimeout (nextSession st) ] st in
  r.2 = [ Http2Connect t (nextSession st);
          SessionDestroy (nextSession st);
          Reject (nextPromise st) (ErrTimeout t) ] ∧
  sessions r.1 !! t = None ∧
  sessions (step (Connect (nextSession st)) r.1).1 !! t = None ∧
  Resolve q (nextSession st) ∉ (run es' r.1).2.
Proof.
  intros Ht st r. subst r.
  pose proof (reachable_wf es) as Hwf. fold st in Hwf, Ht.
  pose proof (run_wf [ Acquire t false; ConnectTimeout (nextSession st) ] st Hwf)
    as Hwf'.
  cbn [run] in Hwf' |- *.
  pose proof (acquire_creates t st Ht) as (Hfx & Hsess & Hheap).
  destruct (step (Acquire t false) st) as [st1 fx1]. cbn [fst snd] in *.
  pose proof (timeout_fires _ _ st1 Hheap eq_refl eq_refl) as (Hfx' & Hsess' & Hd).
  destruct (step (ConnectTimeout (nextSession st)) st1) as [st2 fx2].
  cbn [fst snd target creator] in *. subst fx1 fx2.
  split_and!.
  - done.
  - by rewrite Hsess', Hsess.
  - by rewrite late_connect, Hsess', Hsess.
  - by apply run_spares.
Qed.

End PoolWf.

Section StreamPool.
Import Fx Grpc.
Context (resolve : Auth.Resolver) (endpoints : list string).
Context (URL_host : string → option string).
Context (requestId : string) (startTime : Z).

Abbreviation step := (Grpc.step resolve endpoints URL_host requestId startTime).
Abbreviation run := (Grpc.run resolve endpoints URL_host requestId startTime).

Lemma pool_calls_app tr1 tr2 : pool_calls (tr1 ++ tr2) = pool_calls tr1 ++ pool_calls tr2.
Proof. apply filter_app. Qed.

Lemma finalize_pool tk n st :
  pool_calls (finalize requestId tk n st).2 = [] ∧
  phase (finalize requestId tk n st).1 = phase st ∧
  metadata (finalize requestId tk n st).1 = metadata st.
Proof.
  unfold finalize, safeRespond, safeEnd.
  destruct st as [[d c w] [r e] ? ? ? ? ? ? ? ?]; simpl.
  by destruct r, d, c, e, (respondThrows tk), (endThrows tk).
Qed.

Lemma caught_pool tk st :
  pool_calls (caught requestId tk st).2 = [] ∧
  phase (caught requestId tk st).1 = Finished.
Proof.
  unfold caught.
  pose proof (finalize_pool tk 500 (set_phase Finished st)) as (H1 & H2 & _).
  by destruct (finalize _ _ _ _) as [st' fx].
Qed.

Lemma authenticateToken_pool now token cache :
  pool_calls (Auth.authenticateToken resolve now token cache).2 = [].
Proof.
  unfold Auth.authenticateToken.
  destruct (resolve token) as [|[res|]]; [done| |done].
  destruct (Js.truthy _); simpl; [|done].
  destruct (cache !! _) as [c|]; [|done].
  by destruct (_ <? _)%Z.
Qed.

Lemma dataLog_pool failed ok st : pool_calls (dataLog requestId failed ok st) = [].
Proof. unfold dataLog. destruct (0 <? _)%N; [|done]. by destruct (authFailed st). Qed.


Lemma onBridgeEvent_pool tk auth target e st :
  pool_calls (onBridgeEvent requestId startTime tk auth target e st).2 = [] ∧
  phase (onBridgeEvent requestId startTime tk auth target e st).1 = phase st.
Proof.
  destruct st as [[d c w] [r en] cnt [od oc sl] [ds rr dr] af tid md ph ac].
  unfold onBridgeEvent, finalize, safeRespond, safeEnd, destroyOut, dataLog.
  destruct e; simpl; repeat case_match; simplify_eq/=; done.
Qed.

Lemma onStreamEvent_pool e st :
  pool_calls (onStreamEvent requestId e st).2 = [] ∧
  phase (onStreamEvent requestId e st).1 = phase st.
Proof. destruct e; try done. simpl. split; [apply dataLog_pool|done]. Qed.

Lemma quiet_move st r :
  pool_calls r.2 = [] → phase r.1 = phase st → pool_move endpoints URL_host st r.
Proof. intros. apply move_none; auto. Qed.

Lemma step_pool tk st : pool_move endpoints URL_host st (step tk st).
Proof.
  unfold Grpc.step. destruct (phase st) as [|t|auth target retry|auth target session| |] eqn:Hp.
  - (* Fresh *)
    destruct (event tk); try by apply quiet_move.
    unfold onOpen. destruct (Headers.token_missing _).
    + match goal with |- context [finalize _ tk 401 ?s] =>
        pose proof (finalize_pool tk 401 s) as (H1 & H2 & _);
        destruct (finalize _ tk 401 s) as [st' fx]; cbn [fst snd] in * end.
      apply move_none; cbn [fst snd]; [cbn [snd]; by rewrite (pool_calls_app [_; _]), H1|].
      right; left. by rewrite H2.
    + apply move_none; cbn [fst snd]; [done|]. do 3 right. split; [done|]. by eexists.
  - (* AwaitAuth *)
    destruct (event tk);
      try (apply quiet_move; [|by rewrite ?Hp]; done);
      try (apply quiet_move;
           [apply onStreamEvent_pool
           |by rewrite (proj2 (onStreamEvent_pool _ _))]).
    unfold onAuthAnswered.
    pose proof (authenticateToken_pool (time tk) t (authCache st)) as Hc.
    destruct (Auth.authenticateToken _ _ _ _) as [[a cache] calls].
    cbn [snd] in Hc. destruct a as [[auth|]|].
    + destruct (Shard.pickShardEndpoint _ _) as [target|] eqn:Ht;
        cbn [from_option default id]; [destruct (Js.truthy target) eqn:Htt|].
      * apply (move_acquire _ _ _ _ t auth target); [done| |done|].
        -- unfold Shard.pickShardEndpoint in Ht.
           destruct (Shard.shardIndexFromId _); [|done].
           by apply list_elem_of_lookup_2 in Ht.
        -- cbn [snd]. by rewrite pool_calls_app, Hc.
      * match goal with |- context [finalize _ tk 503 ?s] =>
          pose proof (finalize_pool tk 503 s) as (H1 & H2 & _);
          destruct (finalize _ tk 503 s) as [st' fx]; cbn [fst snd] in * end.
        apply move_none; cbn [fst snd]; [|do 2 right; left; by rewrite H2].
        cbn [snd]. by rewrite pool_calls_app, (pool_calls_app [_; _]), Hc, H1.
      * match goal with |- context [finalize _ tk 503 ?s] =>
          pose proof (finalize_pool tk 503 s) as (H1 & H2 & _);
          destruct (finalize _ tk 503 s) as [st' fx]; cbn [fst snd] in * end.
        apply move_none; cbn [fst snd]; [|do 2 right; left; by rewrite H2].
        cbn [snd]. by rewrite pool_calls_app, (pool_calls_app [_; _]), Hc, H1.
    + match goal with |- context [finalize _ tk 401 ?s] =>
        pose proof (finalize_pool tk 401 s) as (H1 & H2 & _);
        destruct (finalize _ tk 401 s) as [st' fx]; cbn [fst snd] in * end.
      apply move_none; cbn [fst snd]; [|right; left; by rewrite H2].
      cbn [snd]. by rewrite pool_calls_app, (pool_calls_app [_]), Hc, H1.
    + match goal with |- context [caught _ tk ?s] =>
        pose proof (caught_pool tk s) as (H1 & H2);
        destruct (caught _ tk s) as [st' fx]; cbn [fst snd] in * end.
      apply move_none; cbn [fst snd]; [|do 2 right; left; by rewrite H2].
      cbn [snd]. by rewrite pool_calls_app, Hc, H1.
  - (* AwaitSession *)
    destruct (event tk) as [| |r| | | | | | | | | | |];
      try (apply quiet_move; [|by rewrite ?Hp]; done);
      try (apply quiet_move;
           [apply onStreamEvent_pool
           |by rewrite (proj2 (onStreamEvent_pool _ _))]).
    unfold onSessionSettled. destruct r as [session d c k|e].
    + destruct (negb retry && (d || c || k)) eqn:Hretry.
      * apply andb_true_iff in Hretry as [Hr _].
        apply negb_true_iff in Hr. subst retry.
        by apply (move_retry _ _ _ _ auth target).
      * unfold bridge. destruct (d || c).
        -- match goal with |- context [finalize _ tk 503 ?s] =>
             pose proof (finalize_pool tk 503 s) as (H1 & H2 & _);
             destruct (finalize _ tk 503 s) as [st' fx]; cbn [fst snd] in * end.
           apply move_none; cbn [fst snd]; [|do 2 right; left; by rewrite H2].
           unfold pool_calls in *. by rewrite filter_cons_False.
        -- destruct (URL_host target) as [host|] eqn:Hh.
           ++ eapply (move_request _ _ _ _ auth target retry session host);
                [done|done|done| | |done].
              ** rewrite get_set_ne by done. apply get_set.
              ** apply get_set.
           ++ match goal with |- context [caught _ tk ?s] =>
                pose proof (caught_pool tk s) as (H1 & H2);
                destruct (caught _ tk s) as [st' fx]; cbn [fst snd] in * end.
              apply move_none; cbn [fst snd]; [done|]. do 2 right; left. by rewrite H2.
    + match goal with |- context [finalize _ tk 503 ?s] =>
        pose proof (finalize_pool tk 503 s) as (H1 & H2 & _);
        destruct (finalize _ tk 503 s) as [st' fx]; cbn [fst snd] in * end.
      apply move_none; cbn [fst snd]; [|do 2 right; left; by rewrite H2].
      unfold pool_calls in *. by rewrite filter_cons_False.
  - (* Bridging *)
    assert (pool_move endpoints URL_host st
              (onBridgeEvent requestId startTime tk auth target (event tk) st)) as Hb.
    { apply quiet_move; [apply onBridgeEvent_pool|].
      by rewrite (proj2 (onBridgeEvent_pool _ _ _ _ _)). }
    destruct (event tk); try exact Hb;
      (apply quiet_move;
       [apply onStreamEvent_pool
       |by rewrite (proj2 (onStreamEvent_pool _ _))]).
  - (* Unauthorized *)
    destruct (event tk);
      try (apply quiet_move; [|by rewrite ?Hp]; done);
      (apply quiet_move;
       [apply onStreamEvent_pool
       |by rewrite (proj2 (onStreamEvent_pool _ _))]).
  - (* Finished *)
    destruct (event tk);
      try (apply quiet_move; [|by rewrite ?Hp]; done);
      (apply quiet_move;
       [apply onStreamEvent_pool
       |by rewrite (proj2 (onStreamEvent_pool _ _))]).
Qed.

Lemma to_configured_pool_calls tr :
  Forall (to_configured endpoints URL_host) (pool_calls tr) →
  Forall (to_configured endpoints URL_host) tr.
Proof.
  induction tr as [|e tr IH]; [done|]. unfold pool_calls in *.
  rewrite filter_cons. destruct (decide (is_pool_call e = true)) as [He|He].
  - intros [H1 H2]%Forall_cons. apply Forall_cons_2; auto.
  - intros H. apply Forall_cons_2; [|auto]. by destruct e.
Qed.

Lemma step_routed tk st :
  routed_within endpoints (phase st) →
  routed_within endpoints (phase (step tk st).1) ∧
  Forall (to_configured endpoints URL_host) (step tk st).2.
Proof.
  intros Hr. destruct (step_pool tk st)
    as [Hc Hp|t auth target Hp Ht Hp' Hc|auth target Hp Hp' Hc
       |auth target retry session host hdrs Hp Hp' Hh Ha _ Hc];
    (split; [|apply to_configured_pool_calls; rewrite Hc]).
  - destruct Hp as [->|[->|[->|[_ [t ->]]]]]; done.
  - done.
  - by rewrite Hp'.
  - apply Forall_cons_2; [done|apply Forall_nil_2].
  - rewrite Hp in Hr. by rewrite Hp'.
  - rewrite Hp in Hr. by repeat apply Forall_cons_2.
  - rewrite Hp in Hr. by rewrite Hp'.
  - rewrite Hp in Hr. apply Forall_cons_2; [|apply Forall_nil_2].
    by exists target, host.
Qed.

Lemma run_routed tks st :
  routed_within endpoints (phase st) →
  Forall (to_configured endpoints URL_host) (run tks st).2.
Proof.
  revert st; induction tks as [|tk tks IH]; intros st Hr; simpl;
    [apply Forall_nil_2|].
  pose proof (step_routed tk st Hr) as [H1 H2].
  destruct (step tk st) as [st1 fx1]. cbn [fst snd] in *.
  specialize (IH st1 H1). destruct (run tks st1) as [st2 fx2].
  by apply Forall_app_2.
Qed.

(** X19.  Whatever a stream carries, the only endpoints the listener asks the
    pool about, and the only authorities it opens outbound streams for,
    are those of the configured list. *)
Theorem stream_stays_within_endpoints
    (tks : list Tick) (cache : gmap string Auth.CachedAuth) :
  Forall (to_configured endpoints URL_host) (run tks (init cache)).2.
Proof. by apply run_routed. Qed.

Lemma acquisitions_app tr1 tr2 :
  acquisitions (tr1 ++ tr2) = acquisitions tr1 + acquisitions tr2.
Proof. unfold acquisitions. by rewrite filter_app, length_app. Qed.

Lemma requests_app tr1 tr2 : requests (tr1 ++ tr2) = requests tr1 + requests tr2.
Proof. unfold requests. by rewrite filter_app, length_app. Qed.

Lemma counts_pool_calls tr :
  acquisitions tr = acquisitions (pool_calls tr) ∧
  requests tr = requests (pool_calls tr).
Proof.
  induction tr as [|e tr [IH1 IH2]]; [done|].
  unfold acquisitions, requests, pool_calls in *.
  destruct e; rewrite ?filter_cons_True, ?filter_cons_False by done;
    simpl; rewrite ?filter_cons_True, ?filter_cons_False by done; simpl; auto.
Qed.

Lemma step_budget tk st :
  acquisitions (step tk st).2 + acquire_budget (phase (step tk st).1)
    ≤ acquire_budget (phase st) ∧
  requests (step tk st).2 + request_budget (phase (step tk st).1)
    ≤ request_budget (phase st).
Proof.
  destruct (counts_pool_calls (step tk st).2) as [-> ->].
  destruct (step_pool tk st)
    as [Hc Hp|t auth target Hp Ht Hp' Hc|auth target Hp Hp' Hc
       |auth target retry session host hdrs Hp Hp' Hh Ha _ Hc];
    rewrite Hc.
  - destruct Hp as [->|[->|[->|[-> [t ->]]]]]; simpl; lia.
  - rewrite Hp, Hp'. simpl. lia.
  - rewrite Hp, Hp'. simpl. lia.
  - rewrite Hp, Hp'. simpl. destruct retry; lia.
Qed.

Lemma run_budget tks st :
  acquisitions (run tks st).2 + acquire_budget (phase (run tks st).1)
    ≤ acquire_budget (phase st) ∧
  requests (run tks st).2 + request_budget (phase (run tks st).1)
    ≤ request_budget (phase st).
Proof.
  revert st; induction tks as [|tk tks IH]; intros st; simpl; [lia|].
  pose proof (step_budget tk st) as [H1 H2].
  destruct (step tk st) as [st1 fx1]. cbn [fst snd] in *.
  specialize (IH st1) as [H3 H4]. destruct (run tks st1) as [st2 fx2].
  cbn [fst snd] in *. rewrite acquisitions_app, requests_app. lia.
Qed.

(** X20.  A stream asks the pool for a session at most twice, the second time
    being the one retry, and opens at most one outbound stream, whatever
    events it sees. *)
Theorem stream_acquires_at_most_twice
    (tks : list Tick) (cache : gmap string Auth.CachedAuth) :
  acquisitions (run tks (init cache)).2 ≤ 2 ∧
  requests (run tks (init cache)).2 ≤ 1.
Proof. pose proof (run_budget tks (init cache)) as [H1 H2]. simpl in *. lia. Qed.

End StreamPool.

Section BridgeMore.
Import Fx Grpc.
Context (resolve : Auth.Resolver) (endpoints : list string).
Context (URL_host : string → option string).
Context (requestId : string) (startTime : Z).

Abbreviation step := (Grpc.step resolve endpoints URL_host requestId startTime).
Abbreviation run := (Grpc.run resolve endpoints URL_host requestId startTime).

Ltac open_up st :=
  destruct st as [[d c w] [r e] cnt [od oc sl] [ds rr dr] af tid md ph ac];
  unfold bridging, out_gone, in_shut in *; simpl in *.

Ltac split_cases :=
  unfold onBridgeEvent, onStreamEvent, finalize, safeRespond, safeEnd,
    destroyOut, dataLog, out_gone, in_shut, bridging, count;
  simpl; repeat case_match; simplify_eq/=; eauto.

Lemma out_writes_app tr1 tr2 :
  out_writes (tr1 ++ tr2) = out_writes tr1 ++ out_writes tr2.
Proof. apply omap_app. Qed.

Lemma stream_writes_app tr1 tr2 :
  stream_writes (tr1 ++ tr2) = stream_writes tr1 ++ stream_writes tr2.
Proof. apply omap_app. Qed.

(** One delivery on a bridged stream writes the chunk it brings, if any,
    to the other side, unless that side is out of reach; and a side out
    of reach stays so. *)
Lemma step_carries tk st :
  bridging st →
  out_writes (step tk st).2 = (if out_gone st then [] else in_chunks [ tk ]) ∧
  stream_writes (step tk st).2 = (if in_shut st then [] else out_chunks [ tk ]) ∧
  (out_gone st = true → out_gone (step tk st).1 = true) ∧
  (in_shut st = true → in_shut (step tk st).1 = true).
Proof.
  intros (auth & target & session & Hp). open_up st. subst ph.
  unfold Grpc.step, in_chunks, out_chunks. simpl.
  destruct (event tk); split_cases; destruct od, oc, d, w; by simplify_eq/=.
Qed.

Lemma in_chunks_cons tk tks : in_chunks (tk :: tks) = in_chunks [ tk ] ++ in_chunks tks.
Proof. unfold in_chunks. simpl. by destruct (event tk). Qed.

Lemma out_chunks_cons tk tks :
  out_chunks (tk :: tks) = out_chunks [ tk ] ++ out_chunks tks.
Proof. unfold out_chunks. simpl. by destruct (event tk). Qed.

Lemma run_carries tks st :
  bridging st →
  (out_writes (run tks st).2 `prefix_of` in_chunks tks ∧
   (out_gone (run tks st).1 = false → out_writes (run tks st).2 = in_chunks tks)) ∧
  (stream_writes (run tks st).2 `prefix_of` out_chunks tks ∧
   (in_shut (run tks st).1 = false →
    stream_writes (run tks st).2 = out_chunks tks)).
Proof.
  revert st; induction tks as [|tk tks IH]; intros st Hb.
  { simpl. by split_and!. }
  rewrite in_chunks_cons, out_chunks_cons. cbn [Grpc.run].
  pose proof (step_bridging resolve endpoints URL_host requestId startTime tk st Hb)
    as Hb1.
  pose proof (step_carries tk st Hb) as (Ho & Hi & Hgo & Hgi).
  destruct (step tk st) as [st1 fx1]. cbn [fst snd] in *.
  destruct (IH st1 Hb1) as [[IHo1 IHo2] [IHi1 IHi2]].
  assert (out_gone st1 = true → out_gone (run tks st1).1 = true ∧
          out_writes (run tks st1).2 = []) as Hstay.
  { intros Hg. clear -Hb1 Hg.
    revert st1 Hb1 Hg. induction tks as [|tk' tks IH]; intros st1 Hb1 Hg; [done|].
    cbn [Grpc.run].
    pose proof (step_bridging resolve endpoints URL_host requestId startTime
                  tk' st1 Hb1) as Hb2.
    pose proof (step_carries tk' st1 Hb1) as (Ho & _ & Hgo & _).
    rewrite Hg in Ho. specialize (Hgo Hg).
    destruct (step tk' st1) as [st2 fx2]. cbn [fst snd] in *.
    destruct (IH st2 Hb2 Hgo) as [H1 H2].
    destruct (run tks st2) as [st3 fx3]. cbn [fst snd] in *.
    by rewrite out_writes_app, Ho, H2. }
  assert (in_shut st1 = true → in_shut (run tks st1).1 = true ∧
          stream_writes (run tks st1).2 = []) as Hshut.
  { intros Hg. clear -Hb1 Hg.
    revert st1 Hb1 Hg. induction tks as [|tk' tks IH]; intros st1 Hb1 Hg; [done|].
    cbn [Grpc.run].
    pose proof (step_bridging resolve endpoints URL_host requestId startTime
                  tk' st1 Hb1) as Hb2.
    pose proof (step_carries tk' st1 Hb1) as (_ & Hi & _ & Hgi).
    rewrite Hg in Hi. specialize (Hgi Hg).
    destruct (step tk' st1) as [st2 fx2]. cbn [fst snd] in *.
    destruct (IH st2 Hb2 Hgi) as [H1 H2].
    destruct (run tks st2) as [st3 fx3]. cbn [fst snd] in *.
    by rewrite stream_writes_app, Hi, H2. }
  destruct (run tks st1) as [st2 fx2]. cbn [fst snd] in *.
  rewrite out_writes_app, stream_writes_app, Ho, Hi. split; split.
  - destruct (out_gone st) eqn:Hg.
    + destruct (Hstay (Hgo eq_refl)) as [_ ->]. apply prefix_nil.
    + by apply prefix_app.
  - intros Hfin. destruct (out_gone st) eqn:Hg.
    + destruct (Hstay (Hgo eq_refl)) as [? _]. congruence.
    + f_equal. by apply IHo2.
  - destruct (in_shut st) eqn:Hg.
    + destruct (Hshut (Hgi eq_refl)) as [_ ->]. apply prefix_nil.
    + by apply prefix_app.
  - intros Hfin. destruct (in_shut st) eqn:Hg.
    + destruct (Hshut (Hgi eq_refl)) as [? _]. congruence.
    + f_equal. by apply IHi2.
Qed.

(** X21.  Across a bridge the payload travels unchanged and in order: what is
    written to the outbound stream is an initial part of the chunks the
    client sent, and all of them as long as the outbound stream is
    there; likewise from the shard back to the client. *)
Theorem bridge_carries_in_order (st : State) (tks : list Tick) :
  bridging st →
  out_writes (run tks st).2 `prefix_of` in_chunks tks ∧
  (out_gone (run tks st).1 = false →
     out_writes (run tks st).2 = in_chunks tks) ∧
  stream_writes (run tks st).2 `prefix_of` out_chunks tks ∧
  (in_shut (run tks st).1 = false →
     stream_writes (run tks st).2 = out_chunks tks).
Proof.
  intros Hb. destruct (run_carries tks st Hb) as [[H1 H2] [H3 H4]]. by split_and!.
Qed.

End BridgeMore.

Section CountMore.
Import Fx Grpc.
Context (resolve : Auth.Resolver) (endpoints : list string).
Context (URL_host : string → option string).
Context (requestId : string) (startTime : Z).

Abbreviation step := (Grpc.step resolve endpoints URL_host requestId startTime).
Abbreviation run := (Grpc.run resolve endpoints URL_host requestId startTime).

Lemma counted_nil c : counted c [] = c.
Proof.
  destruct c as [b n f]. unfold counted. simpl. rewrite !N.add_0_r. by destruct f.
Qed.

Lemma counted_one c chunk st :
  c = counters st → counters (count chunk st) = counted c [ chunk ].
Proof.
  intros ->. unfold counted, count, Capture.bytesReceived, Capture.firstChunk.
  simpl. rewrite N.add_0_r. destruct (firstChunk (counters st)); [done|].
  by destruct (Js.truthy chunk).
Qed.

Lemma safeRespond_counters throws h st :
  counters (safeRespond requestId throws h st).1 = counters st.
Proof.
  unfold safeRespond. destruct (negb _ && negb _ && negb _); [|done].
  by destruct throws.
Qed.

Lemma safeEnd_counters throws st : counters (safeEnd throws st).1 = counters st.
Proof. unfold safeEnd. destruct (negb _ && negb _); [|done]. by destruct throws. Qed.

Lemma finalize_counters tk n st :
  counters (finalize requestId tk n st).1 = counters st.
Proof.
  unfold finalize.
  pose proof (safeRespond_counters (respondThrows tk) (Status n) st) as H1.
  destruct (safeRespond _ _ _ st) as [st1 fx1].
  pose proof (safeEnd_counters (endThrows tk) st1) as H2.
  destruct (safeEnd _ st1) as [st2 fx2]. simpl in *. congruence.
Qed.

Lemma onBridgeEvent_counters tk auth target e st :
  counters (onBridgeEvent requestId startTime tk auth target e st).1
  = match e with
    | InData chunk => counters (count chunk st)
    | _ => counters st
    end.
Proof.
  unfold onBridgeEvent. destruct e; try done.
  - (* OutResponse *)
    destruct (_ || _); [done|].
    match goal with |- context [safeRespond _ ?t ?h ?s] =>
      pose proof (safeRespond_counters t h s) as H;
      by destruct (safeRespond _ t h s) end.
  - destruct (_ || _); done.
  - destruct (_ || _ || _); done.
  - match goal with |- context [finalize _ tk 502 ?s] =>
      pose proof (finalize_counters tk 502 s) as H;
      by destruct (finalize _ tk 502 s) end.
  - match goal with |- context [safeEnd ?t ?s] =>
      pose proof (safeEnd_counters t s) as H;
      by destruct (safeEnd t s) end.
  - destruct (sessionListener _); [|done]. by destruct (_ || _).
Qed.

Lemma in_chunks_one tk :
  in_chunks [ tk ] = match event tk with InData c => [ c ] | _ => [] end.
Proof. unfold in_chunks. simpl. by destruct (event tk). Qed.

(** Every chunk that reaches a data listener is counted. *)
Lemma step_counts tk st :
  bridging st ∨ phase st = Unauthorized →
  (bridging (step tk st).1 ∨ phase (step tk st).1 = Unauthorized) ∧
  counters (step tk st).1 = counted (counters st) (in_chunks [ tk ]).
Proof.
  intros [Hb|Hp].
  - split; [left; by apply step_bridging|].
    destruct Hb as (auth & target & session & Hp). unfold Grpc.step. rewrite Hp.
    rewrite in_chunks_one.
    pose proof (onBridgeEvent_counters tk auth target (event tk) st) as H.
    destruct (event tk) as [| | |chunk| | | | | | | | | |];
      rewrite ?H; simpl; try (by rewrite counted_nil).
    by apply counted_one.
  - unfold Grpc.step. rewrite Hp. rewrite in_chunks_one.
    destruct (event tk) as [| | |chunk| | | | | | | | | |]; simpl;
      try (split; [by right|by rewrite counted_nil]).
    split; [by right|]. by apply counted_one.
Qed.

Lemma bytesReceived_app l1 l2 :
  Capture.bytesReceived (l1 ++ l2)
  = (Capture.bytesReceived l1 + Capture.bytesReceived l2)%N.
Proof.
  unfold Capture.bytesReceived. induction l1 as [|x l1 IH]; [done|].
  cbn [app foldr]. rewrite IH. lia.
Qed.

Lemma firstChunk_app l1 l2 :
  Capture.firstChunk (l1 ++ l2)
  = match Capture.firstChunk l1 with
    | Some f => Some f
    | None => Capture.firstChunk l2
    end.
Proof.
  unfold Capture.firstChunk. induction l1 as [|x l1 IH]; [by destruct (List.find _ _)|].
  cbn [app List.find]. by destruct (Js.truthy x).
Qed.

Lemma counted_app c l1 l2 : counted (counted c l1) l2 = counted c (l1 ++ l2).
Proof.
  unfold counted. cbn [bytesReceived chunkCount firstChunk].
  rewrite bytesReceived_app, firstChunk_app, length_app, Nat2N.inj_add.
  f_equal; [lia..|]. destruct (firstChunk c); [done|].
  by destruct (Capture.firstChunk l1).
Qed.

(** X22.  On a stream that is bridged, or was turned away with 401, the
    counters after any run of events are those of the chunks the client
    sent: their total length, their number, and as sample the first
    non-empty chunk cut at 1024. *)
Theorem stream_counts_every_chunk (st : State) (tks : list Tick) :
  bridging st ∨ phase st = Unauthorized →
  counters (run tks st).1 = counted (counters st) (in_chunks tks).
Proof.
  revert st; induction tks as [|tk tks IH]; intros st H.
  { simpl. by rewrite counted_nil. }
  rewrite in_chunks_cons. cbn [Grpc.run].
  pose proof (step_counts tk st H) as [H1 H2].
  destruct (step tk st) as [st1 fx1]. cbn [fst snd] in *.
  specialize (IH st1 H1). destruct (run tks st1) as [st2 fx2]. cbn [fst] in *.
  by rewrite IH, H2, counted_app.
Qed.

End CountMore.

Section StreamErrors.
Import Fx Grpc.
Context (resolve : Auth.Resolver) (endpoints : list string).
Context (URL_host : string → option string).
Context (requestId : string) (startTime : Z).

Abbreviation step := (Grpc.step resolve endpoints URL_host requestId startTime).
Abbreviation run := (Grpc.run resolve endpoints URL_host requestId startTime).

Lemma dataLog_silent failed ok st :
  forwards (dataLog requestId failed ok st) = [] ∧
  statuses (dataLog requestId failed ok st) = [].
Proof. unfold dataLog. destruct (0 <? _)%N; [|done]. by destruct (authFailed st). Qed.

Lemma run_finished tks st :
  phase st = Finished →
  forwards (run tks st).2 = [] ∧ pool_calls (run tks st).2 = [] ∧
  statuses (run tks st).2 = [].
Proof.
  revert st; induction tks as [|tk tks IH]; intros st Hp; [done|].
  cbn [Grpc.run]. unfold Grpc.step. rewrite Hp.
  destruct (event tk);
    try (destruct (IH st Hp) as (H1 & H2 & H3);
         destruct (run tks st) as [st2 fx2]; cbn [fst snd app] in *; done).
  - simpl. destruct (IH st Hp) as (H1 & H2 & H3).
    destruct (run tks st) as [st2 fx2]. cbn [fst snd app] in *. done.
  - simpl.
    match goal with |- context [Grpc.run _ _ _ _ _ tks ?s] =>
      destruct (IH s Hp) as (H1 & H2 & H3);
      destruct (Grpc.run _ _ _ _ _ tks s) as [st2 fx2] end.
    cbn [fst snd] in *.
    rewrite forwards_app, pool_calls_app, statuses_app, H1, H2, H3.
    rewrite (proj1 (dataLog_silent _ _ _)), (proj2 (dataLog_silent _ _ _)).
    by rewrite dataLog_pool.
Qed.

Lemma finalize_only tk n st :
  forwards (finalize requestId tk n st).2 = [] ∧
  (∀ m, m ∈ statuses (finalize requestId tk n st).2 → m = n).
Proof.
  unfold finalize, safeRespond, safeEnd.
  destruct st as [[d c w] [r e] ? ? ? ? ? ? ? ?]; simpl.
  destruct r, d, c, e, (respondThrows tk), (endThrows tk); simpl;
    (split; [done|]); intros m Hm;
    try (by apply elem_of_nil in Hm); by apply list_elem_of_singleton in Hm.
Qed.

(** A step that logs, calls [finalize] on a state in phase [Finished]
    and returns. *)
Lemma gives_up_by tk n st st0 pre :
  (∀ st' fx, finalize requestId tk n st0 = (st', fx) →
     step tk st = (st', pre ++ fx)) →
  phase st0 = Finished →
  guards st0 = guards st → inbound st0 = inbound st →
  forwards pre = [] → pool_calls pre = [] → statuses pre = [] →
  gives_up run n tk st.
Proof.
  intros Hs Hp Hg Hi Hf Hc Hst. split.
  - intros (H1 & H2 & H3 & H4). cbn [Grpc.run].
    rewrite <- Hg in H1. rewrite <- Hi in H2, H3.
    pose proof (finalize_sends requestId tk n st0 H1 H2 H3 H4) as [Hn _].
    destruct (finalize _ tk n st0) as [st' fx] eqn:Hfin.
    rewrite (Hs st' fx eq_refl). cbn [fst snd] in *.
    by rewrite app_nil_r, statuses_app, Hst, Hn.
  - intros tks. cbn [Grpc.run].
    pose proof (finalize_only tk n st0) as [Hfw Hn].
    pose proof (finalize_pool requestId tk n st0) as (Hpc & Hph & _).
    destruct (finalize _ tk n st0) as [st' fx] eqn:Hfin.
    rewrite (Hs st' fx eq_refl). cbn [fst snd] in *.
    rewrite Hp in Hph.
    destruct (run_finished tks st' Hph) as (H1 & H2 & H3).
    destruct (run tks st') as [st2 fx2]. cbn [fst snd] in *.
    rewrite !forwards_app, !pool_calls_app, !statuses_app.
    rewrite Hf, Hc, Hst, Hfw, Hpc, H1, H2, H3. split_and!; [done..|].
    intros m. rewrite app_nil_r. apply Hn.
Qed.

Lemma authenticateToken_silent now token cache :
  forwards (Auth.authenticateToken resolve now token cache).2 = [] ∧
  statuses (Auth.authenticateToken resolve now token cache).2 = [].
Proof.
  unfold Auth.authenticateToken.
  destruct (resolve token) as [|[res|]]; [done| |done].
  destruct (Js.truthy _); simpl; [|done].
  destruct (cache !! _) as [c|]; [|done].
  by destruct (_ <? _)%Z.
Qed.

(** X23.  A stream that cannot be served is answered with 503 and given up:
    so when the record's shard has no endpoint in the configured list,
    and when the session obtained on the retry is destroyed or closed. *)
Theorem stream_unavailable_503
    (tk : Tick) (st : State) (t : string) (auth : Auth.CachedAuth)
    (cache' : gmap string Auth.CachedAuth) (calls : list Effect)
    (target : string) (session : nat) (d c k : bool) :
  (phase st = AwaitAuth t →
   event tk = AuthAnswered →
   Auth.authenticateToken resolve (time tk) t (authCache st)
     = (Auth.Return (Some auth), cache', calls) →
   from_option Js.truthy false
     (Shard.pickShardEndpoint
        (Capture.shardOrDefault (Auth.assignedShard auth)) endpoints) = false →
     gives_up run 503 tk st) ∧
  (phase st = AwaitSession auth target true →
   event tk = SessionSettled (AcqOk session d c k) →
   d || c = true →
     gives_up run 503 tk st).
Proof.
  split.
  - intros Hp He Ha Ht.
    pose proof (authenticateToken_silent (time tk) t (authCache st)) as [Hf Hs].
    pose proof (authenticateToken_pool resolve (time tk) t (authCache st)) as Hc.
    rewrite Ha in Hf, Hs, Hc. cbn [snd] in *.
    apply (gives_up_by tk 503 st
             (set_phase Finished
                (set_teamId (Auth.teamId auth) (set_authCache cache' st)))
             (calls ++
              [ Log Info (authFields requestId auth)
                  "OTLP gRPC gateway: authenticated stream";
                Log Error
                  (authFields requestId auth ++
                   [ ("configuredEndpoints", VStrs endpoints);
                     ("endpointCount", VNum (Z.of_nat (length endpoints))) ])
                  "OTLP gRPC gateway: no shard endpoint available" ]));
      [|done..| | |].
    + intros st' fx Hfin. unfold Grpc.step. rewrite Hp, He.
      unfold onAuthAnswered. rewrite Ha, Ht, Hfin. by rewrite app_assoc.
    + by rewrite forwards_app, Hf.
    + by rewrite pool_calls_app, Hc.
    + by rewrite statuses_app, Hs.
  - intros Hp He Hd.
    apply (gives_up_by tk 503 st (set_phase Finished st)
             [ Log Error (routeFields requestId auth target)
                 "OTLP gRPC gateway: HTTP/2 session not available" ]);
      [|done..].
    intros st' fx Hfin. unfold Grpc.step. rewrite Hp, He.
    unfold onSessionSettled, bridge. cbn [negb andb]. by rewrite Hd, Hfin.
Qed.


End StreamErrors.

Section PingFacts.
Import Fx Pool.

(** X25.  The keep-alive timer of a live session.  A ping that succeeds
    changes nothing.  A ping that fails drops the endpoint's entry and
    its timer and destroys the session, and no call is ever resolved
    with the session again.  When [s.ping] itself throws, the entry and
    the timer are dropped as well, but the session is not destroyed. *)
Theorem failed_ping_evicts
    (es es' : list Event) (sid : nat) (s : Session) (q : nat) :
  heap (run es init).1 !! sid = Some s →
  pingInterval s = true → destroyed s = false → closed s = false →
  step (PingTick sid PingOk) (run es init).1
    = ((run es init).1, [ SessionPing sid ]) ∧
  ((sessions (step (PingTick sid PingFails) (run es init).1).1) !! target s
     = None ∧
   sessionPingIntervals (step (PingTick sid PingFails) (run es init).1).1
     !! target s = None ∧
   SessionDestroy sid ∈ (step (PingTick sid PingFails) (run es init).1).2 ∧
   Resolve q sid ∉
     (run es' (step (PingTick sid PingFails) (run es init).1).1).2) ∧
  ((sessions (step (PingTick sid PingThrows) (run es init).1).1) !! target s
     = None ∧
   sessionPingIntervals (step (PingTick sid PingThrows) (run es init).1).1
     !! target s = None ∧
   (SessionDestroy sid ∉ (step (PingTick sid PingThrows) (run es init).1).2) ∧
   ¬ dead sid (step (PingTick sid PingThrows) (run es init).1).1).
Proof.
  intros Hs Hp Hd Hc. pose proof (reachable_wf es) as Hwf.
  set (st := (run es init).1) in *.
  split_and!.
  - cbn [step]. rewrite Hs, Hp. unfold onPingTick. by rewrite Hd, Hc.
  - cbn [step]. rewrite Hs, Hp. unfold onPingTick. rewrite Hd, Hc. simpl.
    apply lookup_delete_eq.
  - cbn [step]. rewrite Hs, Hp. unfold onPingTick. rewrite Hd, Hc. simpl.
    apply lookup_delete_eq.
  - cbn [step]. rewrite Hs, Hp. unfold onPingTick. rewrite Hd, Hc. cbn [orb snd].
    apply elem_of_cons; right. apply elem_of_cons; right.
    by apply elem_of_cons; left.
  - apply run_spares; [by apply step_wf|].
    cbn [step]. rewrite Hs, Hp. unfold onPingTick. rewrite Hd, Hc. cbn [orb fst].
    eexists. simpl. by rewrite !lookup_alter_eq, Hs.
  - cbn [step]. rewrite Hs, Hp. unfold onPingTick. rewrite Hd, Hc. simpl.
    apply lookup_delete_eq.
  - cbn [step]. rewrite Hs, Hp. unfold onPingTick. rewrite Hd, Hc. simpl.
    apply lookup_delete_eq.
  - cbn [step]. rewrite Hs, Hp. unfold onPingTick. rewrite Hd, Hc. cbn [orb snd].
    intros Hin. apply list_elem_of_singleton in Hin. discriminate.
  - cbn [step]. rewrite Hs, Hp. unfold onPingTick. rewrite Hd, Hc. cbn [orb fst].
    intros (s' & Hs' & Hd'). simpl in Hs'.
    rewrite lookup_alter_eq, Hs in Hs'. simpl in Hs'. injection Hs' as <-.
    simpl in Hd'. congruence.
Qed.

End PingFacts.

Section AnswerFacts.
Import Fx Grpc.
Context (resolve : Auth.Resolver) (endpoints : list string).
Context (URL_host : string → option string).
Context (requestId : string) (startTime : Z).

Abbreviation step := (Grpc.step resolve endpoints URL_host requestId startTime).
Abbreviation run := (Grpc.run resolve endpoints URL_host requestId startTime).

Lemma safeRespond_answers throws h h' st :
  StreamRespond h' ∈ (safeRespond requestId throws h st).2 → h' = h.
Proof.
  unfold safeRespond. destruct (negb _ && negb _ && negb _).
  - destruct throws; cbn [snd]; intros Hin.
    + apply list_elem_of_singleton in Hin. discriminate.
    + apply list_elem_of_singleton in Hin. by injection Hin.
  - by intros ?%elem_of_nil.
Qed.

Lemma safeEnd_answers throws h' st : StreamRespond h' ∉ (safeEnd throws st).2.
Proof.
  unfold safeEnd. destruct (negb _ && negb _); [|apply not_elem_of_nil].
  destruct throws; cbn [snd]; [apply not_elem_of_nil|].
  intros Hin. apply list_elem_of_singleton in Hin. discriminate.
Qed.

Lemma finalize_answers tk n h' st :
  StreamRespond h' ∈ (finalize requestId tk n st).2 → h' = Status n.
Proof.
  unfold finalize.
  pose proof (safeRespond_answers (respondThrows tk) (Status n) h' st) as H1.
  destruct (safeRespond _ _ _ st) as [st1 fx1].
  pose proof (safeEnd_answers (endThrows tk) h' st1) as H2.
  destruct (safeEnd _ st1) as [st2 fx2]. cbn [fst snd] in *.
  intros [?|?]%elem_of_app; [auto|done].
Qed.

Lemma dataLog_answers failed ok h' st :
  StreamRespond h' ∉ dataLog requestId failed ok st.
Proof.
  unfold dataLog. destruct (0 <? _)%N; [|apply not_elem_of_nil].
  destruct (authFailed st); intros Hin;
    apply list_elem_of_singleton in Hin; discriminate.
Qed.

Ltac not_there :=
  let Hin := fresh "Hin" in
  intros Hin;
  repeat (first [ apply elem_of_cons in Hin as [Hin|Hin]; [discriminate|]
                | apply elem_of_app in Hin as [Hin|Hin] ]);
  try (by apply elem_of_nil in Hin).

(** On a bridged stream the only response headers sent to the client
    are the shard's, on its ['response'], and 502, on an ['error'] of the
    outbound stream. *)
Lemma step_answers tk st h :
  bridging st → StreamRespond h ∈ (step tk st).2 →
  (∃ hdrs, h = Relayed hdrs ∧ event tk = OutResponse hdrs) ∨
  (h = Status 502 ∧ ∃ code, event tk = OutError code).
Proof.
  intros (auth & target & session & Hp). unfold Grpc.step. rewrite Hp.
  destruct (event tk) as [| | |chunk| | | | |hdrs|chunk| |code| |] eqn:He;
    cbn [onStreamEvent onBridgeEvent snd].
  - by intros ?%elem_of_nil.
  - by intros ?%elem_of_nil.
  - by intros ?%elem_of_nil.
  - destruct (dataSentToProxy _), (_ || _); not_there.
  - intros [Hin|Hin]%elem_of_app; [by apply dataLog_answers in Hin|].
    revert Hin. destruct (_ || _); not_there.
  - not_there.
  - unfold destroyOut. not_there.
  - intros Hin. by apply dataLog_answers in Hin.
  - destruct (_ || _); [by intros ?%elem_of_nil|].
    match goal with |- context [safeRespond _ ?t ?x ?s] =>
      pose proof (safeRespond_answers t x h s) as H;
      destruct (safeRespond _ t x s) as [st' fx] end.
    cbn [snd] in *. intros [[=]|Hin]%elem_of_cons. left. exists hdrs. auto.
  - destruct (_ || _); [by intros ?%elem_of_nil|].
    cbn [snd]. destruct (dataReceivedFromProxy _), (_ || _); not_there.
  - destruct (_ || _ || _); not_there.
  - match goal with |- context [finalize _ tk 502 ?s] =>
      pose proof (finalize_answers tk 502 h s) as H;
      destruct (finalize _ tk 502 s) as [st' fx] end.
    cbn [snd] in *. intros [[=]|Hin]%elem_of_cons. right. split; [auto|by eexists].
  - match goal with |- context [safeEnd ?t ?s] =>
      pose proof (safeEnd_answers t h s) as H;
      destruct (safeEnd t s) as [st' fx] end.
    cbn [snd] in *. by intros [[=]|Hin]%elem_of_cons.
  - destruct (sessionListener _); [|by intros ?%elem_of_nil].
    destruct (_ || _); unfold destroyOut; not_there.
Qed.

(** X26.  The response a bridged client gets is the shard's own or a
    502: over any sequence of events, the response headers sent on the
    inbound stream are those of a ['response'] of the outbound stream,
    or the status 502 after an ['error'] of it. *)
Theorem bridge_answers_for_shard (st : State) (tks : list Tick) (h : RespHeaders) :
  bridging st →
  StreamRespond h ∈ (run tks st).2 →
  (∃ hdrs, h = Relayed hdrs ∧ OutResponse hdrs ∈ event <$> tks) ∨
  (h = Status 502 ∧ ∃ code, OutError code ∈ event <$> tks).
Proof.
  revert st; induction tks as [|tk tks IH]; intros st Hb.
  { by intros ?%elem_of_nil. }
  cbn [Grpc.run].
  pose proof (step_bridging resolve endpoints URL_host requestId startTime tk st Hb)
    as Hb1.
  pose proof (step_answers tk st h Hb) as Hs.
  destruct (step tk st) as [st1 fx1]. cbn [fst snd] in *.
  specialize (IH st1 Hb1). destruct (run tks st1) as [st2 fx2]. cbn [snd] in *.
  rewrite fmap_cons.
  intros [Hin|Hin]%elem_of_app.
  - destruct (Hs Hin) as [(hdrs & -> & He)|[-> (code & He)]].
    + left. exists hdrs. split; [done|]. rewrite <- He. by left.
    + right. split; [done|]. exists code. rewrite <- He. by left.
  - destruct (IH Hin) as [(hdrs & -> & He)|[-> (code & He)]].
    + left. exists hdrs. split; [done|]. by right.
    + right. split; [done|]. exists code. by right.
Qed.

End AnswerFacts.

Section ResolveOnce.
Import Fx Grpc.
Context (URL1 : string → option Http.Url) (URL2 : string → Http.Url → option Http.Url).
Context (resolve : Auth.Resolver).
Context (httpEndpoints grpcEndpoints : list string).
Context (clk : Http.Clock) (up : Http.Upstream) (req : Http.Request).
Context (URL_host : string → option string).
Context (requestId : string) (startTime : Z).

Abbreviation handle := (Http.handle URL1 URL2 resolve httpEndpoints clk up req).
Abbreviation step := (Grpc.step resolve grpcEndpoints URL_host requestId startTime).
Abbreviation run := (Grpc.run resolve grpcEndpoints URL_host requestId startTime).

Lemma resolver_calls_log l fields msg tr :
  resolver_calls (Log l fields msg :: tr) = resolver_calls tr.
Proof. unfold resolver_calls. by rewrite filter_cons_False. Qed.

Lemma past_auth_budget ph : past_auth ph → resolve_budget ph = 0.
Proof. by destruct ph. Qed.

Lemma safeRespond_calls throws h st :
  resolver_calls (safeRespond requestId throws h st).2 = 0.
Proof.
  unfold safeRespond. destruct (negb _ && negb _ && negb _); [|done].
  by destruct throws.
Qed.

Lemma safeEnd_calls throws st : resolver_calls (safeEnd throws st).2 = 0.
Proof. unfold safeEnd. destruct (negb _ && negb _); [|done]. by destruct throws. Qed.

Lemma finalize_calls tk n st :
  resolver_calls (finalize requestId tk n st).2 = 0.
Proof.
  unfold finalize.
  pose proof (safeRespond_calls (respondThrows tk) (Status n) st) as H1.
  destruct (safeRespond _ _ _ st) as [st1 fx1].
  pose proof (safeEnd_calls (endThrows tk) st1) as H2.
  destruct (safeEnd _ st1) as [st2 fx2]. cbn [fst snd] in *.
  by rewrite resolver_calls_app, H1, H2.
Qed.

Lemma dataLog_calls failed ok st :
  resolver_calls (dataLog requestId failed ok st) = 0.
Proof. unfold dataLog. destruct (0 <? _)%N; [|done]. by destruct (authFailed st). Qed.

Lemma onBridgeEvent_calls tk auth target e st :
  resolver_calls (onBridgeEvent requestId startTime tk auth target e st).2 = 0.
Proof.
  unfold onBridgeEvent. destruct e; try done; cbn [snd].
  - by destruct (dataSentToProxy _), (_ || _).
  - rewrite resolver_calls_app, dataLog_calls. by destruct (_ || _).
  - destruct (_ || _); [done|].
    match goal with |- context [safeRespond _ ?t ?h ?s] =>
      pose proof (safeRespond_calls t h s) as H;
      by destruct (safeRespond _ t h s) end.
  - destruct (_ || _); [done|]. cbn [snd].
    by destruct (dataReceivedFromProxy _), (_ || _).
  - by destruct (_ || _ || _).
  - match goal with |- context [finalize _ tk 502 ?s] =>
      pose proof (finalize_calls tk 502 s) as H;
      by destruct (finalize _ tk 502 s) end.
  - match goal with |- context [safeEnd ?t ?s] =>
      pose proof (safeEnd_calls t s) as H;
      by destruct (safeEnd t s) end.
  - destruct (sessionListener _); [|done]. by destruct (_ || _).
Qed.

Lemma onStreamEvent_calls e st :
  resolver_calls (onStreamEvent requestId e st).2 = 0 ∧
  phase (onStreamEvent requestId e st).1 = phase st.
Proof. destruct e; try done. simpl. split; [apply dataLog_calls|done]. Qed.

Lemma step_resolves tk st :
  resolver_calls (step tk st).2 + resolve_budget (phase (step tk st).1)
  ≤ resolve_budget (phase st).
Proof.
  unfold Grpc.step.
  destruct (phase st) as [|t|auth target retry|auth target session| |] eqn:Hp.
  - destruct (event tk); try (cbn [fst snd]; rewrite ?Hp; simpl; lia).
    unfold onOpen. destruct (Headers.token_missing _).
    + match goal with |- context [finalize _ tk 401 ?s] =>
        pose proof (finalize_calls tk 401 s) as H1;
        pose proof (finalize_frame requestId tk 401 s) as (H2 & _);
        destruct (finalize _ tk 401 s) as [st' fx] end.
      cbn [fst snd] in *. rewrite H2. rewrite (resolver_calls_app [_; _]), H1.
      simpl. lia.
    + simpl. lia.
  - destruct (event tk);
      try (cbn [fst snd]; rewrite ?Hp; simpl; lia);
      try (destruct (onStreamEvent_calls (event tk) st) as [H1 H2];
           match goal with |- context [onStreamEvent _ ?e st] =>
             destruct (onStreamEvent_calls e st) as [H3 H4];
             rewrite H3, H4, Hp; simpl; lia end).
    pose proof (onAuthAnswered_phase resolve grpcEndpoints requestId tk t st) as Hph.
    unfold onAuthAnswered in *.
    pose proof (authenticateToken_calls resolve (time tk) t (authCache st)) as Hc.
    destruct (Auth.authenticateToken _ _ _ _) as [[a cache] calls].
    cbn [snd] in Hc. destruct a as [[auth|]|].
    + destruct (from_option _ _ _).
      * cbn [fst snd]. rewrite resolver_calls_app, Hc. simpl. lia.
      * match goal with |- context [finalize _ tk 503 ?s] =>
          pose proof (finalize_calls tk 503 s) as H1;
          pose proof (finalize_frame requestId tk 503 s) as (H2 & _);
          destruct (finalize _ tk 503 s) as [st' fx] end.
        cbn [fst snd] in *. rewrite H2.
        rewrite resolver_calls_app, (resolver_calls_app [_; _]), Hc, H1.
        simpl. lia.
    + match goal with |- context [finalize _ tk 401 ?s] =>
        pose proof (finalize_calls tk 401 s) as H1;
        pose proof (finalize_frame requestId tk 401 s) as (H2 & _);
        destruct (finalize _ tk 401 s) as [st' fx] end.
      cbn [fst snd] in *. rewrite H2.
      rewrite resolver_calls_app, (resolver_calls_app [_]), Hc, H1. simpl. lia.
    + unfold caught.
      match goal with |- context [finalize _ tk 500 ?s] =>
        pose proof (finalize_calls tk 500 s) as H1;
        pose proof (finalize_frame requestId tk 500 s) as (H2 & _);
        destruct (finalize _ tk 500 s) as [st' fx] end.
      cbn [fst snd] in *. rewrite H2.
      rewrite resolver_calls_app, resolver_calls_log, Hc, H1. simpl. lia.
  - destruct (event tk) as [| |r| | | | | | | | | | |];
      try (cbn [fst snd]; rewrite ?Hp; simpl; lia);
      try (match goal with |- context [onStreamEvent _ ?e st] =>
             destruct (onStreamEvent_calls e st) as [H3 H4];
             rewrite H3, H4, Hp; simpl; lia end).
    pose proof (onSessionSettled_phase URL_host requestId tk auth target retry r st)
      as Hph.
    assert (resolver_calls
              (onSessionSettled URL_host requestId tk auth target retry r st).2 = 0)
      as ->.
    { unfold onSessionSettled, bridge, caught. destruct r as [session d c k|e].
      - destruct (negb retry && _); [done|]. destruct (d || c).
        + match goal with |- context [finalize _ tk 503 ?s] =>
            pose proof (finalize_calls tk 503 s) as H1;
            destruct (finalize _ tk 503 s) as [st' fx] end.
          cbn [snd] in *. by rewrite resolver_calls_log.
        + destruct (URL_host target); [done|].
          match goal with |- context [finalize _ tk 500 ?s] =>
            pose proof (finalize_calls tk 500 s) as H1;
            destruct (finalize _ tk 500 s) as [st' fx] end.
          cbn [snd] in *. by rewrite resolver_calls_log.
      - match goal with |- context [finalize _ tk 503 ?s] =>
          pose proof (finalize_calls tk 503 s) as H1;
          destruct (finalize _ tk 503 s) as [st' fx] end.
        cbn [snd] in *. by rewrite resolver_calls_log. }
    rewrite (past_auth_budget _ Hph). simpl. lia.
  - assert (resolver_calls
              (onBridgeEvent requestId startTime tk auth target (event tk) st).2
            + resolve_budget
                (phase (onBridgeEvent requestId startTime tk auth target
                          (event tk) st).1) ≤ 0) as Hb.
    { rewrite onBridgeEvent_calls.
      rewrite (proj2 (onBridgeEvent_pool requestId startTime tk auth target
                        (event tk) st)), Hp.
      simpl. lia. }
    destruct (event tk); try exact Hb;
      match goal with |- context [onStreamEvent _ ?e st] =>
        destruct (onStreamEvent_calls e st) as [H3 H4];
        rewrite H3, H4, Hp; simpl; lia end.
  - destruct (event tk);
      try (cbn [fst snd]; unfold count; cbn [phase set_counters];
           rewrite ?Hp; simpl; lia);
      match goal with |- context [onStreamEvent _ ?e st] =>
        destruct (onStreamEvent_calls e st) as [H3 H4];
        rewrite H3, H4, Hp; simpl; lia end.
  - destruct (event tk);
      try (cbn [fst snd]; unfold count; cbn [phase set_counters];
           rewrite ?Hp; simpl; lia);
      match goal with |- context [onStreamEvent _ ?e st] =>
        destruct (onStreamEvent_calls e st) as [H3 H4];
        rewrite H3, H4, Hp; simpl; lia end.
Qed.

Lemma run_resolves tks st :
  resolver_calls (run tks st).2 + resolve_budget (phase (run tks st).1)
  ≤ resolve_budget (phase st).
Proof.
  revert st; induction tks as [|tk tks IH]; intros st; simpl; [lia|].
  pose proof (step_resolves tk st) as H1.
  destruct (step tk st) as [st1 fx1]. cbn [fst snd] in *.
  specialize (IH st1). destruct (run tks st1) as [st2 fx2].
  cbn [fst snd] in *. rewrite resolver_calls_app. lia.
Qed.

Lemma proxy_writes_calls (body : list string) :
  resolver_calls (ProxyWrite <$> body) = 0.
Proof. by induction body. Qed.

Lemma res_writes_calls (body : list string) :
  resolver_calls (ResWrite <$> body) = 0.
Proof. by induction body. Qed.

Lemma captured_calls auth : resolver_calls (Http.captured clk req auth) = 0.
Proof. unfold Http.captured. by destruct (0 <? _)%N. Qed.

Lemma relay_calls auth target : resolver_calls (Http.relay clk up auth target) = 0.
Proof.
  unfold Http.relay. destruct up as [sc hdrs body ea|sc hdrs body|]; [| |done];
    (destruct (Http.writeHead_throws _); [done|]);
    rewrite !resolver_calls_app, res_writes_calls; [by destruct ea|done].
Qed.

(** X27.  The resolver is asked exactly once for a request that carries a
    token and never for one that carries none; a stream asks it at most
    once, whatever events it sees. *)
Theorem resolves_at_most_once
    (cache : gmap string Auth.CachedAuth) (tks : list Tick) :
  resolver_calls (handle cache).2
  = (if Headers.token_missing
          (Headers.getBearerToken (Headers.getAuthHeader (Http.req_headers req)))
     then 0 else 1) ∧
  resolver_calls (run tks (init cache)).2 ≤ 1.
Proof.
  split.
  - unfold Http.handle. destruct (Headers.token_missing _).
    + cbn [snd]. by rewrite (resolver_calls_app [_; _]), reject_calls.
    + pose proof (authenticateToken_calls resolve (Http.authTime clk)
                    (default "" (Headers.getBearerToken
                                   (Headers.getAuthHeader (Http.req_headers req))))
                    cache) as Hc.
      destruct (Auth.authenticateToken _ _ _ _) as [[a cache'] calls].
      cbn [snd] in Hc. destruct a as [[auth|]|].
      * destruct (from_option _ _ _).
        -- destruct (_ ≫= _); [destruct (Http.request_throws _)|]; cbn [snd];
             rewrite !resolver_calls_app, Hc,
               ?proxy_writes_calls, ?captured_calls, ?relay_calls; done.
        -- cbn [snd]. by rewrite !resolver_calls_app, Hc.
      * cbn [snd]. by rewrite !resolver_calls_app, Hc, reject_calls.
      * cbn [snd]. by rewrite !resolver_calls_app, Hc.
  - pose proof (run_resolves tks (init cache)) as H. simpl in H. lia.
Qed.

End ResolveOnce.

(** ** The further properties on the scenario *)

Lemma getBearerToken_trimmed_witness :
  Js.trim "abc def" = "abc def".
Proof.
  apply (getBearerToken_trimmed (Some (Headers.HStr "Bearer   abc def  "))).
  reflexivity.
Defined.

Lemma getBearerToken_recovers_witness :
  Headers.getBearerToken (Some (Headers.HStr "Bearer abc")) = Some "abc" ∧
  Headers.getBearerToken (Some (Headers.HStr "abc")) = Some "abc".
Proof.
  pose proof (getBearerToken_recovers " " "abc" [] eq_refl eq_refl eq_refl eq_refl)
    as (H1 & _ & _ & H4).
  split; [exact H1|exact H4].
Defined.

Lemma getAuthHeader_any_casing_witness :
  Headers.getAuthHeader Sample.capitalised = Some (Headers.HStr "Bearer abc").
Proof.
  apply (getAuthHeader_any_casing Sample.capitalised "Authorization");
    [reflexivity|reflexivity|].
  intros k Hk Ha.
  apply elem_of_cons in Hk as [->|Hk]; [discriminate Ha|].
  apply elem_of_cons in Hk as [->|Hk]; [reflexivity|].
  by apply elem_of_nil in Hk.
Defined.

Lemma authenticateToken_within_ttl_witness :
  (2000 < Auth.expiresAt Scenario.cached ≤ 2000 + 60000)%Z.
Proof.
  apply (authenticateToken_within_ttl (Scenario.resolve (Some "shard-1"))
           [ (1002%Z, "abc") ] 2000 "abc" Scenario.cached
           (<["5f2c" := Scenario.cached]> ∅) [ Fx.ResolveToken "abc" ]).
  - apply Forall_cons_2; [simpl; lia|apply Forall_nil_2].
  - reflexivity.
Defined.

Lemma authenticateToken_frame_witness :
  (Auth.authenticateToken (Scenario.resolve None) 1002 "nope"
     (<["5f2c" := Scenario.cached]> ∅)).1.2
  = <["5f2c" := Scenario.cached]> ∅ ∧
  (Auth.authenticateToken (Scenario.resolve None) 1002 "nope"
     (<["5f2c" := Scenario.cached]> ∅)).2
  = [ Fx.ResolveToken "nope" ].
Proof.
  apply (authenticateToken_frame (Scenario.resolve None) 1002 "nope"
           (<["5f2c" := Scenario.cached]> ∅)).
  intros a. discriminate.
Defined.

Lemma authenticateToken_refreshes_expired_witness :
  Auth.authenticateToken (Scenario.resolve (Some "shard-1")) 61002 "abc"
    (<["5f2c" := Scenario.cached]> ∅)
  = (Auth.Return (Some {| Auth.teamId := "t1";
                          Auth.assignedShard := Some "shard-1";
                          Auth.expiresAt := 61002 + 60000 |}),
     <["5f2c" := {| Auth.teamId := "t1";
                    Auth.assignedShard := Some "shard-1";
                    Auth.expiresAt := 61002 + 60000 |}]>
       (<["5f2c" := Scenario.cached]> ∅),
     [ Fx.ResolveToken "abc"; Fx.MarkUsed "id-1" ]).
Proof.
  apply (authenticateToken_refreshes_expired (Scenario.resolve (Some "shard-1"))
           61002 "abc" (<["5f2c" := Scenario.cached]> ∅) Scenario.resolved);
    [reflexivity|reflexivity|].
  intros c Hc. rewrite lookup_insert_eq in Hc. injection Hc as <-. simpl. lia.
Defined.

Ltac pick_member :=
  apply list_elem_of_In; vm_compute;
  repeat first [ left; reflexivity | right ].

Lemma forwarded_request_authenticated_witness :
  ∃ t auth,
    Headers.getBearerToken
      (Headers.getAuthHeader (Http.req_headers Sample.request)) = Some t ∧
    (Auth.authenticateToken (Scenario.resolve (Some "shard-1"))
       (Http.authTime Scenario.clk) t ∅).1.1 = Auth.Return (Some auth) ∧
    Headers.get "x-hdx-team-id"
      [ ("host", Headers.HStr "h1:9");
        ("authorization", Headers.HStr "Bearer abc");
        ("x-hdx-team-id", Headers.HStr "t1") ]
      = Some (Headers.HStr (Auth.teamId auth)).
Proof.
  destruct (forwarded_request_authenticated Scenario.URL1 Scenario.URL2
              (Scenario.resolve (Some "shard-1")) Scenario.endpoints
              Scenario.clk Scenario.up Sample.request ∅
              {| Fx.protocol := "http:"; Fx.hostname := "h1"; Fx.port := "9";
                 Fx.method := Some "POST"; Fx.path := "/v1/logs";
                 Fx.headers :=
                   [ ("host", Headers.HStr "h1:9");
                     ("authorization", Headers.HStr "Bearer abc");
                     ("x-hdx-team-id", Headers.HStr "t1") ] |})
    as (t & auth & H1 & H2 & H3 & _).
  - pick_member.
  - exists t, auth. split; [exact H1|]. split; [exact H2|exact H3].
Defined.

Lemma no_endpoint_503_witness :
  Fx.statuses
    (Http.handle Scenario.URL1 Scenario.URL2 (Scenario.resolve (Some "shard-7"))
       Scenario.endpoints Scenario.clk Scenario.up Sample.request ∅).2
  = [ 503%N ] ∧
  Fx.forwards
    (Http.handle Scenario.URL1 Scenario.URL2 (Scenario.resolve (Some "shard-7"))
       Scenario.endpoints Scenario.clk Scenario.up Sample.request ∅).2
  = [].
Proof.
  pose proof (no_endpoint_503 Scenario.URL1 Scenario.URL2
                (Scenario.resolve (Some "shard-7")) Scenario.endpoints
                Scenario.clk Scenario.up Sample.request
                ∅ (<["5f2c" := Sample.record "shard-7"]> ∅) "abc"
                (Sample.record "shard-7")
                [ Fx.ResolveToken "abc"; Fx.MarkUsed "id-1" ]
                eq_refl eq_refl eq_refl eq_refl) as (H1 & H2 & _).
  split; [exact H1|exact H2].
Defined.

Lemma exception_500_witness :
  Fx.statuses
    (Http.handle Scenario.URL1 Scenario.URL2 Sample.failing
       Scenario.endpoints Scenario.clk Scenario.up Sample.request ∅).2
  = [ 500%N ] ∧
  Fx.statuses
    (Http.handle Scenario.URL1 Scenario.URL2 (Scenario.resolve (Some "shard-1"))
       [ "http://h0:9"; "h1" ] Scenario.clk Scenario.up Sample.request ∅).2
  = [ 500%N ].
Proof.
  pose proof (exception_500 Scenario.URL1 Scenario.URL2 Sample.failing
                Scenario.endpoints Scenario.clk Scenario.up Sample.request
                ∅ ∅ "abc" Scenario.cached [] "" eq_refl eq_refl) as [H1 _].
  pose proof (exception_500 Scenario.URL1 Scenario.URL2
                (Scenario.resolve (Some "shard-1")) [ "http://h0:9"; "h1" ]
                Scenario.clk Scenario.up Sample.request
                ∅ (<["5f2c" := Scenario.cached]> ∅) "abc" Scenario.cached
                [ Fx.ResolveToken "abc"; Fx.MarkUsed "id-1" ] "h1"
                eq_refl eq_refl) as [_ H2].
  split.
  - rewrite (H1 eq_refl). reflexivity.
  - exact (proj1 (H2 eq_refl eq_refl eq_refl eq_refl)).
Defined.


Lemma pipeHttp_inlined_witness :
  match Http.pipeHttp Scenario.URL1 Scenario.URL2 Scenario.up Sample.request
          "http://h1:9" "t1" "r-1" with
  | Some fx =>
      actions
        (Http.handle Scenario.URL1 Scenario.URL2
           (Scenario.resolve (Some "shard-1")) Scenario.endpoints Scenario.clk
           Scenario.up Sample.request ∅).2
      = [ Fx.ResolveToken "abc"; Fx.MarkUsed "id-1" ] ++ actions fx
  | None =>
      Fx.statuses
        (Http.handle Scenario.URL1 Scenario.URL2
           (Scenario.resolve (Some "shard-1")) Scenario.endpoints Scenario.clk
           Scenario.up Sample.request ∅).2
      = [ 500%N ]
  end.
Proof.
  exact (pipeHttp_inlined Scenario.URL1 Scenario.URL2
           (Scenario.resolve (Some "shard-1")) Scenario.endpoints
           Scenario.clk Scenario.up Sample.request
           ∅ (<["5f2c" := Scenario.cached]> ∅) "abc" Scenario.cached
           [ Fx.ResolveToken "abc"; Fx.MarkUsed "id-1" ] "http://h1:9"
           eq_refl eq_refl eq_refl eq_refl eq_refl).
Defined.

Lemma pool_holds_established_sessions_witness :
  ∃ s, Pool.heap (Pool.run Sample.established Pool.init).1 !! 0 = Some s ∧
       Pool.target s = "http://h1:9" ∧ Pool.connecting s = false ∧
       Pool.timeout s = false.
Proof.
  destruct (pool_holds_established_sessions Sample.established "http://h1:9" 0
              eq_refl) as (s & H1 & H2 & H3 & H4 & _).
  exists s. split; [exact H1|]. split; [exact H2|]. split; [exact H3|exact H4].
Defined.


Lemma torn_down_session_not_reused_witness :
  Fx.Resolve 1 0 ∉
    (Pool.run [ Pool.Connect 0; Pool.Acquire "http://h1:9" false ]
       (Pool.step (Pool.Close 0) (Pool.run Sample.established Pool.init).1).1).2.
Proof.
  apply (torn_down_session_not_reused Sample.established
           [ Pool.Connect 0; Pool.Acquire "http://h1:9" false ]
           (Pool.Close 0) 0 1).
  - eexists. reflexivity.
  - left. reflexivity.
Defined.

Lemma connect_timeout_rejects_witness :
  (Pool.run [ Pool.Acquire "http://h1:9" false; Pool.ConnectTimeout 0 ]
     Pool.init).2
  = [ Fx.Http2Connect "http://h1:9" 0; Fx.SessionDestroy 0;
      Fx.Reject 0 (Fx.ErrTimeout "http://h1:9") ] ∧
  Fx.Resolve 0 0 ∉
    (Pool.run [ Pool.Connect 0 ]
       (Pool.run [ Pool.Acquire "http://h1:9" false; Pool.ConnectTimeout 0 ]
          Pool.init).1).2.
Proof.
  pose proof (connect_timeout_rejects [] [ Pool.Connect 0 ] "http://h1:9" 0
                eq_refl) as (H1 & _ & _ & H4).
  split; [exact H1|exact H4].
Defined.

Lemma bridge_carries_in_order_witness :
  out_writes (Scenario.run Sample.traffic Scenario.bridged).2 = [ "ab"; ""; "c" ] ∧
  stream_writes (Scenario.run Sample.traffic Scenario.bridged).2 = [ "ok" ].
Proof.
  assert (bridging Scenario.bridged) as Hb.
  { exists Scenario.cached, "http://h1:9", 0. reflexivity. }
  pose proof (bridge_carries_in_order (Scenario.resolve (Some "shard-1"))
                Scenario.endpoints Scenario.URL_host "r-1" 1000%Z
                Scenario.bridged Sample.traffic Hb) as (_ & H2 & _ & H4).
  split; [exact (H2 eq_refl)|exact (H4 eq_refl)].
Defined.

Lemma stream_counts_every_chunk_witness :
  Grpc.counters (Scenario.run Sample.traffic Scenario.bridged).1
  = {| Grpc.bytesReceived := 3; Grpc.chunkCount := 3;
       Grpc.firstChunk := Some "ab" |}.
Proof.
  apply (stream_counts_every_chunk (Scenario.resolve (Some "shard-1"))
           Scenario.endpoints Scenario.URL_host "r-1" 1000%Z
           Scenario.bridged Sample.traffic).
  left. exists Scenario.cached, "http://h1:9", 0. reflexivity.
Defined.

Lemma stream_unavailable_503_witness :
  Fx.statuses
    (Grpc.run (Scenario.resolve (Some "shard-7")) Scenario.endpoints
       Scenario.URL_host "r-1" 1000 [ Scenario.tick Grpc.AuthAnswered ]
       Sample.opened).2 = [ 503%N ] ∧
  Fx.statuses
    (Scenario.run
       [ Scenario.tick (Grpc.SessionSettled (Grpc.AcqOk 0 true true false)) ]
       (Sample.waiting true)).2 = [ 503%N ].
Proof.
  pose proof (stream_unavailable_503 (Scenario.resolve (Some "shard-7"))
                Scenario.endpoints Scenario.URL_host "r-1" 1000%Z
                (Scenario.tick Grpc.AuthAnswered) Sample.opened "abc"
                (Sample.record "shard-7")
                (<["5f2c" := Sample.record "shard-7"]> ∅)
                [ Fx.ResolveToken "abc"; Fx.MarkUsed "id-1" ]
                "" 0 false false false) as [H1 _].
  pose proof (stream_unavailable_503 (Scenario.resolve (Some "shard-1"))
                Scenario.endpoints Scenario.URL_host "r-1" 1000%Z
                (Scenario.tick
                   (Grpc.SessionSettled (Grpc.AcqOk 0 true true false)))
                (Sample.waiting true) "abc" Scenario.cached ∅ []
                "http://h1:9" 0 true true false) as [_ H2].
  split.
  - apply (H1 eq_refl eq_refl eq_refl eq_refl). by split_and!.
  - apply (H2 eq_refl eq_refl eq_refl). by split_and!.
Defined.


Lemma failed_ping_evicts_witness :
  Pool.sessions
    (Pool.step (Pool.PingTick 0 Pool.PingFails)
       (Pool.run Sample.established Pool.init).1).1 !! "http://h1:9" = None ∧
  Fx.Resolve 2 0 ∉
    (Pool.run [ Pool.Acquire "http://h1:9" false ]
       (Pool.step (Pool.PingTick 0 Pool.PingFails)
          (Pool.run Sample.established Pool.init).1).1).2.
Proof.
  pose proof (failed_ping_evicts Sample.established
                [ Pool.Acquire "http://h1:9" false ] 0
                {| Pool.target := "http://h1:9"; Pool.connecting := false;
                   Pool.closed := false; Pool.destroyed := false;
                   Pool.creator := 0; Pool.timeout := false;
                   Pool.pingInterval := true; Pool.onConnect := [];
                   Pool.onError := [] |} 2
                eq_refl eq_refl eq_refl eq_refl) as (_ & (H1 & _ & _ & H2) & _).
  split; [exact H1|exact H2].
Defined.

Lemma bridge_answers_for_shard_witness :
  (∃ hdrs, Fx.Relayed [ (":status", Headers.HStr "200") ] = Fx.Relayed hdrs ∧
     Grpc.OutResponse hdrs ∈
       Grpc.event <$>
         [ Scenario.tick (Grpc.OutResponse [ (":status", Headers.HStr "200") ]) ]) ∨
  (Fx.Relayed [ (":status", Headers.HStr "200") ] = Fx.Status 502 ∧
   ∃ code, Grpc.OutError code ∈
       Grpc.event <$>
         [ Scenario.tick (Grpc.OutResponse [ (":status", Headers.HStr "200") ]) ]).
Proof.
  apply (bridge_answers_for_shard (Scenario.resolve (Some "shard-1"))
           Scenario.endpoints Scenario.URL_host "r-1" 1000%Z Scenario.bridged).
  - exists Scenario.cached, "http://h1:9", 0. reflexivity.
  - apply list_elem_of_In. vm_compute. tauto.
Defined.
